(** * claude-run: conversation reader, token accounting, search, path codec,
    fork reconstruction and change watcher

  A shallow embedding of [api/storage.ts], of the classes [ClaudeWatcher]
  and [ClaudeStorage] of the server sources, and of [buildBranch] from the
  session view, with the properties of the design document proved or
  refuted on it.

  Modelling conventions.
  - Text is [string]; a character stands for one byte and one UTF-16 code
    unit, so the model covers transcripts in the 7-bit ASCII range, where
    [Buffer.byteLength(s, "utf-8")], [s.length] and file offsets agree.
  - Byte offsets and sizes are [nat]; epoch-millisecond times are [Z].
  - Token counters are JavaScript numbers, which are IEEE 754 doubles: they
    are added with the binary64 addition that the Standard Library
    specifies ([SpecFloat]).
  - A caught exception is [None]; the [try]/[catch] blocks of the source
    are written as matches on [option].
  - [JSON.parse] belongs to the runtime, not to the repository: every
    reader takes it as a parameter [parse : string -> option json].
    [Json.parse] below is an executable instance used for the examples. *)

From Stdlib Require Import ZArith Ascii String List Bool Lia Sorted SpecFloat.
From stdpp Require Import base option list gmap strings.

Open Scope Z_scope.
Open Scope nat_scope.

(* ===================================================================== *)
(** ** The JavaScript runtime the code relies on *)
(* ===================================================================== *)

Module Js.

Definition LF : ascii := "010"%char.
Definition CR : ascii := "013"%char.

(** White space and line terminators of ECMAScript in the ASCII range:
    what [String.prototype.trim] strips. *)
Definition is_ws (c : ascii) : bool :=
  match c with
  | "009" | "010" | "011" | "012" | "013" | " " => true
  | _ => false
  end%char.

Definition is_empty (s : string) : bool :=
  match s with "" => true | _ => false end.

(** Truthiness of a string: [Boolean(s)], [if (s)], [!s]. *)
Definition truthy_str (s : string) : bool := negb (is_empty s).

Fixpoint trimStart (s : string) : string :=
  match s with
  | String c s' => if is_ws c then trimStart s' else s
  | "" => ""
  end.

Fixpoint trimEnd (s : string) : string :=
  match s with
  | String c s' =>
      let r := trimEnd s' in
      if is_ws c && is_empty r then "" else String c r
  | "" => ""
  end.

(** [s.trim()] *)
Definition trim (s : string) : string := trimEnd (trimStart s).

(** [s.split("\n")]: the pieces between line feeds; never empty. *)
Fixpoint split_lf (s : string) : list string :=
  match s with
  | "" => [""]
  | String c s' =>
      if Ascii.eqb c LF then "" :: split_lf s'
      else match split_lf s' with
           | l :: ls => String c l :: ls
           | [] => [String c ""]
           end
  end.

(** [s.slice(n)] for [0 <= n]. *)
Fixpoint slice_from (n : nat) (s : string) : string :=
  match n, s with
  | 0, _ => s
  | S n', String _ s' => slice_from n' s'
  | S _, "" => ""
  end.

(** [s.slice(0, n)] for [0 <= n]. *)
Fixpoint slice_to (n : nat) (s : string) : string :=
  match n, s with
  | 0, _ => ""
  | S n', String c s' => String c (slice_to n' s')
  | S _, "" => ""
  end.

(** [Buffer.byteLength(s, "utf-8")] on ASCII text. *)
Definition byteLength (s : string) : nat := String.length s.

(** [s.toLowerCase()] on ASCII text. *)
Definition lower_char (c : ascii) : ascii :=
  let n := nat_of_ascii c in
  if (65 <=? n) && (n <=? 90) then ascii_of_nat (n + 32) else c.

Fixpoint toLowerCase (s : string) : string :=
  match s with
  | "" => ""
  | String c s' => String (lower_char c) (toLowerCase s')
  end.

(** [s.startsWith(p)], [s.endsWith(p)], [s.includes(p)], [s.indexOf(p)] *)
Fixpoint startsWith (p s : string) : bool :=
  match p, s with
  | "", _ => true
  | String a p', String b s' => Ascii.eqb a b && startsWith p' s'
  | String _ _, "" => false
  end.

Fixpoint indexOf_from (i : nat) (p s : string) : option nat :=
  if startsWith p s then Some i
  else match s with
       | "" => None
       | String _ s' => indexOf_from (S i) p s'
       end.

Definition indexOf (p s : string) : option nat := indexOf_from 0 p s.

Definition includes (p s : string) : bool :=
  match indexOf p s with Some _ => true | None => false end.

Definition endsWith (p s : string) : bool :=
  let n := String.length s in
  let k := String.length p in
  (k <=? n) && String.eqb (slice_from (n - k) s) p.

(** [xs.join(sep)] *)
Fixpoint join (sep : string) (xs : list string) : string :=
  match xs with
  | [] => ""
  | [x] => x
  | x :: rest => x +:+ sep +:+ join sep rest
  end.

(** [path.basename(path)] and [path.dirname(path)] of a normalized
    POSIX path (no trailing or repeated separator): the text after the
    last separator; the text before it, which is [/] for an entry of the
    root and [.] for a path without separator. *)
Fixpoint basename (path : string) : string :=
  match path with
  | "" => ""
  | String c rest =>
      if includes "/" rest then basename rest
      else if Ascii.eqb c "/"%char then rest
      else path
  end.

Fixpoint before_last_separator (path : string) : string :=
  match path with
  | "" => ""
  | String c rest =>
      if includes "/" rest then String c (before_last_separator rest)
      else ""
  end.

Definition dirname (path : string) : string :=
  if includes "/" path then
    let dir := before_last_separator path in
    if is_empty dir then "/" else dir
  else ".".

(** [path.basename(path, ext)]: the extension is cut from the base name
    that ends with it and is longer than it; a path equal to the
    extension gives the empty string. *)
Definition basename_ext (path ext : string) : string :=
  if String.eqb ext path then ""
  else
    let name := basename path in
    if endsWith ext name && negb (String.eqb name ext)
    then slice_to (String.length name - String.length ext) name
    else name.

(** [path.join(dir, name)] for a directory and an entry name. *)
Definition path_join (dir name : string) : string := dir +:+ "/" +:+ name.

(** [xs.sort((a, b) => key(b) - key(a))]: descending on an integer key;
    the sort of the runtime is stable, elements of equal key keep their
    order. *)
Section Sort.
Context {A : Type} (key : A -> Z).

Fixpoint insert_desc (x : A) (xs : list A) : list A :=
  match xs with
  | [] => [x]
  | y :: ys =>
      if (key y <=? key x)%Z then x :: y :: ys
      else y :: insert_desc x ys
  end.

Definition sort_desc (xs : list A) : list A :=
  foldr insert_desc [] xs.
End Sort.

End Js.

(* ===================================================================== *)
(** ** JavaScript numbers *)
(* ===================================================================== *)

Module Number.

(** The Number type is IEEE 754 binary64: 53 significant bits, infinities
    at the exponent 1024. *)
Definition prec : Z := 53.
Definition emax : Z := 1024.

Abbreviation double := spec_float.

Definition zero : double := S754_zero false.

(** The Number value of an integer literal: the double nearest to it, the
    even one of two equally near, an infinity past the largest double. *)
Definition of_Z (z : Z) : double := binary_normalize prec emax z 0 false.

(** [x + y] and [x < y] on numbers. *)
Definition add (x y : double) : double := SFadd prec emax x y.
Definition ltb (x y : double) : bool := SFltb x y.

(** [Boolean(x)]: false for [0], [-0] and [NaN]. *)
Definition truthy (x : double) : bool :=
  match x with
  | S754_zero _ | S754_nan => false
  | _ => true
  end.

(** What a variable declared [number] holds when its value comes from
    unchecked data: a number, or a value of another type, of which nothing
    is kept. *)
Inductive value :=
| Num (x : double)
| Other.

(** [a + b]: the sum of two numbers. With a value of another type the
    operator concatenates or coerces; that result is not followed. *)
Definition plus (a b : value) : value :=
  match a, b with
  | Num x, Num y => Num (add x y)
  | _, _ => Other
  end.

(** [a || 0] on a value that is a number or a truthy value of another
    type. *)
Definition or_0 (a : value) : value :=
  match a with
  | Num x => if truthy x then a else Num zero
  | Other => Other
  end.

(** The number of binary digits of a mantissa, and a mantissa moved [k]
    binary places up: used to state how integers are represented. *)
Definition digits (p : positive) : Z := Zpos (digits2_pos p).

Definition shl (p : positive) (k : Z) : positive :=
  match k with
  | Zpos k' => Pos.iter xO p k'
  | _ => p
  end.

End Number.

(* ===================================================================== *)
(** ** JSON values and [JSON.parse] *)
(* ===================================================================== *)

Module Json.

Set Warnings "-register-all".

(** Values produced by [JSON.parse]. Numbers are integers, written in
    full: the counters and timestamps the code reads. Where the code
    computes with a number, its value is the double [Number.of_Z n]. *)
Inductive json : Type :=
| JNull
| JBool (b : bool)
| JNum (n : Z)
| JStr (s : string)
| JArr (items : list json)
| JObj (fields : list (string * json)).

(** Own property of an object, [None] for [undefined]. Later bindings of
    a repeated key win, as in [JSON.parse]. Non-objects have none of the
    properties the code reads. *)
Fixpoint lookup_last (k : string) (fs : list (string * json)) : option json :=
  match fs with
  | [] => None
  | (k', v) :: rest =>
      match lookup_last k rest with
      | Some v' => Some v'
      | None => if String.eqb k k' then Some v else None
      end
  end.

(** [v?.k] *)
Definition get (k : string) (v : json) : option json :=
  match v with
  | JObj fs => lookup_last k fs
  | _ => None
  end.

(** [Boolean(v)] for a possibly undefined value. *)
Definition truthy (v : option json) : bool :=
  match v with
  | None | Some JNull => false
  | Some (JBool b) => b
  | Some (JNum n) => negb (n =? 0)%Z
  | Some (JStr s) => Js.truthy_str s
  | Some (JArr _) | Some (JObj _) => true
  end.

(** A field read at a declared type [string]. *)
Definition as_string (v : option json) : option string :=
  match v with Some (JStr s) => Some s | _ => None end.

(** [v || 0] for a counter declared [number]: the number, and 0 for a
    missing, [null] or otherwise falsy value; a truthy value of another
    type is kept by [||], as [Number.Other]. *)
Definition num_or_0 (v : option json) : Number.value :=
  match v with
  | Some (JNum n) => Number.Num (Number.of_Z n)
  | _ => if truthy v then Number.Other else Number.Num Number.zero
  end.

(** *** An executable [JSON.parse]

    The JSON grammar of ECMA-404 on ASCII text, by recursive descent. Two
    kinds of text lie outside the modelled data and are refused here:
    number literals with a fraction or an exponent, and [\u] escapes
    beyond the ASCII range. *)

Definition QUOTE : ascii := "034"%char.
Definition BACKSLASH : ascii := "092"%char.

Definition is_json_ws (c : ascii) : bool :=
  match c with
  | "009" | "010" | "013" | " " => true
  | _ => false
  end%char.

Fixpoint skip_ws (s : string) : string :=
  match s with
  | String c s' => if is_json_ws c then skip_ws s' else s
  | "" => ""
  end.

Definition is_digit (c : ascii) : bool :=
  let n := nat_of_ascii c in (48 <=? n) && (n <=? 57).

Definition digit_val (c : ascii) : Z := Z.of_nat (nat_of_ascii c - 48).

Definition hex_val (c : ascii) : option nat :=
  let n := nat_of_ascii c in
  if (48 <=? n) && (n <=? 57) then Some (n - 48)
  else if (65 <=? n) && (n <=? 70) then Some (n - 55)
  else if (97 <=? n) && (n <=? 102) then Some (n - 87)
  else None.

Fixpoint parse_digits (acc : Z) (s : string) : Z * string :=
  match s with
  | String c s' =>
      if is_digit c then parse_digits (acc * 10 + digit_val c)%Z s'
      else (acc, s)
  | "" => (acc, "")
  end.

(** An optional minus sign, then 0 or a digit sequence without leading
    zero; not followed by a fraction or an exponent. *)
Definition parse_number (s : string) : option (Z * string) :=
  let '(neg, s1) :=
    match s with
    | String "-"%char r => (true, r)
    | _ => (false, s)
    end in
  let digits :=
    match s1 with
    | String "0"%char r => Some (0%Z, r)
    | String c _ => if is_digit c then Some (parse_digits 0 s1) else None
    | "" => None
    end in
  match digits with
  | Some (n, r) =>
      match r with
      | String "."%char _ | String "e"%char _ | String "E"%char _ => None
      | _ => Some (if neg then (- n)%Z else n, r)
      end
  | None => None
  end.

Definition unescape (c : ascii) : option ascii :=
  match c with
  | "034" => Some "034"
  | "092" => Some "092"
  | "/" => Some "/"
  | "b" => Some "008"
  | "f" => Some "012"
  | "n" => Some "010"
  | "r" => Some "013"
  | "t" => Some "009"
  | _ => None
  end%char.

Definition hex4 (a b c d : ascii) : option ascii :=
  match hex_val a, hex_val b, hex_val c, hex_val d with
  | Some x, Some y, Some z, Some w =>
      let v := ((x * 16 + y) * 16 + z) * 16 + w in
      if v <? 128 then Some (ascii_of_nat v) else None
  | _, _, _, _ => None
  end.

Definition cons_char (c : ascii) (r : option (string * string))
  : option (string * string) :=
  match r with
  | Some (s, rest) => Some (String c s, rest)
  | None => None
  end.

(** The characters of a string literal after its opening quotation mark. *)
Fixpoint parse_chars (s : string) : option (string * string) :=
  match s with
  | "" => None
  | String c r =>
      if Ascii.eqb c QUOTE then Some ("", r)
      else if Ascii.eqb c BACKSLASH then
        match r with
        | String "u"%char (String h1 (String h2 (String h3 (String h4 r')))) =>
            match hex4 h1 h2 h3 h4 with
            | Some ch => cons_char ch (parse_chars r')
            | None => None
            end
        | String e r' =>
            match unescape e with
            | Some ch => cons_char ch (parse_chars r')
            | None => None
            end
        | "" => None
        end
      else if nat_of_ascii c <? 32 then None
      else cons_char c (parse_chars r)
  end.

Fixpoint parse_value (fuel : nat) (s : string) : option (json * string) :=
  match fuel with
  | 0 => None
  | S fuel' =>
      match skip_ws s with
      | String "{"%char r =>
          match skip_ws r with
          | String "}"%char r' => Some (JObj [], r')
          | r1 => parse_members fuel' r1 []
          end
      | String "["%char r =>
          match skip_ws r with
          | String "]"%char r' => Some (JArr [], r')
          | r1 => parse_elements fuel' r1 []
          end
      | String "034"%char r =>
          match parse_chars r with
          | Some (str, r') => Some (JStr str, r')
          | None => None
          end
      | s1 =>
          if Js.startsWith "true" s1 then Some (JBool true, Js.slice_from 4 s1)
          else if Js.startsWith "false" s1 then Some (JBool false, Js.slice_from 5 s1)
          else if Js.startsWith "null" s1 then Some (JNull, Js.slice_from 4 s1)
          else match parse_number s1 with
               | Some (n, r) => Some (JNum n, r)
               | None => None
               end
      end
  end
with parse_elements (fuel : nat) (s : string) (acc : list json)
  : option (json * string) :=
  match fuel with
  | 0 => None
  | S fuel' =>
      match parse_value fuel' s with
      | Some (v, r) =>
          match skip_ws r with
          | String ","%char r' => parse_elements fuel' r' (v :: acc)
          | String "]"%char r' => Some (JArr (rev (v :: acc)), r')
          | _ => None
          end
      | None => None
      end
  end
with parse_members (fuel : nat) (s : string) (acc : list (string * json))
  : option (json * string) :=
  match fuel with
  | 0 => None
  | S fuel' =>
      match skip_ws s with
      | String "034"%char r =>
          match parse_chars r with
          | Some (k, r1) =>
              match skip_ws r1 with
              | String ":"%char r2 =>
                  match parse_value fuel' r2 with
                  | Some (v, r3) =>
                      match skip_ws r3 with
                      | String ","%char r4 =>
                          parse_members fuel' r4 ((k, v) :: acc)
                      | String "}"%char r4 =>
                          Some (JObj (rev ((k, v) :: acc)), r4)
                      | _ => None
                      end
                  | None => None
                  end
              | _ => None
              end
          | None => None
          end
      | _ => None
      end
  end.

(** [JSON.parse(text)]; [None] when it throws [SyntaxError]. *)
Definition parse (text : string) : option json :=
  match parse_value (4 + 2 * String.length text) text with
  | Some (v, r) => if Js.is_empty (skip_ws r) then Some v else None
  | None => None
  end.

(** JSON text written with an apostrophe for each quotation mark. *)
Fixpoint text (s : string) : string :=
  match s with
  | "" => ""
  | String c s' => String (if Ascii.eqb c "'"%char then QUOTE else c) (text s')
  end.

End Json.

(* ===================================================================== *)
(** ** [readline] and the file system *)
(* ===================================================================== *)

Module Node.

(** [readline.createInterface({ input, crlfDelay: Infinity })] iterated with
    [for await]: one line per end-of-line input, which is a line feed, a
    carriage return, or a carriage return followed by a line feed; the
    terminator is not part of the line. Text after the last terminator is a
    line when it is not empty. *)
Fixpoint readline (s : string) : list string :=
  match s with
  | "" => []
  | String c s' =>
      if Ascii.eqb c Js.LF then "" :: readline s'
      else if Ascii.eqb c Js.CR then
        match s' with
        | String c' s'' =>
            if Ascii.eqb c' Js.LF then "" :: readline s''
            else "" :: readline s'
        | "" => [""]
        end
      else match readline s' with
           | l :: ls => String c l :: ls
           | [] => [String c ""]
           end
  end.

Record Dirent := { name : string; isDirectory : bool }.

(** What the code observes of the file system; [None] is a rejected
    promise (the entry does not exist or cannot be read). [stat(p).size] is
    the length of the content of [p]. *)
Record FileSystem := {
  readdirTypes : string -> option (list Dirent);
  readFile : string -> option string;
  mtimeMs : string -> option Z
}.

Definition readdir (fs : FileSystem) (p : string) : option (list string) :=
  map name <$> readdirTypes fs p.

End Node.

(* ===================================================================== *)
(** ** [api/storage.ts] *)
(* ===================================================================== *)

Module Storage.
Import Json.

(** The fields of a history entry carry the prefix [he_], those of a
    search result the prefix [sr_], to keep them apart from the fields of
    [Session] of the same name. *)
Record HistoryEntry := {
  he_display : string;
  he_timestamp : Z;
  he_project : string;
  he_sessionId : option string
}.

Record Session := {
  id : string;
  display : string;
  timestamp : Z;
  firstTimestamp : option Z;
  project : string;
  projectName : string;
  archived : bool
}.

(** A [ConversationMessage] is the parsed line itself, a [json] value. *)

Record SessionTokens := {
  inputTokens : Number.value;
  outputTokens : Number.value;
  cacheCreationTokens : Number.value;
  cacheReadTokens : Number.value
}.

Record StreamResult := {
  messages : list json;
  nextOffset : nat
}.

Record SearchMatch := { text : string; role : string }.

Record SearchResult := {
  sr_sessionId : string;
  sr_display : string;
  sr_projectName : string;
  sr_project : string;
  sr_timestamp : Z;
  matches : list SearchMatch
}.

(** [fileIndex]: a [Map] iterated in insertion order. *)
Abbreviation FileIndex := (list (string * string)).

Fixpoint index_get (k : string) (idx : FileIndex) : option string :=
  match idx with
  | [] => None
  | (k', v) :: rest => if String.eqb k k' then Some v else index_get k rest
  end.

Fixpoint index_set (k v : string) (idx : FileIndex) : FileIndex :=
  match idx with
  | [] => [(k, v)]
  | (k', v') :: rest =>
      if String.eqb k k' then (k, v) :: rest else (k', v') :: index_set k v rest
  end.

(** [path.replace(/[cls]/g, rep)] for a character class. *)
Fixpoint replace_class (cls : ascii -> bool) (rep : string) (s : string) : string :=
  match s with
  | "" => ""
  | String c s' =>
      if cls c then rep +:+ replace_class cls rep s'
      else String c (replace_class cls rep s')
  end.

Definition slash_or_dot (c : ascii) : bool :=
  Ascii.eqb c "/"%char || Ascii.eqb c "."%char.

Definition encodeProjectPath (path : string) : string :=
  replace_class slash_or_dot "-" path.

(** [Infinity] is [None]. *)
Definition lt_inf (d : Z) (bound : option Z) : bool :=
  match bound with
  | None => true
  | Some b => (d <? b)%Z
  end.

(** One turn of the loop over [fileStats]. *)
Definition closest_step (timestamp : Z) (st : option string * option Z)
    (fm : string * Z) : option string * option Z :=
  let timeDiff := Z.abs (fm.2 - timestamp) in
  if lt_inf timeDiff st.2 then (Some fm.1, Some timeDiff) else st.

Definition closest (timestamp : Z) (fileStats : list (string * Z))
  : option string :=
  (foldl (closest_step timestamp) (None, None) fileStats).1.

Definition findSessionByTimestamp (fs : Node.FileSystem) (projectsDir : string)
    (encodedProject : string) (timestamp : Z) : option string :=
  let projectPath := Js.path_join projectsDir encodedProject in
  match Node.readdir fs projectPath with
  | None => None
  | Some files =>
      let jsonlFiles := filter (fun f => Js.endsWith ".jsonl" f = true) files in
      match mapM (fun file =>
                    pair file <$> Node.mtimeMs fs (Js.path_join projectPath file))
                 jsonlFiles with
      | None => None
      | Some fileStats =>
          match closest timestamp fileStats with
          | Some closestFile =>
              if Js.truthy_str closestFile
              then Some (Js.basename_ext closestFile ".jsonl")
              else None
          | None => None
          end
      end
  end.

(** The session id of a history entry, as [getSessions] resolves it. *)
Definition resolveSessionId (fs : Node.FileSystem) (projectsDir : string)
    (entry : HistoryEntry) : option string :=
  match he_sessionId entry with
  | Some sid =>
      if Js.truthy_str sid then Some sid
      else findSessionByTimestamp fs projectsDir
             (encodeProjectPath (he_project entry)) (he_timestamp entry)
  | None =>
      findSessionByTimestamp fs projectsDir
        (encodeProjectPath (he_project entry)) (he_timestamp entry)
  end.

(** [findSessionFile]: the index first, then a scan of every project
    directory; a directory that cannot be listed is passed over. The file
    found is added to the index. *)
Definition scan_dir (fs : Node.FileSystem) (projectsDir targetFile : string)
    (dir : Node.Dirent) : option string :=
  let projectPath := Js.path_join projectsDir (Node.name dir) in
  match Node.readdir fs projectPath with
  | Some files =>
      if existsb (String.eqb targetFile) files
      then Some (Js.path_join projectPath targetFile)
      else None
  | None => None
  end.

Definition findSessionFile (fs : Node.FileSystem) (projectsDir : string)
    (fileIndex : FileIndex) (sessionId : string) : option string * FileIndex :=
  match index_get sessionId fileIndex with
  | Some p => (Some p, fileIndex)
  | None =>
      let targetFile := sessionId +:+ ".jsonl" in
      match Node.readdirTypes fs projectsDir with
      | None => (None, fileIndex)
      | Some projectDirs =>
          let directories := filter (fun d => Node.isDirectory d = true) projectDirs in
          let results := map (scan_dir fs projectsDir targetFile) directories in
          match List.find (fun r => match r with Some _ => true | None => false end)
                          results with
          | Some (Some filePath) =>
              if Js.truthy_str filePath
              then (Some filePath, index_set sessionId filePath fileIndex)
              else (None, fileIndex)
          | _ => (None, fileIndex)
          end
      end
  end.

(** [const filePath = await findSessionFile(sessionId); if (!filePath)
    return ...]: the path the readers go on with. *)
Definition located (fs : Node.FileSystem) (projectsDir : string)
    (fileIndex : FileIndex) (sessionId : string) : option string :=
  match (findSessionFile fs projectsDir fileIndex sessionId).1 with
  | Some filePath => if Js.truthy_str filePath then Some filePath else None
  | None => None
  end.

Section Readers.

(** [JSON.parse] *)
Variable parse : string -> option json.

Definition type_is (t : string) (msg : json) : bool :=
  match as_string (get "type" msg) with
  | Some s => String.eqb s t
  | None => false
  end.

Definition is_user_or_assistant (msg : json) : bool :=
  type_is "user" msg || type_is "assistant" msg.

(** [const msg = JSON.parse(line); ... msg.type ...] inside [try]: [None]
    when the block throws, on a syntax error or on reading [type] of
    [null]. *)
Definition parse_message (line : string) : option json :=
  match parse line with
  | Some JNull => None
  | r => r
  end.

(** [content.trim().split("\n").filter(Boolean)] *)
Definition content_lines (content : string) : list string :=
  filter (fun l => Js.truthy_str l = true) (Js.split_lf (Js.trim content)).

(** *** [getConversation] *)

Definition conversation_step (messages : list json) (line : string) : list json :=
  match parse_message line with
  | Some msg =>
      if is_user_or_assistant msg then messages ++ [msg]
      else if type_is "summary" msg then msg :: messages
      else messages
  | None => messages
  end.

Definition read_conversation (content : string) : list json :=
  foldl conversation_step [] (content_lines content).


(** *** [getConversationStream] *)

(** The [for await (const line of rl)] loop; the third case is [break]. *)
Fixpoint stream_loop (lines : list string) (messages : list json)
    (bytesConsumed : nat) : list json * nat :=
  match lines with
  | [] => (messages, bytesConsumed)
  | line :: rest =>
      let lineBytes := Js.byteLength line + 1 in
      if Js.truthy_str (Js.trim line) then
        match parse_message line with
        | Some msg =>
            stream_loop rest
              (if is_user_or_assistant msg then messages ++ [msg] else messages)
              (bytesConsumed + lineBytes)
        | None => (messages, bytesConsumed)
        end
      else stream_loop rest messages (bytesConsumed + lineBytes)
  end.

(** The body of [getConversationStream] once the file is found and its
    [stat] has succeeded. *)
Definition stream_file (content : string) (fromOffset : nat) : StreamResult :=
  let fileSize := String.length content in
  if fileSize <=? fromOffset then
    {| messages := []; nextOffset := fromOffset |}
  else
    let '(messages, bytesConsumed) :=
      stream_loop (Node.readline (Js.slice_from fromOffset content)) [] 0 in
    let actualOffset := fromOffset + bytesConsumed in
    {| messages := messages;
       nextOffset := if fileSize <? actualOffset then fileSize else actualOffset |}.

Definition getConversationStream (fs : Node.FileSystem) (projectsDir : string)
    (fileIndex : FileIndex) (sessionId : string) (fromOffset : nat)
  : StreamResult :=
  match located fs projectsDir fileIndex sessionId with
  | None => {| messages := []; nextOffset := 0 |}
  | Some filePath =>
      match Node.readFile fs filePath with
      | Some content => stream_file content fromOffset
      | None => {| messages := []; nextOffset := fromOffset |}
      end
  end.

(** *** [getSessionTokens] *)

Record LastUsage := {
  input : Number.value;
  cacheCreation : Number.value;
  cacheRead : Number.value
}.

(** [msg?.message?.usage] *)
Definition usage_of (msg : json) : option json :=
  get "message" msg ≫= get "usage".

Definition field (k : string) (v : option json) : option json :=
  v ≫= get k.

(** One turn of the loop over the lines of the transcript. *)
Definition tokens_step (st : option LastUsage * Number.value) (line : string)
  : option LastUsage * Number.value :=
  if Js.truthy_str (Js.trim line) then
    match parse line with
    | Some msg =>
        let usage := usage_of msg in
        if truthy usage then
          (Some {| input := num_or_0 (field "input_tokens" usage);
                   cacheCreation := num_or_0 (field "cache_creation_input_tokens" usage);
                   cacheRead := num_or_0 (field "cache_read_input_tokens" usage) |},
           Number.plus st.2 (num_or_0 (field "output_tokens" usage)))
        else st
    | None => st
    end
  else st.

(** The [tokens] object built after the loop: [lastUsage ? a + b + c : 0],
    the total, and [lastUsage?.x || 0] twice. *)
Definition tokens_of (st : option LastUsage * Number.value) : SessionTokens :=
  {| inputTokens :=
       match st.1 with
       | Some u =>
           Number.plus (Number.plus (input u) (cacheCreation u)) (cacheRead u)
       | None => Number.Num Number.zero
       end;
     outputTokens := st.2;
     cacheCreationTokens :=
       match st.1 with
       | Some u => Number.or_0 (cacheCreation u)
       | None => Number.Num Number.zero
       end;
     cacheReadTokens :=
       match st.1 with
       | Some u => Number.or_0 (cacheRead u)
       | None => Number.Num Number.zero
       end |}.

(** The recomputation: stream the file line by line. *)
Definition compute_tokens (content : string) : SessionTokens :=
  tokens_of
    (foldl tokens_step (None, Number.Num Number.zero) (Node.readline content)).

Record CacheEntry := { tokens : SessionTokens; size : nat; mtime : Z }.

Definition getSessionTokens (fs : Node.FileSystem) (projectsDir : string)
    (fileIndex : FileIndex) (tokenCache : gmap string CacheEntry)
    (sessionId : string) : option SessionTokens * gmap string CacheEntry :=
  match located fs projectsDir fileIndex sessionId with
  | None => (None, tokenCache)
  | Some filePath =>
      match Node.readFile fs filePath, Node.mtimeMs fs filePath with
      | Some content, Some mtimeMs =>
          let fileSize := String.length content in
          let recompute :=
            let computed := compute_tokens content in
            (Some computed,
             <[sessionId := {| tokens := computed; size := fileSize; mtime := mtimeMs |}]>
               tokenCache) in
          match tokenCache !! sessionId with
          | Some cached =>
              if (size cached =? fileSize) && (mtime cached =? mtimeMs)%Z
              then (Some (tokens cached), tokenCache)
              else recompute
          | None => recompute
          end
      | _, _ => (None, tokenCache)
      end
  end.

(** *** [searchSessions] *)

(** The text of one content block kept by the filter, [None] when the
    callback throws (the block is [null]). *)
Definition block_text (b : json) : option (option string) :=
  match b with
  | JNull => None
  | _ =>
      if type_is "text" b && truthy (get "text" b)
      then Some (Some (default "" (as_string (get "text" b))))
      else Some None
  end.

(** [extractTextContent]; [None] when it throws. *)
Definition extractTextContent (msg : json) : option string :=
  let content := get "message" msg ≫= get "content" in
  if truthy content then
    match content with
    | Some (JStr s) => Some s
    | Some (JArr blocks) =>
        kept ← mapM block_text blocks;
        Some (Js.join " " (omap (fun t => t) kept))
    | _ => None
    end
  else Some "".

Definition extractSnippet (text query : string) (maxLen : nat) : string :=
  let lowerText := Js.toLowerCase text in
  let lowerQuery := Js.toLowerCase query in
  match Js.indexOf lowerQuery lowerText with
  | None => Js.slice_to maxLen text
  | Some idx =>
      let start := idx - 40 in
      let end_ := Nat.min (String.length text) (idx + String.length query + 80) in
      let snippet := Js.slice_to (end_ - start) (Js.slice_from start text) in
      let snippet := if 0 <? start then "..." +:+ snippet else snippet in
      if end_ <? String.length text then snippet +:+ "..." else snippet
  end.

(** The match contributed by one line, if any. *)
Definition line_match (query lowerQuery : string) (line : string)
  : option SearchMatch :=
  match parse_message line with
  | Some msg =>
      if is_user_or_assistant msg then
        match extractTextContent msg with
        | Some text =>
            if Js.includes lowerQuery (Js.toLowerCase text)
            then Some {| text := extractSnippet text query 120;
                         role := default "" (as_string (get "type" msg)) |}
            else None
        | None => None
        end
      else None
  | None => None
  end.

(** The loop over the lines of one transcript; it stops at three matches. *)
Fixpoint collect_matches (query lowerQuery : string) (lines : list string)
    (matches : list SearchMatch) : list SearchMatch :=
  match lines with
  | [] => matches
  | line :: rest =>
      if 3 <=? length matches then matches
      else match line_match query lowerQuery line with
           | Some m => collect_matches query lowerQuery rest (matches ++ [m])
           | None => collect_matches query lowerQuery rest matches
           end
  end.

(** [new Map(sessions.map((s) => [s.id, s]))] *)
Definition session_map (sessions : list Session) : gmap string Session :=
  foldl (fun m s => <[id s := s]> m) ∅ sessions.

(** The loop over [fileIndex.entries()]. *)
Fixpoint search_loop (fs : Node.FileSystem) (sessionMap : gmap string Session)
    (query lowerQuery : string) (maxResults : nat)
    (entries : FileIndex) (results : list SearchResult) : list SearchResult :=
  match entries with
  | [] => results
  | (sessionId, filePath) :: rest =>
      if maxResults <=? length results then results
      else
        let continue := search_loop fs sessionMap query lowerQuery maxResults rest in
        match sessionMap !! sessionId with
        | None => continue results
        | Some session =>
            match Node.readFile fs filePath with
            | None => continue results
            | Some content =>
                let matches :=
                  collect_matches query lowerQuery (content_lines content) [] in
                if 0 <? length matches then
                  continue (results ++
                    [{| sr_sessionId := sessionId;
                        sr_display := display session;
                        sr_projectName := projectName session;
                        sr_project := project session;
                        sr_timestamp := timestamp session;
                        matches := matches |}])
                else continue results
            end
        end
  end.

(** [searchSessions(query, maxResults)], given the result of
    [await getSessions()]. *)
Definition searchSessions (fs : Node.FileSystem) (sessions : list Session)
    (fileIndex : FileIndex) (query : string) (maxResults : nat)
  : list SearchResult :=
  if negb (Js.truthy_str query) || (String.length query <? 2) then []
  else
    Js.sort_desc sr_timestamp
      (search_loop fs (session_map sessions) query (Js.toLowerCase query)
         maxResults fileIndex []).

Definition DEFAULT_MAX_RESULTS : nat := 20.

End Readers.
End Storage.

(* ===================================================================== *)
(** ** The server sources: class [ClaudeStorage] *)
(* ===================================================================== *)

Module ClaudeStorage.
Import Json.

Section Readers.

Variable parse : string -> option json.

(** The [for (let i = 0; i < lines.length; i++)] loop: the last piece of
    the split carries no line feed. *)
Fixpoint stream_loop (lines : list string) (messages : list json)
    (bytesConsumed : nat) : list json * nat :=
  match lines with
  | [] => (messages, bytesConsumed)
  | line :: rest =>
      let lineBytes :=
        Js.byteLength line + (match rest with [] => 0 | _ :: _ => 1 end) in
      if Js.truthy_str (Js.trim line) then
        match Storage.parse_message parse line with
        | Some msg =>
            stream_loop rest
              (if Storage.is_user_or_assistant msg then messages ++ [msg]
               else messages)
              (bytesConsumed + lineBytes)
        | None => (messages, bytesConsumed)
        end
      else stream_loop rest messages (bytesConsumed + lineBytes)
  end.

(** The body of [ClaudeStorage.getConversationStream] once the file is
    found and its [stat] has succeeded. *)
Definition stream_file (content : string) (fromOffset : nat)
  : Storage.StreamResult :=
  let fileSize := String.length content in
  if fileSize <=? fromOffset then
    {| Storage.messages := []; Storage.nextOffset := fromOffset |}
  else
    let slicedContent := Js.slice_from fromOffset content in
    if negb (Js.truthy_str slicedContent) then
      {| Storage.messages := []; Storage.nextOffset := fromOffset |}
    else
      let '(messages, bytesConsumed) :=
        stream_loop (Js.split_lf slicedContent) [] 0 in
      {| Storage.messages := messages;
         Storage.nextOffset := fromOffset + bytesConsumed |}.

End Readers.
End ClaudeStorage.

(* ===================================================================== *)
(** ** The session view: [buildBranch] *)
(* ===================================================================== *)

Module SessionView.
Import Json.

(** A field declared [string] when it is truthy. *)
Definition truthy_field (k : string) (msg : json) : option string :=
  match as_string (get k msg) with
  | Some s => if Js.truthy_str s then Some s else None
  | None => None
  end.

Definition uuid (msg : json) : option string := truthy_field "uuid" msg.
Definition parentUuid (msg : json) : option string := truthy_field "parentUuid" msg.

(** One turn of the loop that fills [childrenMap] and [roots]. ([uuidMap]
    is filled by the same loop and never read.) *)
Definition index_step (st : gmap string (list json) * list json) (msg : json)
  : gmap string (list json) * list json :=
  match parentUuid msg with
  | None => (st.1, st.2 ++ [msg])
  | Some parent =>
      let siblings := default [] (st.1 !! parent) in
      (<[parent := siblings ++ [msg]]> st.1, st.2)
  end.

Definition index_messages (messages : list json)
  : gmap string (list json) * list json :=
  foldl index_step (∅, []) messages.

(** [branchChoices.get(current.uuid)] when [current.uuid] is truthy. *)
Definition choice_of (branchChoices : gmap string string) (current : json)
  : option string :=
  u ← uuid current;
  c ← branchChoices !! u;
  if Js.truthy_str c then Some c else None.

(** [c.uuid === chosen] *)
Definition has_uuid (chosen : string) (c : json) : bool :=
  match as_string (get "uuid" c) with
  | Some u => String.eqb u chosen
  | None => false
  end.

(** The child the walk descends to; [children] is not empty. *)
Definition next_child (branchChoices : gmap string string) (current : json)
    (children : list json) : option json :=
  match choice_of branchChoices current with
  | Some chosen =>
      match List.find (has_uuid chosen) children with
      | Some c => Some c
      | None => last children
      end
  | None => last children
  end.

(** The [while (current)] loop; it need not end when the links form a
    cycle, so it runs on fuel, and [None] is fuel exhausted. *)
Fixpoint walk (fuel : nat) (childrenMap : gmap string (list json))
    (branchChoices : gmap string string) (current : json) (chain : list json)
  : option (list json) :=
  match fuel with
  | 0 => None
  | S fuel' =>
      let chain' := chain ++ [current] in
      match uuid current ≫= (childrenMap !!.) with
      | None | Some [] => Some chain'
      | Some children =>
          match next_child branchChoices current children with
          | Some next => walk fuel' childrenMap branchChoices next chain'
          | None => Some chain'
          end
      end
  end.

Definition buildBranch (fuel : nat) (messages : list json)
    (branchChoices : gmap string string) : option (list json) :=
  match messages with
  | [] => Some []
  | _ :: _ =>
      let '(childrenMap, roots) := index_messages messages in
      match roots with
      | [] => Some messages
      | root :: _ => walk fuel childrenMap branchChoices root []
      end
  end.

(** The click handler of a branch button: [next.set(message.uuid, b.uuid)]
    on a copy of the map, unless one of the two has no uuid. *)
Definition chooseBranch (message b : json) (prev : gmap string string)
  : gmap string string :=
  match uuid message, uuid b with
  | Some m, Some c => <[m := c]> prev
  | _, _ => prev
  end.

End SessionView.

(* ===================================================================== *)
(** ** The server sources: class [ClaudeWatcher] *)
(* ===================================================================== *)

Module Watcher.

Inductive Event :=
| historyChange
| sessionChange (sessionId : string)
| projectChange (projectId : string).

Definition emitChange (path : string) : list Event :=
  if Js.endsWith "history.jsonl" path then [historyChange]
  else if Js.endsWith ".jsonl" path then
    [sessionChange (Js.basename_ext path ".jsonl");
     projectChange (Js.basename (Js.dirname path))]
  else [].

(** The watcher object together with the part of the event loop it uses.
    - [watcher]: [this.watcher] is not [null], the chokidar handle is open
      and the listeners of [start] are attached to it;
    - [debounceTimers]: the map from a path to its timer;
    - [armed]: the timers that [setTimeout] has scheduled and that have
      neither fired nor been cleared, each with the path its callback
      closes over;
    - [fresh]: the next timer handle;
    - [emitted]: the events emitted so far, oldest first. *)
Record State := {
  watcher : bool;
  debounceTimers : gmap string nat;
  armed : gmap nat string;
  fresh : nat;
  emitted : list Event
}.

Definition initial : State :=
  {| watcher := false; debounceTimers := ∅; armed := ∅; fresh := 0;
     emitted := [] |}.

Definition start (s : State) : State :=
  if watcher s then s
  else {| watcher := true; debounceTimers := debounceTimers s;
          armed := armed s; fresh := fresh s; emitted := emitted s |}.

Definition clearTimeout (timer : nat) (armed : gmap nat string) : gmap nat string :=
  delete timer armed.

Definition handleChange (path : string) (s : State) : State :=
  let armed1 :=
    match debounceTimers s !! path with
    | Some existing => clearTimeout existing (armed s)
    | None => armed s
    end in
  let timer := fresh s in
  {| watcher := watcher s;
     debounceTimers := <[path := timer]> (debounceTimers s);
     armed := <[timer := path]> armed1;
     fresh := S timer;
     emitted := emitted s |}.

(** The callback given to [setTimeout], run by the event loop. *)
Definition timeout_callback (path : string) (s : State) : State :=
  {| watcher := watcher s;
     debounceTimers := delete path (debounceTimers s);
     armed := armed s;
     fresh := fresh s;
     emitted := emitted s ++ emitChange path |}.

Definition stop (s : State) : State :=
  {| watcher := false;
     debounceTimers := ∅;
     armed := foldr clearTimeout (armed s) (map_to_list (debounceTimers s)).*2;
     fresh := fresh s;
     emitted := emitted s |}.

(** What can happen to a watcher: a call of [start] or [stop], a [change]
    or [add] event of the file system on a path, and the event loop
    reaching the deadline of a timer. *)
Inductive Action :=
| Start
| Stop
| FsEvent (path : string)
| Fire (timer : nat).

(** An event of the file system reaches [handleChange] through the
    listeners of the open handle only; a timer runs its callback only while
    it is armed, and is disarmed by running. *)
Definition step (s : State) (a : Action) : State :=
  match a with
  | Start => start s
  | Stop => stop s
  | FsEvent path => if watcher s then handleChange path s else s
  | Fire timer =>
      match armed s !! timer with
      | Some path =>
          timeout_callback path
            {| watcher := watcher s; debounceTimers := debounceTimers s;
               armed := delete timer (armed s); fresh := fresh s;
               emitted := emitted s |}
      | None => s
      end
  end.

Definition run (s : State) (trace : list Action) : State :=
  foldl step s trace.


End Watcher.

(* ===================================================================== *)
(** ** Notions used to state the properties of the readers *)
(* ===================================================================== *)

Import Json.

Module Lines.

(** No carriage return in the text. *)
Fixpoint no_cr (s : string) : bool :=
  match s with
  | "" => true
  | String c s' => negb (Ascii.eqb c Js.CR) && no_cr s'
  end.

(** Neither line feed nor carriage return in the text. *)
Fixpoint no_eol (s : string) : bool :=
  match s with
  | "" => true
  | String c s' =>
      negb (Ascii.eqb c Js.LF) && negb (Ascii.eqb c Js.CR) && no_eol s'
  end.

(** The text is empty or its last character is a line feed: the text
    ends at a line boundary. *)
Fixpoint at_line_boundary (s : string) : bool :=
  match s with
  | "" => true
  | String c "" => Ascii.eqb c Js.LF
  | String _ s' => at_line_boundary s'
  end.

(** The bytes the incremental readers count for a list of lines, one more
    than its length for each. *)
Definition bytes (lines : list string) : nat :=
  foldr (fun l n => String.length l + 1 + n) 0 lines.

(** The elements before the first one that satisfies [stop], and the
    elements from that one on. *)
Fixpoint take_until {A : Type} (stop : A -> bool) (xs : list A) : list A :=
  match xs with
  | [] => []
  | x :: xs' => if stop x then [] else x :: take_until stop xs'
  end.

Fixpoint drop_until {A : Type} (stop : A -> bool) (xs : list A) : list A :=
  match xs with
  | [] => []
  | x :: xs' => if stop x then xs else drop_until stop xs'
  end.

Section Consumed.
Variable parse : string -> option json.

(** A line at which the incremental readers stop: it is not blank and the
    [try] block around [JSON.parse] throws on it. *)
Definition stops (line : string) : bool :=
  Js.truthy_str (Js.trim line)
  && match Storage.parse_message parse line with
     | Some _ => false
     | None => true
     end.

(** The value a line that is not blank parses to. *)
Definition line_message (line : string) : option json :=
  if Js.truthy_str (Js.trim line) then Storage.parse_message parse line
  else None.

(** The messages the incremental readers return for the lines they
    consume: those typed user or assistant, in order. *)
Definition new_messages (lines : list string) : list json :=
  filter (fun m => Storage.is_user_or_assistant m = true)
    (omap line_message lines).

End Consumed.

Section Usage.
Variable parse : string -> option json.

(** The usage record of a line that bears one: the line is not blank, it
    parses, and [msg?.message?.usage] is truthy. *)
Definition line_usage (line : string) : option json :=
  if Js.truthy_str (Js.trim line) then
    match parse line with
    | Some msg =>
        if truthy (Storage.usage_of msg) then Storage.usage_of msg else None
    | None => None
    end
  else None.

(** The usage records of a transcript, in file order. *)
Definition usages (content : string) : list json :=
  omap line_usage (Node.readline content).

End Usage.

(** The value [usage.k || 0] of a counter of a usage record. *)
Definition counter_value (k : string) (usage : json) : Number.value :=
  num_or_0 (get k usage).

(** The integer a counter of a usage record holds, 0 when it is missing
    or falsy. *)
Definition counter (k : string) (usage : json) : Z :=
  match get k usage with
  | Some (JNum n) => n
  | _ => 0%Z
  end.

(** The counter is as [TokenUsage] declares it and counts something: it is
    missing or falsy, or an integer that is not negative. *)
Definition counts (k : string) (usage : json) : bool :=
  match get k usage with
  | Some (JNum n) => (0 <=? n)%Z
  | v => negb (truthy v)
  end.

(** The four counters of a usage record count. *)
Definition usage_counts (usage : json) : bool :=
  counts "input_tokens" usage
  && counts "cache_creation_input_tokens" usage
  && counts "cache_read_input_tokens" usage
  && counts "output_tokens" usage.

(** The input, cache-creation and cache-read counters of a usage record,
    added up. *)
Definition input_sum (usage : json) : Z :=
  (counter "input_tokens" usage
   + counter "cache_creation_input_tokens" usage
   + counter "cache_read_input_tokens" usage)%Z.

Definition sum_counter (k : string) (us : list json) : Z :=
  foldr (fun u n => (counter k u + n)%Z) 0%Z us.

(** The counters [k] of the usage records added as the loop adds them: as
    doubles, in file order, from 0. *)
Definition double_sum (k : string) (us : list json) : Number.value :=
  foldl (fun total u => Number.plus total (counter_value k u))
    (Number.Num Number.zero) us.

(** The largest total for which every addition of counters is exact. *)
Definition SAFE : Z := (2 ^ 53)%Z.

Section Search.
Variable parse : string -> option json.

(** The matches of one entry of the file index, without the cap: the
    matching lines of its transcript when the session is listed and the
    file can be read. *)
Definition entry_matches (fs : Node.FileSystem)
    (sessions : list Storage.Session) (query : string)
    (entry : string * string) : list Storage.SearchMatch :=
  match Storage.session_map sessions !! entry.1, Node.readFile fs entry.2 with
  | Some _, Some content =>
      omap (Storage.line_match parse query (Js.toLowerCase query))
        (Storage.content_lines content)
  | _, _ => []
  end.

(** All the messages the query matches in the indexed, listed sessions. *)
Definition all_matches (fs : Node.FileSystem)
    (sessions : list Storage.Session) (fileIndex : list (string * string))
    (query : string) : list Storage.SearchMatch :=
  fileIndex ≫= entry_matches fs sessions query.

End Search.

End Lines.

(* ===================================================================== *)
(** ** Notions used to state the properties of the branch reconstruction *)
(* ===================================================================== *)

Module Tree.
Import SessionView.

(** The messages whose [parentUuid] is [u], in file order. *)
Definition children_of (messages : list json) (u : string) : list json :=
  filter (fun m => parentUuid m = Some u) messages.

Definition is_leaf (messages : list json) (m : json) : Prop :=
  match uuid m with
  | Some u => children_of messages u = []
  | None => True
  end.

(** A path that descends from its first message to a leaf, each message
    being a child of the one before it. *)
Inductive descends (messages : list json) : list json -> Prop :=
| descends_leaf m :
    is_leaf messages m -> descends messages [m]
| descends_step m c rest u :
    uuid m = Some u ->
    c ∈ children_of messages u ->
    descends messages (c :: rest) ->
    descends messages (m :: c :: rest).

(** The links are acyclic: a depth that grows strictly from parent to child. *)
Definition ranked (depth : string -> nat) (m : json) : Prop :=
  match parentUuid m, uuid m with
  | Some p, Some u => depth p < depth u
  | _, _ => True
  end.

(** A bound on the depths of the messages. *)
Definition depth_bound (depth : string -> nat) (messages : list json) : nat :=
  S (max_list ((fun m => match uuid m with Some u => depth u | None => 0 end)
               <$> messages)).

End Tree.

(* ===================================================================== *)
(** ** Invariants of the loops and of the watcher *)
(* ===================================================================== *)

Module Invariants.

(** What the loop of [findSessionByTimestamp] holds after a prefix of the
    stats: nothing on the empty prefix, else the first entry of least
    distance. *)
Definition first_closest (timestamp : Z) (stats : list (string * Z))
    (st : option string * option Z) : Prop :=
  match stats with
  | [] => st = (None, None)
  | _ :: _ =>
      exists i file m,
        stats !! i = Some (file, m)
        /\ st = (Some file, Some (Z.abs (m - timestamp)))
        /\ forall j file' m',
            stats !! j = Some (file', m') ->
            (Z.abs (m - timestamp) <= Z.abs (m' - timestamp))%Z
            /\ (j < i -> (Z.abs (m - timestamp) < Z.abs (m' - timestamp))%Z)
  end.

(** The record [lastUsage] the loop of [getSessionTokens] keeps for a
    usage value. *)
Definition usage_record (u : json) : Storage.LastUsage :=
  {| Storage.input := Lines.counter_value "input_tokens" u;
     Storage.cacheCreation :=
       Lines.counter_value "cache_creation_input_tokens" u;
     Storage.cacheRead := Lines.counter_value "cache_read_input_tokens" u |}.

(** The result an entry of the file index contributes, if any. *)
Definition entry_result (parse : string -> option json)
    (fs : Node.FileSystem) (sessions : list Storage.Session)
    (query : string) (entry : string * string) : option Storage.SearchResult :=
  match Storage.session_map sessions !! entry.1 with
  | Some session =>
      let found := take 3 (Lines.entry_matches parse fs sessions query entry) in
      if 0 <? length found then
        Some {| Storage.sr_sessionId := entry.1;
                Storage.sr_display := Storage.display session;
                Storage.sr_projectName := Storage.projectName session;
                Storage.sr_project := Storage.project session;
                Storage.sr_timestamp := Storage.timestamp session;
                Storage.matches := found |}
      else None
  | None => None
  end.

(** Every armed timer is the one the map holds for its path, and the map
    holds armed timers only; timer handles are never reused. *)
Definition consistent (s : Watcher.State) : Prop :=
  (forall t p, Watcher.armed s !! t = Some p <-> Watcher.debounceTimers s !! p = Some t)
  /\ (forall t p, Watcher.armed s !! t = Some p -> t < Watcher.fresh s).

(** After [stop]: no handle, no timer. *)
Definition quiet (s : Watcher.State) : Prop :=
  Watcher.watcher s = false /\ Watcher.debounceTimers s = ∅ /\ Watcher.armed s = ∅.

(** The measure that decreases along the walk of [buildBranch]. *)
Definition height (depth : string -> nat) (bound : nat) (m : json) : nat :=
  match SessionView.uuid m with
  | Some u => bound - depth u
  | None => 0
  end.

End Invariants.

(* ===================================================================== *)
(** ** Concrete data for the scenarios of the design document *)
(* ===================================================================== *)

Module Scenario.

Definition NL : string := String Js.LF "".
Definition CRLF : string := String Js.CR (String Js.LF "").

Definition projectsDir : string := "/home/a/.claude/projects".

(** One history entry without session id, and a project directory with
    two transcripts. *)
Definition fix_bug : Storage.HistoryEntry :=
  {| Storage.he_display := "fix bug";
     Storage.he_timestamp := 1000;
     Storage.he_project := "/Users/a/app.x";
     Storage.he_sessionId := None |}.

Definition two_sessions : Node.FileSystem :=
  {| Node.readdirTypes p :=
       if String.eqb p "/home/a/.claude/projects/-Users-a-app-x"
       then Some [ {| Node.name := "s1.jsonl"; Node.isDirectory := false |};
                   {| Node.name := "s2.jsonl"; Node.isDirectory := false |} ]
       else None;
     Node.readFile p := None;
     Node.mtimeMs p :=
       if String.eqb p "/home/a/.claude/projects/-Users-a-app-x/s1.jsonl"
       then Some 999%Z
       else if String.eqb p "/home/a/.claude/projects/-Users-a-app-x/s2.jsonl"
       then Some 1050%Z
       else None |}.

(** A transcript of three lines: a summary, a user turn, an assistant
    turn; and the same with the summary written last. *)
Definition summary_line : string := Json.text "{'type':'summary','summary':'recap'}".
Definition user_line : string :=
  Json.text "{'type':'user','uuid':'u1','message':{'role':'user','content':'hi there'}}".
Definition assistant_line : string :=
  Json.text "{'type':'assistant','uuid':'a1','parentUuid':'u1','message':{'role':'assistant','content':[{'type':'text','text':'Hi! How can I help?'}],'usage':{'input_tokens':10,'output_tokens':7,'cache_read_input_tokens':3}}}".

Definition summary_msg : json :=
  JObj [("type", JStr "summary"); ("summary", JStr "recap")].
Definition user_msg : json :=
  JObj [("type", JStr "user"); ("uuid", JStr "u1");
        ("message", JObj [("role", JStr "user"); ("content", JStr "hi there")])].
Definition assistant_msg : json :=
  JObj [("type", JStr "assistant"); ("uuid", JStr "a1"); ("parentUuid", JStr "u1");
        ("message",
         JObj [("role", JStr "assistant");
               ("content",
                JArr [JObj [("type", JStr "text");
                            ("text", JStr "Hi! How can I help?")]]);
               ("usage",
                JObj [("input_tokens", JNum 10); ("output_tokens", JNum 7);
                      ("cache_read_input_tokens", JNum 3)])])].

Definition transcript : string :=
  summary_line +:+ NL +:+ user_line +:+ NL +:+ assistant_line +:+ NL.


(** A store with one project directory holding the transcript as session
    [s1], and a second session file that cannot be read. *)
Definition one_project : Node.FileSystem :=
  {| Node.readdirTypes p :=
       if String.eqb p projectsDir
       then Some [ {| Node.name := "-Users-a-app-x"; Node.isDirectory := true |} ]
       else if String.eqb p "/home/a/.claude/projects/-Users-a-app-x"
       then Some [ {| Node.name := "s1.jsonl"; Node.isDirectory := false |};
                   {| Node.name := "gone.jsonl"; Node.isDirectory := false |} ]
       else None;
     Node.readFile p :=
       if String.eqb p "/home/a/.claude/projects/-Users-a-app-x/s1.jsonl"
       then Some transcript
       else None;
     Node.mtimeMs p :=
       if String.eqb p "/home/a/.claude/projects/-Users-a-app-x/s1.jsonl"
       then Some 999%Z
       else None |}.

(** A store with one project directory holding, as session [s1], the user
    line ended by a carriage return and a line feed. *)
Definition crlf_project : Node.FileSystem :=
  {| Node.readdirTypes p :=
       if String.eqb p projectsDir
       then Some [ {| Node.name := "-Users-a-app-x"; Node.isDirectory := true |} ]
       else if String.eqb p "/home/a/.claude/projects/-Users-a-app-x"
       then Some [ {| Node.name := "s1.jsonl"; Node.isDirectory := false |} ]
       else None;
     Node.readFile p :=
       if String.eqb p "/home/a/.claude/projects/-Users-a-app-x/s1.jsonl"
       then Some (user_line +:+ CRLF)
       else None;
     Node.mtimeMs p :=
       if String.eqb p "/home/a/.claude/projects/-Users-a-app-x/s1.jsonl"
       then Some 999%Z
       else None |}.

(** A complete line that is not JSON, followed by the user line. *)
Definition unparsed_then_user : string :=
  "{bad" +:+ NL +:+ user_line +:+ NL.

(** A line ended by a carriage return and a line feed, a blank line, and
    the beginning of a line. *)
Definition crlf_then_partial : string :=
  "5" +:+ CRLF +:+ NL +:+ "{bad".

(** An assistant line that reports no output tokens. *)
Definition zero_output_line : string :=
  Json.text "{'type':'assistant','message':{'role':'assistant','content':[],'usage':{'input_tokens':4,'output_tokens':0}}}".

(** An assistant line that reports [2 ^ 53] output tokens, and one that
    reports a single one. *)
Definition huge_output_line : string :=
  Json.text "{'type':'assistant','message':{'role':'assistant','content':[],'usage':{'input_tokens':4,'output_tokens':9007199254740992}}}".
Definition one_output_line : string :=
  Json.text "{'type':'assistant','message':{'role':'assistant','content':[],'usage':{'input_tokens':4,'output_tokens':1}}}".

(** The session of the transcript as the session list and the file index
    hold it. *)
Definition s1_path : string := "/home/a/.claude/projects/-Users-a-app-x/s1.jsonl".
Definition s1_session : Storage.Session :=
  {| Storage.id := "s1";
     Storage.display := "fix bug";
     Storage.timestamp := 1000;
     Storage.firstTimestamp := None;
     Storage.project := "/Users/a/app.x";
     Storage.projectName := "app.x";
     Storage.archived := false |}.

(** A root with two branches; the later branch has a reply. *)
Definition node (u : string) (parent : option string) : json :=
  JObj ([("type", JStr "user"); ("uuid", JStr u)]
        ++ match parent with
           | Some p => [("parentUuid", JStr p)]
           | None => [("parentUuid", JNull)]
           end).

Definition fork : list json :=
  [node "r" None; node "a" (Some "r"); node "b" (Some "r"); node "c" (Some "b")].

Definition fork_depth (u : string) : nat :=
  if String.eqb u "r" then 0
  else if String.eqb u "c" then 2
  else 1.

(** Two messages whose parents are not in the file. *)
Definition orphans : list json :=
  [node "x" (Some "gone"); node "y" (Some "x")].

End Scenario.

(* ===================================================================== *)
(** ** More of the runtime: [split] on a character, the default [sort] *)
(* ===================================================================== *)

Module JsText.

(** [s.split(sep)] for a separator of one character: the pieces between
    the separators; never empty. *)
Fixpoint split (sep : ascii) (s : string) : list string :=
  match s with
  | "" => [""]
  | String c s' =>
      if Ascii.eqb c sep then "" :: split sep s'
      else match split sep s' with
           | l :: ls => String c l :: ls
           | [] => [String c ""]
           end
  end.

(** [xs.sort()] on strings: ascending in the order of the code units; the
    sort is stable. *)
Fixpoint insert_asc (x : string) (xs : list string) : list string :=
  match xs with
  | [] => [x]
  | y :: ys =>
      if (x <=? y)%string then x :: y :: ys
      else y :: insert_asc x ys
  end.

Definition sort (xs : list string) : list string :=
  foldr insert_asc [] xs.

(** [set.add(x)] on a [Set] of strings, kept in insertion order. *)
Definition set_add (x : string) (xs : list string) : list string :=
  if bool_decide (x ∈ xs) then xs else xs ++ [x].

End JsText.

(* ===================================================================== *)
(** ** [api/storage.ts]: the file index, the caches and the session list *)
(* ===================================================================== *)

Module Catalog.
Import Storage.

(** *** The file index *)

Definition addToFileIndex (sessionId filePath : string) (fileIndex : FileIndex)
  : FileIndex :=
  index_set sessionId filePath fileIndex.

(** The callback [buildFileIndex] runs for one directory, from the point
    where [readdir] has settled: every [.jsonl] entry is indexed under its
    base name; a directory that cannot be listed is passed over. *)
Definition index_file (projectPath : string) (fileIndex : FileIndex)
    (file : string) : FileIndex :=
  if Js.endsWith ".jsonl" file
  then index_set (Js.basename_ext file ".jsonl") (Js.path_join projectPath file)
         fileIndex
  else fileIndex.

Definition index_directory (fs : Node.FileSystem) (projectsDir : string)
    (fileIndex : FileIndex) (dir : Node.Dirent) : FileIndex :=
  let projectPath := Js.path_join projectsDir (Node.name dir) in
  match Node.readdir fs projectPath with
  | Some files => foldl (index_file projectPath) fileIndex files
  | None => fileIndex
  end.

(** The directories [buildFileIndex] starts a callback for. *)
Definition directories (fs : Node.FileSystem) (projectsDir : string)
  : list Node.Dirent :=
  match Node.readdirTypes fs projectsDir with
  | Some projectDirs => filter (fun d => Node.isDirectory d = true) projectDirs
  | None => []
  end.

(** [buildFileIndex]: the callbacks of [Promise.all] run up to their
    [await readdir] in the order of the directories and resume one at a
    time in the order [settled] in which the listings arrive, which the
    code does not control; each resumed callback runs to its end. *)
Definition buildFileIndex (fs : Node.FileSystem) (projectsDir : string)
    (settled : list Node.Dirent) (fileIndex : FileIndex) : FileIndex :=
  foldl (index_directory fs projectsDir) fileIndex settled.

(** *** The history cache *)

Record HistoryState := {
  historyCache : option (list json);
  historyCacheTime : Z
}.

Definition HISTORY_CACHE_TTL_MS : Z := 5000.

Definition invalidateHistoryCache : HistoryState :=
  {| historyCache := None; historyCacheTime := 0 |}.

(** [isHistoryCacheStale()] when [Date.now()] is [now]. An empty array is
    truthy. *)
Definition isHistoryCacheStale (now : Z) (st : HistoryState) : bool :=
  match historyCache st with
  | None => true
  | Some _ => (HISTORY_CACHE_TTL_MS <? now - historyCacheTime st)%Z
  end.

Section History.
Variable parse : string -> option json.

(** [loadHistoryCache()]; [loaded] is [Date.now()] when the read has
    settled. *)
Definition loadHistoryCache (fs : Node.FileSystem) (claudeDir : string)
    (loaded : Z) : list json * HistoryState :=
  match Node.readFile fs (Js.path_join claudeDir "history.jsonl") with
  | Some content =>
      let entries := omap parse (content_lines content) in
      (entries, {| historyCache := Some entries; historyCacheTime := loaded |})
  | None => ([], {| historyCache := Some []; historyCacheTime := loaded |})
  end.

(** [isHistoryCacheStale() ? await loadHistoryCache() : historyCache!] *)
Definition history_entries (fs : Node.FileSystem) (claudeDir : string)
    (now loaded : Z) (st : HistoryState) : list json * HistoryState :=
  if isHistoryCacheStale now st then loadHistoryCache fs claudeDir loaded
  else (default [] (historyCache st), st).

End History.

(** *** The token cache *)

(** [invalidateTokenCache(sessionId?)]: an absent or empty id clears the
    cache. *)
Definition invalidateTokenCache (sessionId : option string)
    (tokenCache : gmap string CacheEntry) : gmap string CacheEntry :=
  match sessionId with
  | Some s => if Js.truthy_str s then delete s tokenCache else ∅
  | None => ∅
  end.

(** *** The session list *)

Definition getProjectName (projectPath : string) : string :=
  let parts :=
    filter (fun p => Js.truthy_str p = true) (JsText.split "/" projectPath) in
  match last parts with
  | Some name => if Js.truthy_str name then name else projectPath
  | None => projectPath
  end.

(** [archivedSessions], read with [has] only by the functions below. *)
Definition isArchived (archivedSessions : gset string) (sessionId : string)
  : bool :=
  bool_decide (sessionId ∈ archivedSessions).

Section Sessions.
Variables (fs : Node.FileSystem) (projectsDir : string).
Variable archivedSessions : gset string.

(** What [await getFirstTimestamp(s.id)] gives for a session id, at the
    declared type of the field. *)
Variable firstTimestampOf : string -> option Z.

(** One turn of the loop of [getSessions] over the history entries, which
    are read at their declared type [HistoryEntry]. *)
Definition sessions_step (includeArchived : bool)
    (st : list Session * gset string) (entry : HistoryEntry)
  : list Session * gset string :=
  match resolveSessionId fs projectsDir entry with
  | None => st
  | Some sessionId =>
      if negb (Js.truthy_str sessionId) || bool_decide (sessionId ∈ st.2)
      then st
      else
        let archived := isArchived archivedSessions sessionId in
        if archived && negb includeArchived then st
        else
          (st.1 ++ [{| id := sessionId;
                       display := he_display entry;
                       timestamp := he_timestamp entry;
                       firstTimestamp := None;
                       project := he_project entry;
                       projectName := getProjectName (he_project entry);
                       archived := archived |}],
           {[sessionId]} ∪ st.2)
  end.

(** [s.firstTimestamp = await getFirstTimestamp(s.id)] *)
Definition with_firstTimestamp (s : Session) : Session :=
  {| id := id s; display := display s; timestamp := timestamp s;
     firstTimestamp := firstTimestampOf (id s);
     project := project s; projectName := projectName s;
     archived := archived s |}.

(** The body of [getSessions(includeArchived)], given the entries of the
    history. *)
Definition getSessions (includeArchived : bool) (entries : list HistoryEntry)
  : list Session :=
  let sessions := (foldl (sessions_step includeArchived) ([], ∅) entries).1 in
  Js.sort_desc timestamp (with_firstTimestamp <$> sessions).

End Sessions.

(** The body of [getProjects()], given the entries of the history. *)
Definition getProjects (entries : list HistoryEntry) : list string :=
  let projects :=
    foldl (fun projects entry =>
             if Js.truthy_str (he_project entry)
             then JsText.set_add (he_project entry) projects
             else projects)
          [] entries in
  JsText.sort projects.

End Catalog.

(* ===================================================================== *)
(** ** Notions used to state the properties of the file index and of the
    session list *)
(* ===================================================================== *)

Module Paths.

(** [k] separators. *)
Fixpoint slashes (k : nat) : string :=
  match k with
  | 0 => ""
  | S k' => String "/" (slashes k')
  end.

(** No separator in the text. *)
Fixpoint no_slash (s : string) : bool :=
  match s with
  | "" => true
  | String c s' => negb (Ascii.eqb c "/") && no_slash s'
  end.

(** The directory [dir] of [projectsDir] can be listed and holds the
    entry [file]. *)
Definition holds (fs : Node.FileSystem) (projectsDir : string)
    (file : string) (dir : Node.Dirent) : bool :=
  match Node.readdir fs (Js.path_join projectsDir (Node.name dir)) with
  | Some files => bool_decide (file ∈ files)
  | None => false
  end.

(** The path of the entry [file] of the directory [dir]. *)
Definition entry_path (projectsDir : string) (dir : Node.Dirent)
    (file : string) : string :=
  Js.path_join (Js.path_join projectsDir (Node.name dir)) file.

End Paths.

(* ===================================================================== *)
(** ** The session view: fork points and the merge of streamed messages *)
(* ===================================================================== *)

Module SessionStream.
Import SessionView.

(** One turn of the first loop of [getForkPoints]. *)
Definition fork_step (childrenMap : gmap string (list json)) (msg : json)
  : gmap string (list json) :=
  match parentUuid msg with
  | None => childrenMap
  | Some parent =>
      let siblings := default [] (childrenMap !! parent) in
      <[parent := siblings ++ [msg]]> childrenMap
  end.

(** [getForkPoints]: the parents that have more than one child, each with
    its children. *)
Definition getForkPoints (messages : list json) : gmap string (list json) :=
  filter (fun entry => 1 < length entry.2) (foldl fork_step ∅ messages).

(** [forkPoints.get(message.uuid)] when [message.uuid] is truthy. *)
Definition branches (messages : list json) (message : json)
  : option (list json) :=
  uuid message ≫= (getForkPoints messages !!.).

(** The update of [messages] by the listener of the [messages] event:
    [existingIds] holds the truthy uuids of the messages received so far,
    and a new message is kept unless its uuid is one of them. *)
Definition is_unique (existingIds : list string) (m : json) : bool :=
  match uuid m with
  | Some u => negb (bool_decide (u ∈ existingIds))
  | None => true
  end.

Definition merge_messages (prev newMessages : list json) : list json :=
  let existingIds := omap uuid prev in
  let unique := filter (fun m => is_unique existingIds m = true) newMessages in
  match unique with
  | [] => prev
  | _ :: _ => prev ++ unique
  end.

End SessionStream.

(* ===================================================================== *)
(** ** The application: the update of the session list *)
(* ===================================================================== *)

Module App.
Import Storage.

(** [map.set(k, v)] on a [Map] from ids to sessions, kept in insertion
    order: the value of a key that is present is replaced in its place. *)
Fixpoint map_set (k : string) (v : Session) (m : list (string * Session))
  : list (string * Session) :=
  match m with
  | [] => [(k, v)]
  | (k', v') :: rest =>
      if String.eqb k k' then (k, v) :: rest else (k', v') :: map_set k v rest
  end.

(** [new Map(sessions.map((s) => [s.id, s]))] *)
Definition map_of (sessions : list Session) : list (string * Session) :=
  foldl (fun m s => map_set (id s) s m) [] sessions.

(** The state update of [handleSessionsUpdate]. *)
Definition handleSessionsUpdate (updates prev : list Session) : list Session :=
  let sessionMap :=
    foldl (fun m update => map_set (id update) update m) (map_of prev) updates in
  Js.sort_desc timestamp (sessionMap.*2).

End App.

(* ===================================================================== *)
(** ** The server sources: [ClaudeStorage.findSessionFile] *)
(* ===================================================================== *)

Module ClaudeStorageFiles.
Import Storage.

(** The loop over [projectDirs]; the outer [None] is an exception, which
    leaves the loop: [readdir] of a project directory is not guarded. *)
Fixpoint scan (fs : Node.FileSystem) (projectsDir sessionId : string)
    (projectDirs : list Node.Dirent) : option (option string) :=
  match projectDirs with
  | [] => Some None
  | dir :: rest =>
      if negb (Node.isDirectory dir) then scan fs projectsDir sessionId rest
      else
        let projectPath := Js.path_join projectsDir (Node.name dir) in
        match Node.readdir fs projectPath with
        | None => None
        | Some files =>
            match List.find (fun file => String.eqb file (sessionId +:+ ".jsonl"))
                    files with
            | Some file => Some (Some (Js.path_join projectPath file))
            | None => scan fs projectsDir sessionId rest
            end
        end
  end.

Definition findSessionFile (fs : Node.FileSystem) (projectsDir : string)
    (fileIndex : FileIndex) (sessionId : string) : option string * FileIndex :=
  match index_get sessionId fileIndex with
  | Some p => (Some p, fileIndex)
  | None =>
      match Node.readdirTypes fs projectsDir with
      | None => (None, fileIndex)
      | Some projectDirs =>
          match scan fs projectsDir sessionId projectDirs with
          | Some (Some filePath) =>
              (Some filePath, index_set sessionId filePath fileIndex)
          | Some None | None => (None, fileIndex)
          end
      end
  end.

(** [ClaudeStorage.getConversationStream]: the file is looked up with the
    method of the class, then read in memory. *)
Definition getConversationStream (parse : string -> option Json.json)
    (fs : Node.FileSystem) (projectsDir : string) (fileIndex : FileIndex)
    (sessionId : string) (fromOffset : nat) : StreamResult :=
  match (findSessionFile fs projectsDir fileIndex sessionId).1 with
  | None => {| messages := []; nextOffset := 0 |}
  | Some filePath =>
      if negb (Js.truthy_str filePath) then {| messages := []; nextOffset := 0 |}
      else
        match Node.readFile fs filePath with
        | Some content => ClaudeStorage.stream_file parse content fromOffset
        | None => {| messages := []; nextOffset := fromOffset |}
        end
  end.

End ClaudeStorageFiles.

(* ===================================================================== *)
(** ** [api/storage.ts]: the time of the first message *)
(* ===================================================================== *)

Module FirstTimestamp.
Import Storage.

(** A number that may be [NaN]: the time of an invalid date. *)
Inductive number := NaN | Num (n : Z).

(** The text before the first line feed, or the whole text when it holds
    no line feed or begins with one. *)
Definition first_line (content : string) : string :=
  match Js.indexOf (String Js.LF "") content with
  | Some firstNewline =>
      if 0 <? firstNewline then Js.slice_to firstNewline content else content
  | None => content
  end.

Section WithRuntime.
Variable parse : string -> option json.

(** [new Date(text).getTime()] *)
Variable getTime : string -> number.

(** [getFirstTimestamp]; the field [timestamp] is read at its declared
    type [string]. The outer [None] of the result is [undefined]. *)
Definition getFirstTimestamp (fs : Node.FileSystem) (fileIndex : FileIndex)
    (firstTimestampCache : gmap string number) (sessionId : string)
  : option number * gmap string number :=
  match firstTimestampCache !! sessionId with
  | Some ts => (Some ts, firstTimestampCache)
  | None =>
      match index_get sessionId fileIndex with
      | None => (None, firstTimestampCache)
      | Some filePath =>
          if negb (Js.truthy_str filePath) then (None, firstTimestampCache)
          else
            match Node.readFile fs filePath with
            | None => (None, firstTimestampCache)
            | Some content =>
                let firstLine := first_line content in
                if negb (Js.truthy_str (Js.trim firstLine))
                then (None, firstTimestampCache)
                else
                  match parse_message parse firstLine with
                  | None => (None, firstTimestampCache)
                  | Some msg =>
                      match as_string (get "timestamp" msg) with
                      | Some t =>
                          if Js.truthy_str t then
                            let ts := getTime t in
                            (Some ts, <[sessionId := ts]> firstTimestampCache)
                          else (None, firstTimestampCache)
                      | None => (None, firstTimestampCache)
                      end
                  end
            end
      end
  end.

End WithRuntime.
End FirstTimestamp.

(* ===================================================================== *)
(** ** Strings *)
(* ===================================================================== *)

Module StringFacts.

Lemma app_cons c s t : String c s +:+ t = String c (s +:+ t).
Proof. reflexivity. Qed.

Lemma app_empty_l s : "" +:+ s = s.
Proof. reflexivity. Qed.

Lemma app_assoc_s (a b c : string) : (a +:+ b) +:+ c = a +:+ (b +:+ c).
Proof. induction a as [|x a IH]; [done|]. by rewrite !app_cons, IH. Qed.

Lemma app_empty_r s : s +:+ "" = s.
Proof. induction s as [|x a IH]; [done|]. by rewrite !app_cons, IH. Qed.

Lemma length_app_s (a b : string) :
  String.length (a +:+ b) = String.length a + String.length b.
Proof. induction a as [|x a IH]; [done|]. rewrite app_cons. simpl. by rewrite IH. Qed.

End StringFacts.

(* ===================================================================== *)
(** ** Path codec *)
(* ===================================================================== *)

Module PathCodecProofs.
Import Storage StringFacts.

Lemma replace_class_char_length cls r s :
  String.length (replace_class cls (String r "") s) = String.length s.
Proof.
  induction s as [|c s IH]; simpl; [done|].
  destruct (cls c); rewrite ?app_cons, ?app_empty_l; simpl; by rewrite IH.
Qed.

Lemma replace_class_char_get cls r s i :
  String.get i (replace_class cls (String r "") s)
  = (fun c => if cls c then r else c) <$> String.get i s.
Proof.
  revert i. induction s as [|c s IH]; intros i; simpl; [done|].
  destruct (cls c) eqn:E; rewrite ?app_cons, ?app_empty_l;
    destruct i as [|i]; simpl; rewrite ?E; try done; apply IH.
Qed.

End PathCodecProofs.

(** C8. [encodeProjectPath] is a total function of its argument alone; it
    keeps the length of the path and replaces exactly the characters [/]
    and [.] by [-], position by position; it sends the distinct paths
    [app.name] and [app/name] to the same directory name [app-name]. *)
Theorem encodeProjectPath_replaces_and_collides :
  (forall path : string,
      String.length (Storage.encodeProjectPath path) = String.length path
      /\ forall i : nat,
          String.get i (Storage.encodeProjectPath path)
          = (fun c : ascii =>
               if Ascii.eqb c "/" || Ascii.eqb c "." then "-"%char else c)
              <$> String.get i path)
  /\ Storage.encodeProjectPath "app.name" = Storage.encodeProjectPath "app/name"
  /\ Storage.encodeProjectPath "app.name" = "app-name"
  /\ "app.name" <> "app/name".
Proof.
  split; [|by repeat split].
  intros path. split.
  - apply PathCodecProofs.replace_class_char_length.
  - intros i. apply PathCodecProofs.replace_class_char_get.
Qed.

(* ===================================================================== *)
(** ** Session resolution by modification time *)
(* ===================================================================== *)

Module ResolutionProofs.
Import Storage Invariants.

Lemma closest_loop_invariant timestamp stats :
  first_closest timestamp stats
    (foldl (closest_step timestamp) (None, None) stats).
Proof.
  induction stats as [|[file m] stats IH] using rev_ind; [done|].
  rewrite foldl_snoc.
  assert (Hne : exists x l, stats ++ [(file, m)] = x :: l).
  { destruct stats; simpl; eauto. }
  destruct Hne as (x & l & Hne). unfold first_closest. rewrite Hne, <- Hne.
  unfold first_closest in IH. destruct stats as [|y stats'] eqn:Hs.
  - rewrite IH. simpl. exists 0, file, m. repeat split; try done.
    + destruct j; simpl in *; [|done]. injection H as -> ->. lia.
    + lia.
  - rewrite <- Hs in *. clear Hs y stats' Hne x l.
    destruct IH as (i & f0 & m0 & Hi & -> & Hmin).
    unfold closest_step; simpl.
    destruct (Z.ltb_spec (Z.abs (m - timestamp)) (Z.abs (m0 - timestamp))) as [Hlt|Hge].
    + exists (length stats), file, m. repeat split.
      * by rewrite lookup_app_r, Nat.sub_diag.
      * apply lookup_app_Some in H as [H|[Hlen H]].
        -- apply Hmin in H as [H _]. lia.
        -- destruct (j - length stats) eqn:E; simpl in H; [|done].
           injection H as -> ->. lia.
      * intros Hj. apply lookup_app_Some in H as [H|[Hlen H]]; [|lia].
        apply Hmin in H as [H _]. lia.
    + exists i, f0, m0. repeat split.
      * by apply lookup_app_l_Some.
      * apply lookup_app_Some in H as [H|[Hlen H]].
        -- by apply Hmin in H as [H _].
        -- destruct (j - length stats) eqn:E; simpl in H; [|done].
           injection H as -> ->. lia.
      * intros Hj. apply lookup_app_Some in H as [H|[Hlen H]].
        -- by apply Hmin in H as [_ H]; auto.
        -- apply lookup_lt_Some in Hi. lia.
Qed.

Lemma endsWith_jsonl_truthy f :
  Js.endsWith ".jsonl" f = true -> Js.truthy_str f = true.
Proof. by destruct f. Qed.

(** Every name in the stats is one of the [.jsonl] files. *)
Lemma stats_names (stat : string -> option Z) (files : list string) stats :
  mapM (fun file => pair file <$> stat file) files = Some stats ->
  stats.*1 = files.
Proof.
  intros H. apply mapM_Some_1 in H.
  induction H as [|f [f' m] fs' st Hf _ IH]; [done|].
  simpl. f_equal; [|done].
  destruct (stat f); simpl in Hf; [|done]. by injection Hf as <- _.
Qed.

End ResolutionProofs.

(** C7. For a history entry without session id, whose encoded project
    directory can be listed and whose [.jsonl] files can all be stat'ed
    ([stats] pairs each of them, in directory order, with its modification
    time): the resolved session id is the base name of a file whose
    modification time is at least as close to the entry's timestamp as that
    of every other file, and strictly closer than that of every file listed
    before it, so the first of several closest files wins; with no such
    file nothing is resolved. For the entry with timestamp 1000 and the
    directory with [s1.jsonl] (999) and [s2.jsonl] (1050) the session is
    [s1]. *)
Theorem findSessionByTimestamp_closest_first :
  (forall (fs : Node.FileSystem) (projectsDir : string)
          (entry : Storage.HistoryEntry) (files : list string)
          (stats : list (string * Z)),
      let timestamp := Storage.he_timestamp entry in
      let projectPath :=
        Js.path_join projectsDir
          (Storage.encodeProjectPath (Storage.he_project entry)) in
      Storage.he_sessionId entry = None ->
      Node.readdir fs projectPath = Some files ->
      mapM (fun file =>
              pair file <$> Node.mtimeMs fs (Js.path_join projectPath file))
           (filter (fun f => Js.endsWith ".jsonl" f = true) files)
        = Some stats ->
      match stats with
      | [] => Storage.resolveSessionId fs projectsDir entry = None
      | _ :: _ =>
          exists (i : nat) (file : string) (m : Z),
            stats !! i = Some (file, m)
            /\ Storage.resolveSessionId fs projectsDir entry
               = Some (Js.basename_ext file ".jsonl")
            /\ forall (j : nat) (file' : string) (m' : Z),
                stats !! j = Some (file', m') ->
                (Z.abs (m - timestamp) <= Z.abs (m' - timestamp))%Z
                /\ (j < i ->
                    (Z.abs (m - timestamp) < Z.abs (m' - timestamp))%Z)
      end)
  /\ Storage.resolveSessionId Scenario.two_sessions Scenario.projectsDir
       Scenario.fix_bug = Some "s1".
Proof.
  split; [|by vm_compute].
  intros fs projectsDir entry files stats timestamp projectPath Hid Hdir Hstats.
  unfold Storage.resolveSessionId, Storage.findSessionByTimestamp.
  rewrite Hid. fold projectPath. rewrite Hdir, Hstats.
  unfold Storage.closest. fold timestamp.
  pose proof (ResolutionProofs.closest_loop_invariant timestamp stats) as Hinv.
  unfold Invariants.first_closest in Hinv.
  destruct stats as [|s0 stats']; [by rewrite Hinv|].
  destruct Hinv as (i & file & m & Hi & -> & Hmin). simpl.
  exists i, file, m. split; [done|]. split; [|done].
  assert (Hin : file ∈ filter (fun f => Js.endsWith ".jsonl" f = true) files).
  { rewrite <- (ResolutionProofs.stats_names _ _ _ Hstats).
    apply list_elem_of_fmap. exists (file, m). split; [done|].
    by eapply list_elem_of_lookup_2. }
  apply list_elem_of_filter in Hin as [Hext _].
  by rewrite (ResolutionProofs.endsWith_jsonl_truthy _ Hext).
Qed.

(** The general statement of C7 at its scenario: the directory of
    [s1.jsonl] and [s2.jsonl]. *)
Lemma findSessionByTimestamp_closest_first_witness :
  exists (i : nat) (file : string) (m : Z),
    [("s1.jsonl", 999%Z); ("s2.jsonl", 1050%Z)] !! i = Some (file, m)
    /\ Storage.resolveSessionId Scenario.two_sessions Scenario.projectsDir
         Scenario.fix_bug = Some (Js.basename_ext file ".jsonl")
    /\ forall (j : nat) (file' : string) (m' : Z),
        [("s1.jsonl", 999%Z); ("s2.jsonl", 1050%Z)] !! j = Some (file', m') ->
        (Z.abs (m - 1000) <= Z.abs (m' - 1000))%Z
        /\ (j < i -> (Z.abs (m - 1000) < Z.abs (m' - 1000))%Z).
Proof.
  exact (proj1 findSessionByTimestamp_closest_first
           Scenario.two_sessions Scenario.projectsDir Scenario.fix_bug
           ["s1.jsonl"; "s2.jsonl"]
           [("s1.jsonl", 999%Z); ("s2.jsonl", 1050%Z)]
           eq_refl eq_refl eq_refl).
Defined.

(* ===================================================================== *)
(** ** The full read *)
(* ===================================================================== *)
Module ReaderProofs.
Import Storage.
Section WithParser.
Variable parse : string -> option json.

Lemma summary_not_message msg :
  type_is "summary" msg = true -> is_user_or_assistant msg = false.
Proof.
  unfold is_user_or_assistant, type_is.
  destruct (as_string (get "type" msg)) as [s|]; [|done].
  intros ->%String.eqb_eq. done.
Qed.

Lemma conversation_fold lines acc :
  foldl (conversation_step parse) acc lines
  = rev (filter (fun m => type_is "summary" m = true)
           (omap (parse_message parse) lines))
    ++ acc
    ++ filter (fun m => is_user_or_assistant m = true)
         (omap (parse_message parse) lines).
Proof.
  revert acc. induction lines as [|line lines IH]; intros acc; simpl.
  - by rewrite app_nil_r.
  - rewrite IH. unfold conversation_step.
    destruct (parse_message parse line) as [msg|]; simpl; [|done].
    rewrite !filter_cons.
    destruct (is_user_or_assistant msg) eqn:Eua; simpl.
    + destruct (type_is "summary" msg) eqn:Es.
      { apply summary_not_message in Es. congruence. }
      repeat case_decide; try done. by rewrite <- !app_assoc.
    + destruct (type_is "summary" msg) eqn:Es; repeat case_decide; try done.
      simpl. by rewrite <- !app_assoc.
Qed.

End WithParser.


End ReaderProofs.



(* ===================================================================== *)
(** ** Lines of a text *)
(* ===================================================================== *)

Module LinesProofs.
Import Lines Scenario StringFacts.

Lemma slice_from_app a b : Js.slice_from (String.length a) (a +:+ b) = b.
Proof. induction a as [|x a IH]; [by destruct b|]. by rewrite app_cons. Qed.

Lemma slice_from_add n k s :
  Js.slice_from (n + k) s = Js.slice_from k (Js.slice_from n s).
Proof.
  revert s. induction n as [|n IH]; intros s; [done|].
  destruct s as [|c s]; simpl; [by destruct k|]. apply IH.
Qed.

Lemma slice_from_ge n s : String.length s <= n -> Js.slice_from n s = "".
Proof.
  revert s. induction n as [|n IH]; intros [|c s] Hn; simpl in *; try done; try lia.
  apply IH. lia.
Qed.

Lemma slice_from_length n s :
  String.length (Js.slice_from n s) = String.length s - n.
Proof.
  revert s. induction n as [|n IH]; intros [|c s]; simpl; try done; try lia.
Qed.

Lemma no_cr_slice_from n s : no_cr s = true -> no_cr (Js.slice_from n s) = true.
Proof.
  revert s. induction n as [|n IH]; intros [|c s]; simpl; try done.
  intros [_ H]%andb_true_iff. by apply IH.
Qed.

Lemma readline_nil s : Node.readline s = [] -> s = "".
Proof.
  destruct s as [|c s]; [done|]. simpl.
  destruct (Ascii.eqb c Js.LF); [done|].
  destruct (Ascii.eqb c Js.CR).
  - destruct s as [|c' s]; [done|]. by destruct (Ascii.eqb c' Js.LF).
  - by destruct (Node.readline s).
Qed.

(** A text that ends at a line boundary is read line by line before what
    follows it. *)
Lemma readline_app_lf a b :
  Node.readline ((a +:+ NL) +:+ b) = Node.readline (a +:+ NL) ++ Node.readline b.
Proof.
  remember (String.length a) as n eqn:Hn. revert a Hn.
  induction n as [n IH] using lt_wf_ind. intros a Hn.
  destruct a as [|c t].
  { done. }
  rewrite !app_cons. simpl in Hn.
  assert (IHt : Node.readline ((t +:+ NL) +:+ b)
                = Node.readline (t +:+ NL) ++ Node.readline b).
  { apply (IH (String.length t)); [lia|done]. }
  simpl. destruct (Ascii.eqb c Js.LF).
  { by rewrite IHt. }
  destruct (Ascii.eqb c Js.CR).
  - destruct t as [|c' t'].
    + done.
    + rewrite !app_cons in *. destruct (Ascii.eqb c' Js.LF).
      * simpl. f_equal. apply (IH (String.length t')); [simpl in Hn; lia|done].
      * by rewrite IHt.
  - rewrite IHt. destruct (Node.readline (t +:+ NL)) eqn:E; [|done].
    apply readline_nil in E. by destruct t.
Qed.

Lemma bytes_cons l ls : bytes (l :: ls) = String.length l + 1 + bytes ls.
Proof. done. Qed.

Lemma bytes_app l1 l2 : bytes (l1 ++ l2) = bytes l1 + bytes l2.
Proof. induction l1 as [|x l1 IH]; simpl; [done|]. rewrite IH. lia. Qed.

(** The count of a text that ends with a line feed never exceeds its
    length; it falls short by one for each carriage return followed by a
    line feed. *)
Lemma bytes_readline_lf a :
  bytes (Node.readline (a +:+ NL)) <= String.length a + 1.
Proof.
  remember (String.length a) as n eqn:Hn. revert a Hn.
  induction n as [n IH] using lt_wf_ind. intros a Hn.
  destruct a as [|c t].
  { simpl. lia. }
  rewrite !app_cons. simpl in Hn.
  assert (IHt : bytes (Node.readline (t +:+ NL)) <= String.length t + 1).
  { apply (IH (String.length t)); [lia|done]. }
  cbn [Node.readline String.length]. destruct (Ascii.eqb c Js.LF).
  { rewrite bytes_cons. simpl. lia. }
  destruct (Ascii.eqb c Js.CR).
  - destruct t as [|c' t'].
    + simpl. lia.
    + rewrite !app_cons in *. destruct (Ascii.eqb c' Js.LF).
      * rewrite bytes_cons.
        specialize (IH (String.length t') ltac:(simpl in Hn; lia) t' eq_refl).
        simpl in *. lia.
      * rewrite bytes_cons. simpl String.length in *. lia.
  - destruct (Node.readline (t +:+ NL)) eqn:E; rewrite ?bytes_cons in *;
      simpl in *; lia.
Qed.

Lemma at_line_boundary_inv s :
  at_line_boundary s = true -> s = "" \/ exists a, s = a +:+ NL.
Proof.
  induction s as [|c s IH]; [by left|]. intros H. right.
  destruct s as [|c' s'].
  - simpl in H. apply Ascii.eqb_eq in H as ->. by exists "".
  - destruct IH as [IH|[a ->]]; [done|done|]. by exists (String c a).
Qed.

(** On a text without carriage return, [split] and [readline] differ by
    the empty piece after a closing line feed only. *)
Lemma split_lf_readline s :
  no_cr s = true ->
  Js.split_lf s
  = Node.readline s ++ (if at_line_boundary s then [""] else []).
Proof.
  induction s as [|c s IH]; [done|]. intros [Hc Hs]%andb_true_iff.
  specialize (IH Hs). cbn [Js.split_lf Node.readline].
  destruct (Ascii.eqb c Js.CR); [done|].
  destruct (Ascii.eqb c Js.LF) eqn:Ec.
  - destruct s as [|c' s']; [simpl; by rewrite Ec|].
    rewrite IH. done.
  - destruct s as [|c' s']; [simpl; by rewrite Ec|].
    rewrite IH.
    destruct (Node.readline (String c' s')) eqn:E; [by apply readline_nil in E|].
    done.
Qed.

(** On a text without carriage return the readers count every byte, and
    one more when the last line has no line feed yet. *)
Lemma bytes_readline_no_cr s :
  no_cr s = true ->
  bytes (Node.readline s)
  = String.length s + (if at_line_boundary s then 0 else 1).
Proof.
  induction s as [|c s IH]; [done|]. intros [Hc Hs]%andb_true_iff.
  specialize (IH Hs). cbn [Node.readline].
  destruct (Ascii.eqb c Js.CR); [done|].
  destruct (Ascii.eqb c Js.LF) eqn:Ec.
  - rewrite bytes_cons, IH. destruct s as [|c' s']; [simpl; by rewrite Ec|].
    cbn [at_line_boundary String.length]. lia.
  - destruct s as [|c' s']; [simpl; by rewrite Ec|].
    destruct (Node.readline (String c' s')) eqn:E; [by apply readline_nil in E|].
    rewrite bytes_cons in *. cbn [at_line_boundary String.length] in *. lia.
Qed.

(** The first line of a text without carriage return. *)
Lemma readline_first_line s :
  no_cr s = true -> s <> "" ->
  exists l,
    (exists s', no_cr s' = true /\ s = l +:+ NL +:+ s'
                /\ Node.readline s = l :: Node.readline s')
    \/ (s = l /\ Node.readline s = [l]).
Proof.
  induction s as [|c s IH]; [done|]. intros [Hc Hs]%andb_true_iff _.
  cbn [Node.readline]. destruct (Ascii.eqb c Js.CR); [done|].
  destruct (Ascii.eqb_spec c Js.LF) as [->|Hne].
  - exists "". left. exists s. done.
  - destruct s as [|c' s'].
    + exists (String c ""). by right.
    + destruct (IH Hs) as (l & [(s'' & Hs'' & Heq & Hrl)|[Heq Hrl]]); [done| |].
      * exists (String c l). left. exists s''. rewrite Heq at 1. rewrite Hrl.
        by rewrite app_cons.
      * exists (String c l). right. rewrite Hrl. by rewrite Heq at 1.
Qed.

(** Resuming after the bytes counted for the first [k] lines of a text
    without carriage return reads its remaining lines. *)
Lemma readline_resume k s :
  no_cr s = true ->
  k <= length (Node.readline s) ->
  Node.readline (Js.slice_from (bytes (take k (Node.readline s))) s)
  = drop k (Node.readline s).
Proof.
  revert s. induction k as [|k IH]; intros s Hs Hk; [done|].
  destruct (decide (s = "")) as [->|Hne]; [simpl in Hk; lia|].
  destruct (readline_first_line s Hs Hne)
    as (l & [(s' & Hs' & Heq & Hrl)|[Heq Hrl]]).
  - rewrite Hrl in *. cbn [take drop]. rewrite bytes_cons.
    rewrite Heq at 1.
    replace (String.length l + 1 + bytes (take k (Node.readline s')))
      with (String.length (l +:+ NL) + bytes (take k (Node.readline s')))
      by (rewrite length_app_s; simpl; lia).
    rewrite slice_from_add, <- app_assoc_s, slice_from_app.
    apply IH; [done|]. simpl in Hk. lia.
  - rewrite Hrl in *. simpl in Hk. assert (k = 0) as -> by lia.
    cbn [take drop]. rewrite bytes_cons. simpl bytes.
    rewrite slice_from_ge; [done|]. subst l. lia.
Qed.

End LinesProofs.

(* ===================================================================== *)
(** ** The incremental readers *)
(* ===================================================================== *)

Module StreamProofs.
Import Lines Scenario LinesProofs StringFacts.
Section WithParser.
Variable parse : string -> option json.

Lemma new_messages_app l1 l2 :
  new_messages parse (l1 ++ l2) = new_messages parse l1 ++ new_messages parse l2.
Proof. unfold new_messages. by rewrite omap_app, filter_app. Qed.

Lemma new_messages_cons_stop line rest :
  stops parse line = false ->
  new_messages parse (line :: rest)
  = match line_message parse line with
    | Some msg => if Storage.is_user_or_assistant msg then [msg] else []
    | None => []
    end ++ new_messages parse rest.
Proof.
  intros _. unfold new_messages. simpl.
  destruct (line_message parse line) as [msg|]; [|done].
  rewrite filter_cons. destruct (Storage.is_user_or_assistant msg); by case_decide.
Qed.

(** The loop of [getConversationStream] consumes the lines before the
    first line it cannot parse. *)
Lemma stream_loop_spec lines msgs b :
  Storage.stream_loop parse lines msgs b
  = (msgs ++ new_messages parse (take_until (stops parse) lines),
     b + bytes (take_until (stops parse) lines)).
Proof.
  revert msgs b. induction lines as [|line rest IH]; intros msgs b.
  { simpl. by rewrite app_nil_r, Nat.add_0_r. }
  cbn [Storage.stream_loop take_until].
  destruct (Js.truthy_str (Js.trim line)) eqn:Eb.
  - destruct (Storage.parse_message parse line) as [msg|] eqn:Ep.
    + assert (Hs : stops parse line = false) by (unfold stops; by rewrite Eb, Ep).
      rewrite Hs, IH, new_messages_cons_stop by done.
      unfold line_message. rewrite Eb, Ep, bytes_cons. unfold Js.byteLength.
      destruct (Storage.is_user_or_assistant msg);
        rewrite <- ?app_assoc; f_equal; lia.
    + assert (Hs : stops parse line = true) by (unfold stops; by rewrite Eb, Ep).
      rewrite Hs. unfold new_messages. simpl. by rewrite app_nil_r, Nat.add_0_r.
  - assert (Hs : stops parse line = false) by (unfold stops; by rewrite Eb).
    rewrite Hs, IH, new_messages_cons_stop by done.
    unfold line_message. rewrite Eb, bytes_cons. unfold Js.byteLength.
    f_equal. lia.
Qed.

(** The loop of [ClaudeStorage.getConversationStream] consumes the same
    lines; it counts no line feed for the last piece of the split. *)
Lemma claude_stream_loop_spec lines msgs b :
  ClaudeStorage.stream_loop parse lines msgs b
  = (msgs ++ new_messages parse (take_until (stops parse) lines),
     b + bytes (take_until (stops parse) lines)
     - (if length (take_until (stops parse) lines) =? length lines
        then match lines with [] => 0 | _ :: _ => 1 end
        else 0)).
Proof.
  revert msgs b. induction lines as [|line rest IH]; intros msgs b.
  { simpl. rewrite app_nil_r. f_equal. lia. }
  cbn [ClaudeStorage.stream_loop take_until].
  destruct (Js.truthy_str (Js.trim line)) eqn:Eb.
  - destruct (Storage.parse_message parse line) as [msg|] eqn:Ep.
    + assert (Hs : stops parse line = false) by (unfold stops; by rewrite Eb, Ep).
      rewrite Hs, IH, new_messages_cons_stop by done.
      unfold line_message. rewrite Eb, Ep, bytes_cons. unfold Js.byteLength.
      cbn [length].
      destruct (Storage.is_user_or_assistant msg);
        rewrite <- ?app_assoc; f_equal;
        destruct rest; cbn [length take_until bytes foldr Nat.eqb];
        try destruct (_ =? _); lia.
    + assert (Hs : stops parse line = true) by (unfold stops; by rewrite Eb, Ep).
      rewrite Hs. unfold new_messages. simpl. rewrite app_nil_r. f_equal. lia.
  - assert (Hs : stops parse line = false) by (unfold stops; by rewrite Eb).
    rewrite Hs, IH, new_messages_cons_stop by done.
    unfold line_message. rewrite Eb, bytes_cons. unfold Js.byteLength.
    cbn [length]. f_equal.
    destruct rest; cbn [length take_until bytes foldr Nat.eqb];
      try destruct (_ =? _); lia.
Qed.

Lemma take_until_length {A} (stop : A -> bool) l :
  length (take_until stop l) <= length l.
Proof. induction l as [|x l IH]; simpl; [done|]. destruct (stop x); simpl; lia. Qed.

Lemma take_until_take {A} (stop : A -> bool) l :
  take_until stop l = take (length (take_until stop l)) l.
Proof. induction l as [|x l IH]; simpl; [done|]. destruct (stop x); simpl; by f_equal. Qed.

Lemma drop_until_drop {A} (stop : A -> bool) l :
  drop_until stop l = drop (length (take_until stop l)) l.
Proof. induction l as [|x l IH]; simpl; [done|]. by destruct (stop x). Qed.

Lemma take_until_all {A} (stop : A -> bool) l :
  length (take_until stop l) = length l -> take_until stop l = l.
Proof.
  intros H. rewrite take_until_take, H. apply firstn_all.
Qed.

Lemma take_until_app {A} (stop : A -> bool) l1 l2 :
  take_until stop l1 = l1 ->
  take_until stop (l1 ++ l2) = l1 ++ take_until stop l2.
Proof.
  induction l1 as [|x l1 IH]; simpl; [done|].
  destruct (stop x); [done|]. intros [= H]. by rewrite IH.
Qed.

Lemma take_until_app_short {A} (stop : A -> bool) l1 l2 :
  length (take_until stop l1) < length l1 ->
  take_until stop (l1 ++ l2) = take_until stop l1.
Proof.
  induction l1 as [|x l1 IH]; simpl; [lia|].
  destruct (stop x); [done|]. simpl. intros H. rewrite IH; [done|lia].
Qed.

(** Lines left unconsumed weigh at least one byte. *)
Lemma bytes_take_until_short (stop : string -> bool) l :
  length (take_until stop l) < length l ->
  bytes (take_until stop l) < bytes l.
Proof.
  induction l as [|x l IH]; simpl; [lia|].
  destruct (stop x); simpl; [lia|]. intros H.
  specialize (IH ltac:(lia)). lia.
Qed.

Lemma bytes_take_until_le (stop : string -> bool) l :
  bytes (take_until stop l) <= bytes l.
Proof.
  induction l as [|x l IH]; simpl; [lia|].
  destruct (stop x); simpl; lia.
Qed.

Lemma slice_from_min n s :
  Js.slice_from (Nat.min (String.length s) n) s = Js.slice_from n s.
Proof.
  destruct (Nat.le_gt_cases n (String.length s)).
  - by rewrite Nat.min_r.
  - rewrite Nat.min_l by lia. rewrite !slice_from_ge; [done|lia|lia].
Qed.

Lemma stream_file_spec content fromOffset :
  fromOffset < String.length content ->
  Storage.stream_file parse content fromOffset
  = {| Storage.messages :=
         new_messages parse
           (take_until (stops parse)
              (Node.readline (Js.slice_from fromOffset content)));
       Storage.nextOffset :=
         Nat.min (String.length content)
           (fromOffset
            + bytes (take_until (stops parse)
                       (Node.readline (Js.slice_from fromOffset content)))) |}.
Proof.
  intros Hlt. unfold Storage.stream_file.
  destruct (Nat.leb_spec (String.length content) fromOffset); [lia|].
  rewrite stream_loop_spec. simpl. f_equal.
  destruct (Nat.ltb_spec (String.length content)
              (fromOffset + bytes (take_until (stops parse)
                        (Node.readline (Js.slice_from fromOffset content))))); lia.
Qed.

End WithParser.
End StreamProofs.
Module ReaderAgreement.
Import Lines Scenario LinesProofs StreamProofs StringFacts.
Section WithParser.
Variable parse : string -> option json.

Lemma slice_to_from n s : Js.slice_to n s +:+ Js.slice_from n s = s.
Proof.
  revert s. induction n as [|n IH]; intros [|c s]; simpl; try done.
  rewrite StringFacts.app_cons. by rewrite IH.
Qed.

Lemma slice_to_length n s :
  n <= String.length s -> String.length (Js.slice_to n s) = n.
Proof.
  revert s. induction n as [|n IH]; intros [|c s]; simpl; try done; try lia.
  intros H. rewrite IH; lia.
Qed.

Lemma stops_empty : stops parse "" = false.
Proof. done. Qed.

Lemma claude_stream_file_spec content fromOffset :
  fromOffset < String.length content ->
  ClaudeStorage.stream_file parse content fromOffset
  = {| Storage.messages :=
         new_messages parse
           (take_until (stops parse)
              (Js.split_lf (Js.slice_from fromOffset content)));
       Storage.nextOffset :=
         fromOffset
         + bytes (take_until (stops parse)
                    (Js.split_lf (Js.slice_from fromOffset content)))
         - (if length (take_until (stops parse)
                         (Js.split_lf (Js.slice_from fromOffset content)))
               =? length (Js.split_lf (Js.slice_from fromOffset content))
            then 1 else 0) |}.
Proof.
  intros Hlt. unfold ClaudeStorage.stream_file.
  destruct (Nat.leb_spec (String.length content) fromOffset); [lia|].
  pose proof (slice_from_length fromOffset content) as Hlen.
  destruct (Js.slice_from fromOffset content) as [|c s] eqn:Es;
    [simpl in Hlen; lia|].
  cbn [Js.truthy_str Js.is_empty negb].
  rewrite claude_stream_loop_spec. cbn [app]. f_equal.
  destruct (Js.split_lf (String c s)) as [|l0 ls] eqn:E.
  { exfalso. revert E. clear. simpl. destruct (Ascii.eqb c Js.LF); [done|].
    by destruct (Js.split_lf s). }
  destruct (Nat.eqb_spec (length (take_until (stops parse) (l0 :: ls)))
              (length (l0 :: ls))) as [Hall|Hshort]; [|lia].
  rewrite (take_until_all _ _ Hall), bytes_cons. lia.
Qed.

End WithParser.
End ReaderAgreement.

(** C1, amended. An incremental read of an existing file from an offset
    before its end consumes the lines up to the first line that is not
    blank and on which [JSON.parse] (or the read of [type] on a [null]
    value) throws: blank lines and lines that parse to a value of any type
    are consumed, the user and assistant lines among them are returned in
    order, and [nextOffset] is the offset plus the bytes counted for the
    consumed lines (one more than the length of each), capped at the file
    size. The offset never moves backwards nor past the end of the file;
    in a file without carriage returns, reading on from [nextOffset] meets
    exactly the lines that were not consumed, so [nextOffset] counts
    consumed bytes only. [ClaudeStorage.getConversationStream] consumes the
    pieces of the split in the same way and counts no line feed for the
    last piece. From an offset at or past the end of the file nothing is
    read and the offset is returned unchanged. *)
Theorem getConversationStream_consumes_parsed_prefix :
  (forall (parse : string -> option json) (content : string) (fromOffset : nat),
      fromOffset < String.length content ->
      let lines := Node.readline (Js.slice_from fromOffset content) in
      let consumed := Lines.take_until (Lines.stops parse) lines in
      let r := Storage.stream_file parse content fromOffset in
      Storage.messages r = Lines.new_messages parse consumed
      /\ Storage.nextOffset r
         = Nat.min (String.length content) (fromOffset + Lines.bytes consumed)
      /\ fromOffset <= Storage.nextOffset r <= String.length content
      /\ (Lines.no_cr content = true ->
          Node.readline (Js.slice_from (Storage.nextOffset r) content)
          = Lines.drop_until (Lines.stops parse) lines)
      /\ let pieces := Js.split_lf (Js.slice_from fromOffset content) in
         let consumed' := Lines.take_until (Lines.stops parse) pieces in
         let r' := ClaudeStorage.stream_file parse content fromOffset in
         Storage.messages r' = Lines.new_messages parse consumed'
         /\ Storage.nextOffset r'
            = fromOffset + Lines.bytes consumed'
              - (if length consumed' =? length pieces then 1 else 0))
  /\ (forall (parse : string -> option json) (content : string) (fromOffset : nat),
        String.length content <= fromOffset ->
        Storage.stream_file parse content fromOffset
        = {| Storage.messages := []; Storage.nextOffset := fromOffset |})
  /\ (forall parse fs projectsDir fileIndex sessionId filePath content fromOffset,
        Storage.located fs projectsDir fileIndex sessionId = Some filePath ->
        Node.readFile fs filePath = Some content ->
        Storage.getConversationStream parse fs projectsDir fileIndex sessionId
          fromOffset
        = Storage.stream_file parse content fromOffset).
Proof.
  split; [|split].
  - intros parse content fromOffset Hlt lines consumed r.
    subst r. rewrite StreamProofs.stream_file_spec by done.
    fold lines. fold consumed. cbn [Storage.messages Storage.nextOffset].
    split; [done|]. split; [done|]. split; [lia|].
    split; [|by rewrite ReaderAgreement.claude_stream_file_spec].
    intros Hcr. rewrite StreamProofs.slice_from_min.
    rewrite LinesProofs.slice_from_add.
    subst consumed.
    rewrite StreamProofs.take_until_take, StreamProofs.drop_until_drop.
    apply LinesProofs.readline_resume.
    + by apply LinesProofs.no_cr_slice_from.
    + apply StreamProofs.take_until_length.
  - intros parse content fromOffset Hge. unfold Storage.stream_file.
    by destruct (Nat.leb_spec (String.length content) fromOffset); [|lia].
  - intros parse fs projectsDir fileIndex sessionId filePath content fromOffset
      Hfind Hread.
    unfold Storage.getConversationStream. by rewrite Hfind, Hread.
Qed.

(** C1 at the three-line transcript, read from offset 0. *)
Lemma getConversationStream_consumes_parsed_prefix_witness :
  Storage.messages (Storage.stream_file Json.parse Scenario.transcript 0)
  = Lines.new_messages Json.parse
      (Lines.take_until (Lines.stops Json.parse)
         (Node.readline (Js.slice_from 0 Scenario.transcript))).
Proof.
  exact (proj1 (proj1 getConversationStream_consumes_parsed_prefix
                  Json.parse Scenario.transcript 0 ltac:(vm_compute; lia))).
Defined.

(** C1 as the design document words it fails: the offset advances past a
    summary line, and past a blank line, neither of which is a user or
    assistant line. *)
Lemma stream_advances_past_summary_line :
  Storage.stream_file Json.parse (Scenario.summary_line +:+ Scenario.NL) 0
  = {| Storage.messages := []; Storage.nextOffset := 37 |}
  /\ Storage.stream_file Json.parse Scenario.NL 0
     = {| Storage.messages := []; Storage.nextOffset := 1 |}
  /\ ~ (forall (k : nat) (line : string),
          let content := Scenario.summary_line +:+ Scenario.NL in
          let lines := Node.readline (Js.slice_from 0 content) in
          lines !! k = Some line ->
          0 + Lines.bytes (take (S k) lines)
          <= Storage.nextOffset (Storage.stream_file Json.parse content 0) ->
          exists msg,
            Storage.parse_message Json.parse line = Some msg
            /\ Storage.is_user_or_assistant msg = true).
Proof.
  split; [by vm_compute|]. split; [by vm_compute|].
  intros H. specialize (H 0 Scenario.summary_line eq_refl).
  destruct H as (msg & Hmsg & Hua).
  - vm_compute. lia.
  - vm_compute in Hmsg. injection Hmsg as <-. vm_compute in Hua. discriminate.
Qed.

Module ResumeProofs.
Import Lines Scenario LinesProofs StreamProofs ReaderAgreement StringFacts.
Section WithParser.
Variable parse : string -> option json.

(** A read that returns the size of a file ending at a line boundary has
    consumed every line of it, and counted every byte. *)
Lemma whole_file_consumed written :
  written <> "" ->
  at_line_boundary written = true ->
  Storage.nextOffset (Storage.stream_file parse written 0) = String.length written ->
  take_until (stops parse) (Node.readline written) = Node.readline written
  /\ bytes (Node.readline written) = String.length written.
Proof.
  intros Hne Hb Hn.
  assert (Hlen : 0 < String.length written) by (destruct written; [done|simpl; lia]).
  rewrite stream_file_spec in Hn by done.
  cbn [Storage.nextOffset Js.slice_from] in Hn.
  destruct (at_line_boundary_inv _ Hb) as [->|[a ->]]; [done|].
  pose proof (bytes_readline_lf a) as Hle.
  rewrite length_app_s in *. cbn [String.length NL] in *.
  set (lines := Node.readline (a +:+ NL)) in *.
  destruct (decide (length (take_until (stops parse) lines) = length lines))
    as [Hall|Hshort].
  - rewrite (take_until_all _ _ Hall) in *. split; [done|]. lia.
  - pose proof (take_until_length (stops parse) lines).
    pose proof (bytes_take_until_short (stops parse) lines ltac:(lia)). lia.
Qed.

Lemma stream_resume written appended :
  at_line_boundary written = true ->
  Storage.nextOffset (Storage.stream_file parse written 0) = String.length written ->
  Storage.stream_file parse (written +:+ appended) 0
  = {| Storage.messages :=
         Storage.messages (Storage.stream_file parse written 0)
         ++ Storage.messages
              (Storage.stream_file parse (written +:+ appended)
                 (String.length written));
       Storage.nextOffset :=
         Storage.nextOffset
           (Storage.stream_file parse (written +:+ appended)
              (String.length written)) |}.
Proof.
  intros Hb Hn.
  destruct (decide (written = "")) as [->|Hne].
  { rewrite StringFacts.app_empty_l. cbn [String.length].
    by destruct (Storage.stream_file parse appended 0). }
  destruct (whole_file_consumed written Hne Hb Hn) as [Hall Hbytes].
  assert (Hlen : 0 < String.length written) by (destruct written; [done|simpl; lia]).
  destruct (at_line_boundary_inv _ Hb) as [->|[a Ha]]; [done|].
  assert (Hlines : Node.readline (written +:+ appended)
                   = Node.readline written ++ Node.readline appended).
  { subst written. apply readline_app_lf. }
  rewrite (stream_file_spec parse written 0) by done.
  rewrite (stream_file_spec parse (written +:+ appended) 0)
    by (rewrite length_app_s; lia).
  cbn [Js.slice_from Storage.messages Storage.nextOffset].
  rewrite Hlines, take_until_app, new_messages_app, bytes_app, Hall, Hbytes by done.
  destruct (decide (appended = "")) as [->|Hne'].
  - rewrite app_empty_r. unfold Storage.stream_file at 1 2.
    destruct (Nat.leb_spec (String.length written) (String.length written)); [|lia].
    cbn. rewrite !app_nil_r. f_equal. lia.
  - assert (0 < String.length appended) by (destruct appended; [done|simpl; lia]).
    rewrite (stream_file_spec parse (written +:+ appended) (String.length written))
      by (rewrite length_app_s; lia).
    cbn [Storage.messages Storage.nextOffset].
    rewrite slice_from_app. done.
Qed.

Lemma slice_to_split n k s :
  n <= k ->
  Js.slice_to k s = Js.slice_to n s +:+ Js.slice_to (k - n) (Js.slice_from n s).
Proof.
  revert k s. induction n as [|n IH]; intros k s Hk.
  { cbn [Js.slice_to Js.slice_from]. by rewrite Nat.sub_0_r, app_empty_l. }
  destruct k as [|k]; [lia|].
  destruct s as [|c s]; [simpl; by destruct (k - n)|].
  cbn [Js.slice_to Js.slice_from Nat.sub]. rewrite app_cons.
  rewrite (IH k s) by lia. done.
Qed.

Lemma bytes_nil_inv lines : bytes lines = 0 -> lines = [].
Proof. destruct lines; [done|]. rewrite bytes_cons. lia. Qed.

(** A read that saw more than the first [N] bytes and returned [N], a line
    boundary before which there is no carriage return, consumed the lines
    of the first [N] bytes and nothing else: it returned what a read of
    those bytes alone returns. *)
Lemma stream_stops_at_boundary written pending :
  at_line_boundary written = true ->
  no_cr written = true ->
  Storage.nextOffset (Storage.stream_file parse (written +:+ pending) 0)
  = String.length written ->
  Storage.stream_file parse (written +:+ pending) 0
  = Storage.stream_file parse written 0
  /\ Storage.nextOffset (Storage.stream_file parse written 0)
     = String.length written.
Proof.
  intros Hb Hcr Hn.
  destruct (decide (pending = "")) as [->|Hp].
  { rewrite app_empty_r in *. done. }
  assert (Hplen : 0 < String.length pending)
    by (destruct pending; [done|simpl; lia]).
  rewrite (stream_file_spec parse (written +:+ pending) 0) in *
    by (rewrite length_app_s; lia).
  cbn [Js.slice_from Storage.nextOffset] in *. rewrite length_app_s in *.
  destruct (decide (written = "")) as [->|Hw].
  { rewrite app_empty_l in *. cbn [String.length] in *.
    assert (Hnil : take_until (stops parse) (Node.readline pending) = []).
    { apply bytes_nil_inv. lia. }
    rewrite Hnil. split; [|done]. cbn. f_equal. lia. }
  assert (Hwlen : 0 < String.length written)
    by (destruct written; [done|simpl; lia]).
  destruct (at_line_boundary_inv _ Hb) as [->|[a Ha]]; [done|].
  assert (Hlines : Node.readline (written +:+ pending)
                   = Node.readline written ++ Node.readline pending).
  { subst written. apply readline_app_lf. }
  pose proof (bytes_readline_no_cr written Hcr) as Hbytes.
  rewrite Hb, Nat.add_0_r in Hbytes.
  rewrite Hlines in *.
  set (lw := Node.readline written) in *.
  set (lp := Node.readline pending) in *.
  pose proof (take_until_length (stops parse) lw) as Hle.
  destruct (decide (length (take_until (stops parse) lw) = length lw))
    as [Hall|Hshort].
  - pose proof (take_until_all _ _ Hall) as Hall'.
    rewrite take_until_app in * by done.
    rewrite bytes_app in Hn.
    assert (Hnil : take_until (stops parse) lp = []).
    { apply bytes_nil_inv. lia. }
    rewrite Hnil, app_nil_r in *.
    rewrite (stream_file_spec parse written 0) by done.
    cbn [Js.slice_from Storage.nextOffset]. fold lw. rewrite Hall'.
    split; [f_equal; lia|lia].
  - pose proof (bytes_take_until_short (stops parse) lw ltac:(lia)).
    rewrite take_until_app_short in Hn by lia. lia.
Qed.

Lemma no_cr_slice_to n s : no_cr s = true -> no_cr (Js.slice_to n s) = true.
Proof.
  revert s. induction n as [|n IH]; intros [|c s]; simpl; try done.
  intros [-> H]%andb_true_iff. by apply IH.
Qed.

Lemma take_until_id_iff {A} (stop : A -> bool) l :
  take_until stop l = l <-> Forall (fun x => stop x = false) l.
Proof.
  induction l as [|x l IH]; simpl; [by split|].
  destruct (stop x) eqn:E.
  - split; [done|]. intros H. inversion H; congruence.
  - split.
    + intros [= H]. constructor; [done|]. by apply IH.
    + intros H. inversion H; subst. f_equal. by apply IH.
Qed.

(** A read of a file that ends at a line boundary and holds no carriage
    return returns its size exactly when none of its lines stops the
    reader. *)
Lemma reaches_end_iff written :
  at_line_boundary written = true ->
  no_cr written = true ->
  Storage.nextOffset (Storage.stream_file parse written 0) = String.length written
  <-> Forall (fun line => stops parse line = false) (Node.readline written).
Proof.
  intros Hb Hcr.
  destruct (decide (written = "")) as [->|Hne]; [by split|].
  assert (Hlen : 0 < String.length written) by (destruct written; [done|simpl; lia]).
  pose proof (bytes_readline_no_cr written Hcr) as Hbytes.
  rewrite Hb, Nat.add_0_r in Hbytes.
  split.
  - intros Hn. apply take_until_id_iff.
    by destruct (whole_file_consumed written Hne Hb Hn).
  - intros Hall%take_until_id_iff.
    rewrite stream_file_spec by done.
    cbn [Storage.nextOffset Js.slice_from]. rewrite Hall, Hbytes. lia.
Qed.

(** A read of such a file that does not return its size stopped at one of
    its lines, and what is written after the file is not reached. *)
Lemma stream_stuck written appended :
  at_line_boundary written = true ->
  no_cr written = true ->
  Storage.nextOffset (Storage.stream_file parse written 0) <> String.length written ->
  Storage.stream_file parse (written +:+ appended) 0
  = Storage.stream_file parse written 0
  /\ Storage.nextOffset (Storage.stream_file parse written 0)
     < String.length written.
Proof.
  intros Hb Hcr Hn.
  destruct (decide (written = "")) as [->|Hne]; [done|].
  assert (Hlen : 0 < String.length written) by (destruct written; [done|simpl; lia]).
  pose proof (bytes_readline_no_cr written Hcr) as Hbytes.
  rewrite Hb, Nat.add_0_r in Hbytes.
  assert (Hlines : Node.readline (written +:+ appended)
                   = Node.readline written ++ Node.readline appended).
  { destruct (at_line_boundary_inv _ Hb) as [->|[a ->]]; [done|].
    apply readline_app_lf. }
  rewrite (stream_file_spec parse written 0) in * by done.
  rewrite (stream_file_spec parse (written +:+ appended) 0)
    by (rewrite length_app_s; lia).
  cbn [Js.slice_from Storage.nextOffset] in *.
  rewrite Hlines, length_app_s.
  set (lw := Node.readline written) in *.
  pose proof (take_until_length (stops parse) lw) as Hle.
  destruct (decide (length (take_until (stops parse) lw) = length lw))
    as [Hall|Hshort].
  - exfalso. apply Hn. rewrite (take_until_all _ _ Hall), Hbytes. lia.
  - pose proof (bytes_take_until_short (stops parse) lw ltac:(lia)).
    rewrite take_until_app_short by lia. split; [f_equal; lia|lia].
Qed.

End WithParser.
End ResumeProofs.

(** C2, amended. Let the file content hold no carriage return and let
    [N] be a line boundary of it (the first [N] bytes are empty or end
    with a line feed). An incremental read from offset 0 of the first [N]
    bytes consumes up to [N], that is returns [nextOffset = N], exactly
    when every line before [N] is blank or parses. Then one read of the
    whole content from offset 0 returns the messages of that read followed
    by the messages of a second read from [N], in this order, and the same
    final offset as the second read; the same holds when the first read
    saw more than [N] bytes and returned [N]. Otherwise a line before [N]
    stops the reader: the read of the whole content returns what the read
    of the first [N] bytes returns, and neither reaches [N]. *)
Theorem getConversationStream_resumable :
  forall (parse : string -> option json) (content : string) (N : nat),
    Lines.no_cr content = true ->
    N <= String.length content ->
    Lines.at_line_boundary (Js.slice_to N content) = true ->
    let first := Storage.stream_file parse (Js.slice_to N content) 0 in
    let second := Storage.stream_file parse content N in
    let whole := Storage.stream_file parse content 0 in
    (Storage.nextOffset first = N
     <-> Forall (fun line => Lines.stops parse line = false)
           (Node.readline (Js.slice_to N content)))
    /\ (Storage.nextOffset first = N ->
        Storage.messages whole = Storage.messages first ++ Storage.messages second
        /\ Storage.nextOffset whole = Storage.nextOffset second)
    /\ (forall seen : nat,
          N <= seen <= String.length content ->
          let first_seen := Storage.stream_file parse (Js.slice_to seen content) 0 in
          Storage.nextOffset first_seen = N ->
          Storage.messages whole
          = Storage.messages first_seen ++ Storage.messages second
          /\ Storage.nextOffset whole = Storage.nextOffset second)
    /\ (Storage.nextOffset first <> N ->
        whole = first /\ Storage.nextOffset first < N).
Proof.
  intros parse content N Hcr HN Hb first second whole.
  pose proof (ReaderAgreement.slice_to_from N content) as Hsplit.
  pose proof (ReaderAgreement.slice_to_length N content HN) as Hlen.
  pose proof (ResumeProofs.no_cr_slice_to N content Hcr) as Hcr'.
  assert (Hexact : Storage.nextOffset first = N ->
                   Storage.messages whole
                   = Storage.messages first ++ Storage.messages second
                   /\ Storage.nextOffset whole = Storage.nextOffset second).
  { intros Hn. subst first second whole.
    pose proof (ResumeProofs.stream_resume parse (Js.slice_to N content)
                  (Js.slice_from N content) Hb) as H.
    rewrite Hsplit, Hlen in H. by rewrite (H Hn). }
  split; [|split; [|split]].
  - subst first. rewrite <- Hlen at 2.
    by apply ResumeProofs.reaches_end_iff.
  - exact Hexact.
  - intros seen Hseen first_seen Hn. subst first_seen.
    pose proof (ResumeProofs.slice_to_split N seen content ltac:(lia)) as Hs.
    rewrite Hs in Hn |- *.
    destruct (ResumeProofs.stream_stops_at_boundary parse
                (Js.slice_to N content)
                (Js.slice_to (seen - N) (Js.slice_from N content)) Hb Hcr')
      as [Hsame Hexactly]; [by rewrite Hlen|].
    rewrite Hlen in Hexactly. rewrite Hsame. by apply Hexact.
  - intros Hn. subst first second whole.
    destruct (ResumeProofs.stream_stuck parse (Js.slice_to N content)
                (Js.slice_from N content) Hb Hcr') as [Hsame Hlt].
    { by rewrite Hlen. }
    rewrite Hsplit in Hsame. by rewrite Hlen in Hlt.
Qed.

(** C2 as the design document words it fails. A complete line that is
    not JSON stops the reader for good: on such a line followed by a user
    line, the read of the first line consumes nothing, the read from the
    line boundary 5 returns the user message, and the read of the whole
    returns nothing. And where a line ends with a carriage return and a
    line feed, a read that has returned the line boundary 3 is followed
    by a read from 3 that returns 4, while the read of the whole returns
    3. *)
Lemma stream_split_differs_from_whole :
  Storage.stream_file Json.parse (Js.slice_to 5 Scenario.unparsed_then_user) 0
  = {| Storage.messages := []; Storage.nextOffset := 0 |}
  /\ Storage.stream_file Json.parse Scenario.unparsed_then_user 5
     = {| Storage.messages := [Scenario.user_msg]; Storage.nextOffset := 80 |}
  /\ Storage.stream_file Json.parse Scenario.unparsed_then_user 0
     = {| Storage.messages := []; Storage.nextOffset := 0 |}
  /\ Lines.at_line_boundary (Js.slice_to 3 Scenario.crlf_then_partial) = true
  /\ Storage.stream_file Json.parse Scenario.crlf_then_partial 0
     = {| Storage.messages := []; Storage.nextOffset := 3 |}
  /\ Storage.stream_file Json.parse Scenario.crlf_then_partial 3
     = {| Storage.messages := []; Storage.nextOffset := 4 |}
  /\ ~ (forall (content : string) (N : nat),
          N <= String.length content ->
          Lines.at_line_boundary (Js.slice_to N content) = true ->
          let first := Storage.stream_file Json.parse (Js.slice_to N content) 0 in
          let second := Storage.stream_file Json.parse content N in
          let whole := Storage.stream_file Json.parse content 0 in
          Storage.messages whole = Storage.messages first ++ Storage.messages second
          /\ Storage.nextOffset whole = Storage.nextOffset second)
  /\ ~ (forall (content : string) (N seen : nat),
          N <= seen <= String.length content ->
          Lines.at_line_boundary (Js.slice_to N content) = true ->
          let first := Storage.stream_file Json.parse (Js.slice_to seen content) 0 in
          let second := Storage.stream_file Json.parse content N in
          let whole := Storage.stream_file Json.parse content 0 in
          Storage.nextOffset first = N ->
          Storage.messages whole = Storage.messages first ++ Storage.messages second
          /\ Storage.nextOffset whole = Storage.nextOffset second).
Proof.
  split; [by vm_compute|]. split; [by vm_compute|]. split; [by vm_compute|].
  split; [by vm_compute|]. split; [by vm_compute|]. split; [by vm_compute|].
  split.
  - intros H.
    destruct (H Scenario.unparsed_then_user 5 ltac:(vm_compute; lia)
                ltac:(by vm_compute)) as [Hm _].
    by vm_compute in Hm.
  - intros H.
    destruct (H Scenario.crlf_then_partial 3 8 ltac:(vm_compute; lia)
                ltac:(by vm_compute) ltac:(by vm_compute)) as [_ Hn].
    by vm_compute in Hn.
Qed.

(** C2 at the three-line transcript, split after its second line (byte
    112): first when the file ended there, then when the first read had
    also seen the beginning of the third line (150 bytes); and at the
    line that is not JSON followed by the user line, split after the
    first line (byte 5), where no read gets past offset 0. *)
Lemma getConversationStream_resumable_witness :
  (Storage.messages (Storage.stream_file Json.parse Scenario.transcript 0)
   = Storage.messages
       (Storage.stream_file Json.parse (Js.slice_to 112 Scenario.transcript) 0)
     ++ Storage.messages (Storage.stream_file Json.parse Scenario.transcript 112)
   /\ Storage.nextOffset (Storage.stream_file Json.parse Scenario.transcript 0)
      = Storage.nextOffset (Storage.stream_file Json.parse Scenario.transcript 112))
  /\ (Storage.messages (Storage.stream_file Json.parse Scenario.transcript 0)
      = Storage.messages
          (Storage.stream_file Json.parse (Js.slice_to 150 Scenario.transcript) 0)
        ++ Storage.messages (Storage.stream_file Json.parse Scenario.transcript 112)
      /\ Storage.nextOffset (Storage.stream_file Json.parse Scenario.transcript 0)
         = Storage.nextOffset
             (Storage.stream_file Json.parse Scenario.transcript 112))
  /\ (Storage.stream_file Json.parse Scenario.unparsed_then_user 0
      = Storage.stream_file Json.parse
          (Js.slice_to 5 Scenario.unparsed_then_user) 0
      /\ Storage.nextOffset
           (Storage.stream_file Json.parse
              (Js.slice_to 5 Scenario.unparsed_then_user) 0) < 5).
Proof.
  pose proof (getConversationStream_resumable Json.parse Scenario.transcript 112
                ltac:(by vm_compute) ltac:(vm_compute; lia)
                ltac:(by vm_compute)) as (_ & Hexact & Hseen & _).
  pose proof (getConversationStream_resumable Json.parse
                Scenario.unparsed_then_user 5
                ltac:(by vm_compute) ltac:(vm_compute; lia)
                ltac:(by vm_compute)) as (_ & _ & _ & Hstuck).
  split; [|split].
  - apply Hexact. by vm_compute.
  - apply (Hseen 150); [vm_compute; lia|by vm_compute].
  - apply Hstuck. by vm_compute.
Defined.

(** C10. The two incremental readers are not equivalent. On a transcript
    whose line is ended by a carriage return and a line feed, [readline]
    drops both and [getConversationStream] of [api/storage.ts] counts one
    byte for them: it returns an offset one short of the end of the line.
    [ClaudeStorage.getConversationStream] keeps the carriage return in the
    line, counts both, and returns the size of the file. The messages are
    the same. *)
Theorem stream_readers_differ_on_crlf :
  String.length (Scenario.user_line +:+ Scenario.CRLF) = 76
  /\ Storage.getConversationStream Json.parse Scenario.crlf_project
       Scenario.projectsDir [] "s1" 0
     = {| Storage.messages := [Scenario.user_msg]; Storage.nextOffset := 75 |}
  /\ ClaudeStorageFiles.getConversationStream Json.parse Scenario.crlf_project
       Scenario.projectsDir [] "s1" 0
     = {| Storage.messages := [Scenario.user_msg]; Storage.nextOffset := 76 |}
  /\ Storage.stream_file Json.parse Scenario.CRLF 0
     = {| Storage.messages := []; Storage.nextOffset := 1 |}
  /\ ClaudeStorage.stream_file Json.parse Scenario.CRLF 0
     = {| Storage.messages := []; Storage.nextOffset := 2 |}
  /\ ~ (forall fs projectsDir fileIndex sessionId fromOffset,
          Storage.getConversationStream Json.parse fs projectsDir fileIndex
            sessionId fromOffset
          = ClaudeStorageFiles.getConversationStream Json.parse fs projectsDir
              fileIndex sessionId fromOffset).
Proof.
  split; [by vm_compute|]. split; [by vm_compute|]. split; [by vm_compute|].
  split; [by vm_compute|]. split; [by vm_compute|].
  intros H.
  specialize (H Scenario.crlf_project Scenario.projectsDir [] "s1"%string 0).
  by vm_compute in H.
Qed.

Module ReaderBodies.

(** On content without carriage return the two readers do the same to a
    file they have found: same messages, same offset. *)
Lemma stream_file_agree_without_cr
    (parse : string -> option json) (content : string) (fromOffset : nat) :
  Lines.no_cr content = true ->
  Storage.stream_file parse content fromOffset
  = ClaudeStorage.stream_file parse content fromOffset.
Proof.
  intros Hcr.
  destruct (Nat.le_gt_cases (String.length content) fromOffset) as [Hge|Hlt].
  { unfold Storage.stream_file, ClaudeStorage.stream_file.
    by destruct (Nat.leb_spec (String.length content) fromOffset); [|lia]. }
  rewrite StreamProofs.stream_file_spec,
    ReaderAgreement.claude_stream_file_spec by done.
  pose proof (LinesProofs.no_cr_slice_from fromOffset content Hcr) as Hs.
  pose proof (LinesProofs.slice_from_length fromOffset content) as Hlen.
  set (s := Js.slice_from fromOffset content) in *.
  rewrite (LinesProofs.split_lf_readline s Hs).
  pose proof (LinesProofs.bytes_readline_no_cr s Hs) as Hbytes.
  set (lines := Node.readline s) in *.
  set (stop := Lines.stops parse).
  pose proof (StreamProofs.take_until_length stop lines) as Hle.
  pose proof (StreamProofs.bytes_take_until_le stop lines) as Hble.
  destruct (Lines.at_line_boundary s) eqn:Eb.
  - (* the text ends with a line feed: the split has one empty piece more *)
    destruct (decide (length (Lines.take_until stop lines) = length lines))
      as [Hall|Hshort].
    + pose proof (StreamProofs.take_until_all _ _ Hall) as Hall'.
      rewrite StreamProofs.take_until_app by done.
      cbn [Lines.take_until]. subst stop.
      rewrite ReaderAgreement.stops_empty.
      rewrite StreamProofs.new_messages_app, LinesProofs.bytes_app, !length_app.
      rewrite Hall'. simpl. rewrite Nat.eqb_refl, app_nil_r. f_equal. lia.
    + rewrite StreamProofs.take_until_app_short by lia.
      rewrite length_app. simpl.
      destruct (Nat.eqb_spec (length (Lines.take_until stop lines))
                  (length lines + 1)); [lia|].
      f_equal. lia.
  - (* the last line has no line feed: the stream reader counts one for it
       and is capped at the file size *)
    rewrite app_nil_r.
    destruct (Nat.eqb_spec (length (Lines.take_until stop lines))
                (length lines)) as [Hall|Hshort].
    + rewrite (StreamProofs.take_until_all _ _ Hall). f_equal. lia.
    + pose proof (StreamProofs.bytes_take_until_short stop lines ltac:(lia)).
      f_equal. lia.
Qed.

End ReaderBodies.

(* ===================================================================== *)
(** ** Numbers: integers below [2 ^ 53] are added exactly *)
(* ===================================================================== *)

Module NumberProofs.
Import Number.
#[local] Open Scope Z_scope.

Lemma digits2_size p : digits2_pos p = Pos.size p.
Proof. induction p as [p IH|p IH|]; cbn; by rewrite ?IH. Qed.

Lemma digits_pos p : 1 <= digits p.
Proof. unfold digits. lia. Qed.

Lemma digits_bounds p : 2 ^ (digits p - 1) <= Zpos p < 2 ^ digits p.
Proof.
  unfold digits. rewrite digits2_size.
  pose proof (Pos.size_gt p) as Hgt. pose proof (Pos.size_le p) as Hle.
  apply Pos2Z.pos_lt_pos in Hgt. apply Pos2Z.pos_le_pos in Hle.
  rewrite Pos2Z.inj_pow in Hgt, Hle.
  replace (Zpos (Pos.size p)) with (Zpos (Pos.size p) - 1 + 1) in Hle at 1 by lia.
  rewrite Z.pow_add_r in Hle by lia.
  change (Zpos p~0) with (2 * Zpos p) in Hle. lia.
Qed.

Lemma digits_le_of_lt p n : 0 <= n -> Zpos p < 2 ^ n -> digits p <= n.
Proof.
  intros Hn Hp. pose proof (digits_bounds p) as [Hlo _]. pose proof (digits_pos p).
  destruct (Z.le_gt_cases (digits p) n) as [|Hgt]; [done|].
  assert (2 ^ n <= 2 ^ (digits p - 1)) by (apply Z.pow_le_mono_r; lia). lia.
Qed.

Lemma digits_mono p q : Zpos p <= Zpos q -> digits p <= digits q.
Proof.
  intros Hle. pose proof (digits_bounds q) as [_ Hq]. pose proof (digits_pos q).
  apply digits_le_of_lt; lia.
Qed.

Lemma Zpos_iter p k : Zpos (Pos.iter xO p k) = Zpos p * 2 ^ Zpos k.
Proof.
  induction k as [|k IH] using Pos.peano_ind.
  - cbn [Pos.iter]. lia.
  - rewrite Pos.iter_succ, Pos2Z.inj_succ, Z.pow_succ_r by lia.
    change (Zpos (Pos.iter xO p k)~0) with (2 * Zpos (Pos.iter xO p k)). lia.
Qed.

Lemma digits_iter p k : digits (Pos.iter xO p k) = digits p + Zpos k.
Proof.
  unfold digits. induction k as [|k IH] using Pos.peano_ind.
  - cbn. lia.
  - rewrite Pos.iter_succ. cbn [digits2_pos]. lia.
Qed.

Lemma Zpos_shl p k : 0 <= k -> Zpos (shl p k) = Zpos p * 2 ^ k.
Proof. destruct k as [|k|k]; intros Hk; cbn [shl]; [lia| |lia]. apply Zpos_iter. Qed.

Lemma digits_shl p k : 0 <= k -> digits (shl p k) = digits p + k.
Proof. destruct k as [|k|k]; intros Hk; cbn [shl]; [lia| |lia]. apply digits_iter. Qed.

Lemma iter_pos_iter {A} (f : A -> A) n x : SpecFloat.iter_pos f n x = Pos.iter f x n.
Proof.
  revert x. induction n as [n IH|n IH|]; intros x; cbn; [|by rewrite !IH|done].
  by rewrite !IH, !Pos.iter_swap.
Qed.

Lemma shr_iter p k :
  SpecFloat.iter_pos shr_1 k
    {| shr_m := Zpos (Pos.iter xO p k); shr_r := false; shr_s := false |}
  = {| shr_m := Zpos p; shr_r := false; shr_s := false |}.
Proof.
  rewrite iter_pos_iter. induction k as [|k IH] using Pos.peano_ind; [done|].
  rewrite (Pos.iter_succ k _ xO), Pos.iter_succ, <- Pos.iter_swap. exact IH.
Qed.

Lemma fexp_normal e : -1021 <= e -> fexp prec emax e = e - 53.
Proof. unfold fexp, emin, prec, emax. lia. Qed.

(** Rounding a mantissa of 53 digits followed by [k] zeros is exact. *)
Lemma round_aux_exact s q k t :
  digits q = 53 -> 0 <= k -> -1074 <= t <= 971 ->
  binary_round_aux prec emax s (Zpos (shl q k)) (t - k) loc_Exact
  = S754_finite s q t.
Proof.
  intros Hq Hk Ht. unfold binary_round_aux, shr_fexp.
  cbn [Zdigits2 shr_record_of_loc]. fold (digits (shl q k)).
  rewrite digits_shl, Hq, fexp_normal by lia.
  replace (53 + k + (t - k) - 53 - (t - k)) with k by lia.
  assert (Hshr : shr {| shr_m := Zpos (shl q k); shr_r := false; shr_s := false |}
                     (t - k) k
                 = ({| shr_m := Zpos q; shr_r := false; shr_s := false |}, t)).
  { destruct k as [|k|k]; cbn [shr shl]; [f_equal; lia| |lia].
    rewrite shr_iter. f_equal. lia. }
  rewrite Hshr. cbn [shr_m loc_of_shr_record round_nearest_even Zdigits2
                     shr_record_of_loc].
  fold (digits q). rewrite Hq, fexp_normal by lia.
  replace (53 + t - 53 - t) with 0 by lia. cbn [shr shr_m].
  unfold emax, prec. destruct (Z.leb_spec t (1024 - 53)); [done|lia].
Qed.

Lemma round_shr s q k t :
  digits q = 53 -> 0 <= k -> -1074 <= t <= 971 ->
  binary_round prec emax s (shl q k) (t - k) = S754_finite s q t.
Proof.
  intros Hq Hk Ht. unfold binary_round. fold (digits (shl q k)).
  rewrite digits_shl, Hq, fexp_normal by lia.
  unfold shl_align. replace (53 + k + (t - k) - 53 - (t - k)) with k by lia.
  destruct k as [|k|k]; [| |lia].
  - by apply (round_aux_exact s q 0 t).
  - by apply (round_aux_exact s q (Zpos k) t).
Qed.

Lemma round_shl s m e :
  digits m <= 53 -> -1074 <= digits m + e - 53 <= 971 ->
  binary_round prec emax s m e
  = S754_finite s (shl m (53 - digits m)) (digits m + e - 53).
Proof.
  intros Hm Ht. unfold binary_round. fold (digits m).
  rewrite fexp_normal by lia.
  unfold shl_align.
  replace (digits m + e - 53 - e) with (- (53 - digits m)) by lia.
  set (q := shl m (53 - digits m)).
  assert (Hq : digits q = 53) by (unfold q; rewrite digits_shl; lia).
  etrans; [|apply (round_aux_exact s q 0 (digits m + e - 53) Hq); lia].
  subst q. destruct (53 - digits m) as [|k|k] eqn:Ek; cbn [Z.opp shl]; [| |lia].
  - f_equal. lia.
  - f_equal. lia.
Qed.

(** The double of a positive integer below [2 ^ 53]. *)
Lemma of_Z_pos p :
  Zpos p < 2 ^ 53 ->
  of_Z (Zpos p) = S754_finite false (shl p (53 - digits p)) (digits p - 53).
Proof.
  intros Hp. assert (digits p <= 53) by (apply digits_le_of_lt; lia).
  pose proof (digits_pos p).
  unfold of_Z, binary_normalize. rewrite round_shl by lia. f_equal; lia.
Qed.

Lemma shl_align_fst m e ez :
  ez <= e -> (shl_align m e ez).1 = shl m (e - ez).
Proof.
  intros Hle. unfold shl_align.
  destruct (ez - e) as [|d|d] eqn:Ed.
  - replace (e - ez) with 0 by lia. done.
  - lia.
  - replace (e - ez) with (Zpos d) by lia. done.
Qed.

(** Addition of integers is exact as long as the sum stays below
    [2 ^ 53]. *)
Lemma add_exact a b :
  0 <= a -> 0 <= b -> a + b < 2 ^ 53 ->
  add (of_Z a) (of_Z b) = of_Z (a + b).
Proof.
  intros Ha Hb Hsum.
  destruct a as [|pa|pa]; [|destruct b as [|pb|pb]|]; try lia.
  - destruct b as [|pb|pb]; [done| |lia].
    change (0 + Zpos pb) with (Zpos pb). rewrite of_Z_pos by lia. done.
  - rewrite Z.add_0_r. rewrite of_Z_pos by lia. done.
  - change (Zpos pa + Zpos pb) with (Zpos (pa + pb)) in *.
    rewrite !of_Z_pos by lia.
    pose proof (digits_pos pa). pose proof (digits_pos pb).
    assert (Hds : digits (pa + pb) <= 53) by (apply digits_le_of_lt; lia).
    assert (Hda : digits pa <= digits (pa + pb)) by (apply digits_mono; lia).
    assert (Hdb : digits pb <= digits (pa + pb)) by (apply digits_mono; lia).
    unfold add, SFadd.
    set (ez := Z.min (digits pa - 53) (digits pb - 53)).
    rewrite !shl_align_fst by lia. cbn [cond_Zopp].
    change (Zpos ?x + Zpos ?y) with (Zpos (x + y)). cbn [binary_normalize].
    set (ds := digits (pa + pb)) in *.
    assert (Hm : (shl (shl pa (53 - digits pa)) (digits pa - 53 - ez)
                  + shl (shl pb (53 - digits pb)) (digits pb - 53 - ez))%positive
                 = shl (shl (pa + pb) (53 - ds)) (ds - 53 - ez)).
    { apply Pos2Z.inj. rewrite Pos2Z.inj_add, !Zpos_shl by lia.
      rewrite <- !Z.mul_assoc, <- !Z.pow_add_r by lia.
      replace (53 - digits pa + (digits pa - 53 - ez)) with (- ez) by lia.
      replace (53 - digits pb + (digits pb - 53 - ez)) with (- ez) by lia.
      replace (53 - ds + (ds - 53 - ez)) with (- ez) by lia.
      rewrite Pos2Z.inj_add. lia. }
    rewrite Hm.
    replace ez with (ds - 53 - (ds - 53 - ez)) at 2 by lia.
    apply round_shr; [|lia|lia].
    rewrite digits_shl by lia. subst ds. lia.
Qed.

(** The order of the doubles is the order of the integers below
    [2 ^ 53]. *)
Lemma ltb_of_Z a b :
  0 <= a -> a < b -> b < 2 ^ 53 -> ltb (of_Z a) (of_Z b) = true.
Proof.
  intros Ha Hab Hb. destruct b as [|pb|pb]; [lia| |lia].
  rewrite (of_Z_pos pb) by lia.
  destruct a as [|pa|pa]; [done| |lia].
  rewrite of_Z_pos by lia.
  assert (Hd : digits pa <= digits pb) by (apply digits_mono; lia).
  assert (digits pb <= 53) by (apply digits_le_of_lt; lia).
  unfold ltb, SFltb, SFcompare.
  destruct (Z.compare_spec (digits pa - 53) (digits pb - 53)) as [He|He|He];
    [|done|lia].
  change (Pos.compare_cont Eq ?x ?y) with (Pos.compare x y).
  assert (Hlt : (shl pa (53 - digits pa) < shl pb (53 - digits pb))%positive).
  { change (Zpos (shl pa (53 - digits pa)) < Zpos (shl pb (53 - digits pb))).
    rewrite !Zpos_shl by lia.
    replace (digits pb) with (digits pa) by lia.
    apply Z.mul_lt_mono_pos_r; [apply Z.pow_pos_nonneg; lia|lia]. }
  by rewrite (proj2 (Pos.compare_lt_iff _ _) Hlt).
Qed.

End NumberProofs.

(* ===================================================================== *)
(** ** Token accounting *)
(* ===================================================================== *)

Module TokenProofs.
Import Lines Scenario LinesProofs StringFacts.
Import Storage Invariants.
Section WithParser.
Variable parse : string -> option json.

Lemma tokens_step_spec st line :
  tokens_step parse st line
  = match line_usage parse line with
    | Some u =>
        (Some (usage_record u),
         Number.plus st.2 (counter_value "output_tokens" u))
    | None => st
    end.
Proof.
  unfold tokens_step, line_usage.
  destruct (Js.truthy_str (Js.trim line)); [|done].
  destruct (parse line) as [msg|]; [|done].
  destruct (truthy (usage_of msg)) eqn:Et; [|done].
  destruct (usage_of msg) as [u|]; [done|done].
Qed.

Lemma omap_cons_match {A B} (f : A -> option B) x l :
  omap f (x :: l)
  = match f x with Some y => y :: omap f l | None => omap f l end.
Proof. done. Qed.

Lemma tokens_fold lines st :
  foldl (tokens_step parse) st lines
  = (match last (omap (line_usage parse) lines) with
     | Some u => Some (usage_record u)
     | None => st.1
     end,
     foldl (fun total u => Number.plus total (counter_value "output_tokens" u))
       st.2 (omap (line_usage parse) lines)).
Proof.
  revert st. induction lines as [|line lines IH]; intros [lu total]; [done|].
  cbn [foldl]. rewrite IH, tokens_step_spec, omap_cons_match.
  destruct (line_usage parse line) as [u|]; cbn [fst snd foldl]; [|done].
  rewrite last_cons. by destruct (last (omap (line_usage parse) lines)).
Qed.

Lemma readline_line_lf l s :
  no_eol l = true ->
  Node.readline (l +:+ NL +:+ s) = l :: Node.readline s.
Proof.
  induction l as [|c l IH]; [done|].
  cbn [no_eol]. intros [[Hlf Hcr]%andb_true_iff Hl]%andb_true_iff.
  rewrite StringFacts.app_cons. cbn [Node.readline].
  apply negb_true_iff in Hlf, Hcr. rewrite Hlf, Hcr, IH; done.
Qed.

Lemma readline_append_line content l :
  at_line_boundary content = true ->
  no_eol l = true ->
  Node.readline (content +:+ l +:+ NL) = Node.readline content ++ [l].
Proof.
  intros Hb Hl.
  assert (Hone : Node.readline (l +:+ NL) = [l]).
  { rewrite <- (app_empty_r (l +:+ NL)), app_assoc_s. by rewrite readline_line_lf. }
  destruct (at_line_boundary_inv _ Hb) as [->|[a ->]]; [done|].
  by rewrite readline_app_lf, Hone.
Qed.

Lemma sum_counter_app k us vs :
  sum_counter k (us ++ vs) = (sum_counter k us + sum_counter k vs)%Z.
Proof. induction us as [|u us IH]; simpl; [done|]. rewrite IH. lia. Qed.

Lemma compute_tokens_spec content :
  compute_tokens parse content
  = tokens_of
      (usage_record <$> last (usages parse content),
       double_sum "output_tokens" (usages parse content)).
Proof.
  unfold compute_tokens, usages, double_sum. rewrite tokens_fold. cbn [fst snd].
  by destruct (last _).
Qed.

Lemma usages_append content line u :
  at_line_boundary content = true ->
  no_eol line = true ->
  line_usage parse line = Some u ->
  usages parse (content +:+ line +:+ NL) = usages parse content ++ [u].
Proof.
  intros Hb Hl Hu. unfold usages.
  rewrite readline_append_line by done.
  by rewrite omap_app, omap_cons_match, Hu.
Qed.

End WithParser.

(** A counter that counts is the double of its integer. *)
Lemma counter_value_counts k u :
  counts k u = true ->
  counter_value k u = Number.Num (Number.of_Z (counter k u))
  /\ (0 <= counter k u)%Z.
Proof.
  unfold counts, counter_value, counter, num_or_0.
  destruct (get k u) as [v|]; [|done].
  destruct v; try (intros ->%negb_true_iff; done).
  intros Hn%Z.leb_le. done.
Qed.

Lemma usage_counts_inv u :
  usage_counts u = true ->
  counts "input_tokens" u = true
  /\ counts "cache_creation_input_tokens" u = true
  /\ counts "cache_read_input_tokens" u = true
  /\ counts "output_tokens" u = true.
Proof.
  unfold usage_counts. rewrite !andb_true_iff. tauto.
Qed.

Lemma sum_counter_nonneg k us :
  Forall (fun u => counts k u = true) us -> (0 <= sum_counter k us)%Z.
Proof.
  induction 1 as [|u us Hu _ IH]; [done|]. cbn [sum_counter foldr].
  destruct (counter_value_counts k u Hu) as [_ Hc]. fold (sum_counter k us). lia.
Qed.

(** The loop's total is the sum of the integers as long as it stays below
    [2 ^ 53]. *)
Lemma double_sum_exact_from k us acc :
  Forall (fun u => counts k u = true) us ->
  (0 <= acc)%Z ->
  (acc + sum_counter k us < SAFE)%Z ->
  foldl (fun total u => Number.plus total (counter_value k u))
    (Number.Num (Number.of_Z acc)) us
  = Number.Num (Number.of_Z (acc + sum_counter k us)).
Proof.
  intros Hus. revert acc. induction Hus as [|u us Hu Hus IH]; intros acc Hacc Hlt.
  { cbn. by rewrite Z.add_0_r. }
  cbn [foldl sum_counter foldr] in *. fold (sum_counter k us) in *.
  destruct (counter_value_counts k u Hu) as [-> Hc].
  pose proof (sum_counter_nonneg k us Hus).
  cbn [Number.plus]. rewrite NumberProofs.add_exact by (unfold SAFE in *; lia).
  rewrite IH by lia. do 2 f_equal. lia.
Qed.

Lemma double_sum_exact k us :
  Forall (fun u => counts k u = true) us ->
  (sum_counter k us < SAFE)%Z ->
  double_sum k us = Number.Num (Number.of_Z (sum_counter k us)).
Proof.
  intros Hus Hlt. unfold double_sum.
  change Number.zero with (Number.of_Z 0).
  by rewrite double_sum_exact_from.
Qed.

(** [input + cacheCreation + cacheRead] is the sum of the integers as
    long as it stays below [2 ^ 53]. *)
Lemma input_sum_exact u :
  usage_counts u = true ->
  (input_sum u < SAFE)%Z ->
  Number.plus
    (Number.plus (counter_value "input_tokens" u)
       (counter_value "cache_creation_input_tokens" u))
    (counter_value "cache_read_input_tokens" u)
  = Number.Num (Number.of_Z (input_sum u)).
Proof.
  intros (Hi & Hc & Hr & _)%usage_counts_inv Hlt. unfold input_sum, SAFE in *.
  destruct (counter_value_counts _ _ Hi) as [-> ?].
  destruct (counter_value_counts _ _ Hc) as [-> ?].
  destruct (counter_value_counts _ _ Hr) as [-> ?].
  cbn [Number.plus]. by rewrite !NumberProofs.add_exact by lia.
Qed.

End TokenProofs.

(** C3, amended. [getSessionTokens] recomputes whenever the cached entry
    is missing or was taken at another file size or modification time.
    [inputTokens] is [input + cacheCreation + cacheRead] of the last line
    that bears a usage record (0 without such a line), each counter read
    with [|| 0], and [outputTokens] is the total of the output counters of
    all such lines, added in file order; the additions are those of
    JavaScript numbers. When the counters are missing, falsy or integers
    that are not negative, and the sums stay below [2 ^ 53], these are the
    integer sums. Appending one such usage-bearing line to a transcript
    that ends at a line boundary then increases [outputTokens] by exactly
    the output tokens of that line, which is a strict increase when they
    are positive and no change when they are 0, and sets [inputTokens] to
    the sum of the three input counters of that line. *)
Theorem getSessionTokens_last_input_sum_output :
  (forall (parse : string -> option json) (content : string),
      let us := Lines.usages parse content in
      let tokens := Storage.compute_tokens parse content in
      Storage.inputTokens tokens
      = match last us with
        | Some u =>
            Number.plus
              (Number.plus (Lines.counter_value "input_tokens" u)
                 (Lines.counter_value "cache_creation_input_tokens" u))
              (Lines.counter_value "cache_read_input_tokens" u)
        | None => Number.Num Number.zero
        end
      /\ Storage.outputTokens tokens = Lines.double_sum "output_tokens" us)
  /\ (forall (parse : string -> option json) (content : string),
        let us := Lines.usages parse content in
        let tokens := Storage.compute_tokens parse content in
        Forall (fun u => Lines.usage_counts u = true) us ->
        (Lines.sum_counter "output_tokens" us < Lines.SAFE)%Z ->
        (forall u, last us = Some u -> (Lines.input_sum u < Lines.SAFE)%Z) ->
        Storage.inputTokens tokens
        = Number.Num
            (Number.of_Z
               match last us with
               | Some u => Lines.input_sum u
               | None => 0%Z
               end)
        /\ Storage.outputTokens tokens
           = Number.Num (Number.of_Z (Lines.sum_counter "output_tokens" us)))
  /\ (forall (parse : string -> option json) (content line : string) (u : json),
        Lines.at_line_boundary content = true ->
        Lines.no_eol line = true ->
        Lines.line_usage parse line = Some u ->
        let us := Lines.usages parse content in
        let total := Lines.sum_counter "output_tokens" us in
        let added := Lines.counter "output_tokens" u in
        Forall (fun u => Lines.usage_counts u = true) us ->
        Lines.usage_counts u = true ->
        (total + added < Lines.SAFE)%Z ->
        (Lines.input_sum u < Lines.SAFE)%Z ->
        let before := Storage.compute_tokens parse content in
        let after :=
          Storage.compute_tokens parse (content +:+ line +:+ Scenario.NL) in
        Storage.outputTokens before = Number.Num (Number.of_Z total)
        /\ Storage.outputTokens after = Number.Num (Number.of_Z (total + added))
        /\ ((0 < added)%Z ->
            Number.ltb (Number.of_Z total) (Number.of_Z (total + added)) = true)
        /\ (added = 0%Z -> Storage.outputTokens after = Storage.outputTokens before)
        /\ Storage.inputTokens after
           = Number.Num (Number.of_Z (Lines.input_sum u)))
  /\ (forall parse fs projectsDir fileIndex tokenCache sessionId filePath
             content mtimeMs,
        Storage.located fs projectsDir fileIndex sessionId = Some filePath ->
        Node.readFile fs filePath = Some content ->
        Node.mtimeMs fs filePath = Some mtimeMs ->
        (forall cached,
            tokenCache !! sessionId = Some cached ->
            Storage.size cached <> String.length content
            \/ Storage.mtime cached <> mtimeMs) ->
        (Storage.getSessionTokens parse fs projectsDir fileIndex tokenCache
           sessionId).1
        = Some (Storage.compute_tokens parse content)).
Proof.
  assert (Hcounts : forall us,
             Forall (fun u => Lines.usage_counts u = true) us ->
             Forall (fun u => Lines.counts "output_tokens" u = true) us).
  { intros us Hus. eapply Forall_impl; [exact Hus|].
    intros u Hu. cbn beta in Hu.
    by apply TokenProofs.usage_counts_inv in Hu as (_ & _ & _ & ?). }
  split; [|split; [|split]].
  - intros parse content us tokens. subst tokens us.
    rewrite TokenProofs.compute_tokens_spec.
    unfold Storage.tokens_of. cbn.
    by destruct (last (Lines.usages parse content)).
  - intros parse content us tokens Hus Hout Hin. subst tokens us.
    rewrite TokenProofs.compute_tokens_spec.
    unfold Storage.tokens_of. cbn [fst snd Storage.inputTokens Storage.outputTokens].
    split.
    + destruct (last (Lines.usages parse content)) as [u|] eqn:El; [|done]. cbn.
      apply TokenProofs.input_sum_exact; [|by apply Hin].
      rewrite Forall_forall in Hus. apply Hus.
      by apply last_Some_elem_of.
    + apply TokenProofs.double_sum_exact; [by apply Hcounts|done].
  - intros parse content line u Hb Hl Hu us total added Hus Hcu Hout Hin
      before after.
    assert (Hadded : (0 <= added)%Z).
    { apply TokenProofs.usage_counts_inv in Hcu as (_ & _ & _ & Hc).
      by destruct (TokenProofs.counter_value_counts _ _ Hc). }
    assert (Htotal : (0 <= total)%Z)
      by (apply TokenProofs.sum_counter_nonneg; by apply Hcounts).
    assert (Hbefore : Storage.outputTokens before = Number.Num (Number.of_Z total)).
    { subst before. rewrite TokenProofs.compute_tokens_spec. cbn.
      apply TokenProofs.double_sum_exact; [by apply Hcounts|]. fold us total. lia. }
    assert (Hafter : Storage.outputTokens after
                     = Number.Num (Number.of_Z (total + added))).
    { subst after. rewrite TokenProofs.compute_tokens_spec. cbn.
      rewrite (TokenProofs.usages_append parse content line u) by done.
      fold us. rewrite TokenProofs.double_sum_exact.
      - rewrite TokenProofs.sum_counter_app. cbn. fold total added.
        do 2 f_equal. lia.
      - apply Hcounts. apply Forall_app. split; [done|].
        by constructor.
      - rewrite TokenProofs.sum_counter_app. cbn. fold total added. lia. }
    split; [done|]. split; [done|]. split; [|split].
    + intros Hpos. apply NumberProofs.ltb_of_Z; unfold Lines.SAFE in *; lia.
    + intros H0. rewrite Hafter, Hbefore, H0. by rewrite Z.add_0_r.
    + subst after. rewrite TokenProofs.compute_tokens_spec.
      rewrite (TokenProofs.usages_append parse content line u) by done.
      rewrite last_snoc. cbn. by apply TokenProofs.input_sum_exact.
  - intros parse fs projectsDir fileIndex tokenCache sessionId filePath
      content mtimeMs Hloc Hread Hmt Hcache.
    unfold Storage.getSessionTokens. rewrite Hloc, Hread, Hmt.
    destruct (tokenCache !! sessionId) as [cached|] eqn:Ec; [|done].
    specialize (Hcache cached eq_refl).
    destruct (Nat.eqb_spec (Storage.size cached) (String.length content));
      [|done].
    destruct (Z.eqb_spec (Storage.mtime cached) mtimeMs); [|done].
    by destruct Hcache.
Qed.

(** C3 as the design document words it fails twice. A usage-bearing line
    that reports 0 output tokens leaves [outputTokens] as it was, so the
    increase is not strict. And numbers are doubles: once the total has
    reached [2 ^ 53], a line that reports one output token leaves it as it
    was, so the total is not the sum of the counters. *)
Lemma tokens_append_without_increase :
  Lines.line_usage Json.parse Scenario.zero_output_line
  = Some (JObj [("input_tokens", JNum 4); ("output_tokens", JNum 0)])
  /\ Storage.outputTokens (Storage.compute_tokens Json.parse Scenario.transcript)
     = Number.Num (Number.of_Z 7)
  /\ Storage.outputTokens
       (Storage.compute_tokens Json.parse
          (Scenario.transcript +:+ Scenario.zero_output_line +:+ Scenario.NL))
     = Number.Num (Number.of_Z 7)
  /\ Lines.line_usage Json.parse Scenario.one_output_line
     = Some (JObj [("input_tokens", JNum 4); ("output_tokens", JNum 1)])
  /\ Storage.outputTokens
       (Storage.compute_tokens Json.parse
          (Scenario.huge_output_line +:+ Scenario.NL))
     = Number.Num (Number.of_Z (2 ^ 53))
  /\ Storage.outputTokens
       (Storage.compute_tokens Json.parse
          (Scenario.huge_output_line +:+ Scenario.NL
           +:+ Scenario.one_output_line +:+ Scenario.NL))
     = Number.Num (Number.of_Z (2 ^ 53))
  /\ Number.of_Z (2 ^ 53 + 1) = Number.of_Z (2 ^ 53)
  /\ ~ (forall (content line : string) (u : json),
          Lines.at_line_boundary content = true ->
          Lines.no_eol line = true ->
          Lines.line_usage Json.parse line = Some u ->
          exists x y,
            Storage.outputTokens (Storage.compute_tokens Json.parse content)
            = Number.Num x
            /\ Storage.outputTokens
                 (Storage.compute_tokens Json.parse
                    (content +:+ line +:+ Scenario.NL))
               = Number.Num y
            /\ Number.ltb x y = true)
  /\ ~ (forall (content line : string) (u : json),
          Lines.at_line_boundary content = true ->
          Lines.no_eol line = true ->
          Lines.line_usage Json.parse line = Some u ->
          (0 < Lines.counter "output_tokens" u)%Z ->
          exists x y,
            Storage.outputTokens (Storage.compute_tokens Json.parse content)
            = Number.Num x
            /\ Storage.outputTokens
                 (Storage.compute_tokens Json.parse
                    (content +:+ line +:+ Scenario.NL))
               = Number.Num y
            /\ Number.ltb x y = true).
Proof.
  split; [by vm_compute|]. split; [by vm_compute|]. split; [by vm_compute|].
  split; [by vm_compute|]. split; [by vm_compute|]. split; [by vm_compute|].
  split; [by vm_compute|]. split.
  - intros H.
    destruct (H Scenario.transcript Scenario.zero_output_line _
                ltac:(by vm_compute) ltac:(by vm_compute) ltac:(by vm_compute))
      as (x & y & Hx & Hy & Hlt).
    vm_compute in Hx, Hy. injection Hx as <-. injection Hy as <-.
    by vm_compute in Hlt.
  - intros H.
    destruct (H (Scenario.huge_output_line +:+ Scenario.NL)
                Scenario.one_output_line _
                ltac:(by vm_compute) ltac:(by vm_compute) ltac:(by vm_compute)
                ltac:(by vm_compute))
      as (x & y & Hx & Hy & Hlt).
    vm_compute in Hx, Hy. injection Hx as <-. injection Hy as <-.
    by vm_compute in Hlt.
Qed.

(** C3 at the three-line transcript, 10 + 0 + 3 input tokens and 7 output
    tokens, and with its assistant line appended once more: 7 output
    tokens more, and 10 + 0 + 3 input tokens. *)
Lemma getSessionTokens_last_input_sum_output_witness :
  let before := Storage.compute_tokens Json.parse Scenario.transcript in
  let after :=
    Storage.compute_tokens Json.parse
      (Scenario.transcript +:+ Scenario.assistant_line +:+ Scenario.NL) in
  Storage.inputTokens before = Number.Num (Number.of_Z 13)
  /\ Storage.outputTokens before = Number.Num (Number.of_Z 7)
  /\ Storage.outputTokens after = Number.Num (Number.of_Z 14)
  /\ Number.ltb (Number.of_Z 7) (Number.of_Z 14) = true
  /\ Storage.inputTokens after = Number.Num (Number.of_Z 13).
Proof.
  intros before after.
  assert (Hus : Lines.usages Json.parse Scenario.transcript
                = [JObj [("input_tokens", JNum 10); ("output_tokens", JNum 7);
                         ("cache_read_input_tokens", JNum 3)]])
    by (by vm_compute).
  destruct (proj1 (proj2 getSessionTokens_last_input_sum_output)
              Json.parse Scenario.transcript) as [Hin0 _].
  { rewrite Hus. constructor; [by vm_compute|constructor]. }
  { rewrite Hus. by vm_compute. }
  { rewrite Hus. intros u [= <-]. by vm_compute. }
  destruct (proj1 (proj2 (proj2 getSessionTokens_last_input_sum_output))
              Json.parse Scenario.transcript Scenario.assistant_line
              (JObj [("input_tokens", JNum 10); ("output_tokens", JNum 7);
                     ("cache_read_input_tokens", JNum 3)])
              ltac:(by vm_compute) ltac:(by vm_compute) ltac:(by vm_compute))
    as (Hbefore & Hafter & Hlt & _ & Hin).
  { rewrite Hus. constructor; [by vm_compute|constructor]. }
  { by vm_compute. }
  { rewrite Hus. by vm_compute. }
  { by vm_compute. }
  rewrite Hus in Hin0, Hbefore, Hafter, Hlt.
  split; [exact Hin0|]. split; [exact Hbefore|]. split; [exact Hafter|].
  split; [apply Hlt; by vm_compute|exact Hin].
Defined.

(* ===================================================================== *)
(** ** Search *)
(* ===================================================================== *)

Module SearchProofs.
Import Lines Scenario.
Import Storage Invariants.
Section WithParser.
Variable parse : string -> option json.

Lemma collect_matches_spec query lowerQuery lines acc :
  length acc <= 3 ->
  collect_matches parse query lowerQuery lines acc
  = take 3 (acc ++ omap (line_match parse query lowerQuery) lines).
Proof.
  revert acc. induction lines as [|line lines IH]; intros acc Hacc.
  { simpl. rewrite app_nil_r. by rewrite take_ge. }
  cbn [collect_matches]. rewrite TokenProofs.omap_cons_match.
  destruct (Nat.leb_spec 3 (length acc)) as [Hfull|Hroom].
  - assert (length acc = 3) as Hlen by lia.
    by rewrite take_app_length'.
  - destruct (line_match parse query lowerQuery line) as [m|].
    + rewrite IH by (rewrite length_app; simpl; lia).
      by rewrite <- app_assoc.
    + by apply IH.
Qed.

Lemma search_loop_spec fs sessions query maxResults entries results :
  length results <= maxResults ->
  search_loop parse fs (session_map sessions) query (Js.toLowerCase query)
    maxResults entries results
  = take maxResults (results ++ omap (entry_result parse fs sessions query) entries).
Proof.
  revert results. induction entries as [|[sessionId filePath] entries IH];
    intros results Hres.
  { simpl. rewrite app_nil_r. by rewrite take_ge. }
  cbn [search_loop]. rewrite TokenProofs.omap_cons_match.
  destruct (Nat.leb_spec maxResults (length results)) as [Hfull|Hroom].
  - assert (length results = maxResults) as Hlen by lia.
    by rewrite take_app_length'.
  - unfold entry_result at 1, entry_matches. cbn [fst snd].
    destruct (session_map sessions !! sessionId) as [session|]; [|by apply IH].
    destruct (Node.readFile fs filePath) as [content|].
    + rewrite collect_matches_spec by (simpl; lia). cbn [app].
      destruct (0 <? length _).
      * rewrite IH by (rewrite length_app; simpl; lia).
        by rewrite <- app_assoc.
      * by apply IH.
    + cbn. by apply IH.
Qed.

Lemma entry_result_none fs sessions query entry :
  entry_matches parse fs sessions query entry = [] ->
  entry_result parse fs sessions query entry = None.
Proof.
  intros H. unfold entry_result. rewrite H.
  by destruct (session_map sessions !! entry.1).
Qed.

Lemma entry_result_single fs sessions query entry m :
  entry_matches parse fs sessions query entry = [m] ->
  exists r, entry_result parse fs sessions query entry = Some r /\ matches r = [m].
Proof.
  intros H. unfold entry_result. rewrite H.
  unfold entry_matches in H.
  destruct (session_map sessions !! entry.1); [|done]. cbn. eauto.
Qed.

Lemma no_match_no_result fs sessions query entries :
  entries ≫= entry_matches parse fs sessions query = [] ->
  omap (entry_result parse fs sessions query) entries = [].
Proof.
  induction entries as [|e entries IH]; [done|].
  rewrite bind_cons. intros [He Hrest]%app_eq_nil.
  rewrite TokenProofs.omap_cons_match, entry_result_none by done. by apply IH.
Qed.

Lemma one_match_one_result fs sessions query entries :
  length (entries ≫= entry_matches parse fs sessions query) = 1 ->
  exists r, omap (entry_result parse fs sessions query) entries = [r]
            /\ length (matches r) = 1.
Proof.
  induction entries as [|e entries IH]; [done|].
  rewrite bind_cons, length_app. intros Hlen.
  rewrite TokenProofs.omap_cons_match.
  destruct (entry_matches parse fs sessions query e) as [|m [|m' ms]] eqn:He.
  - rewrite entry_result_none by done. apply IH. simpl in Hlen. lia.
  - destruct (entry_result_single _ _ _ _ _ He) as (r & -> & Hr).
    exists r. rewrite no_match_no_result.
    + by rewrite Hr.
    + apply nil_length_inv. simpl in Hlen. lia.
  - simpl in Hlen. lia.
Qed.

Lemma insert_desc_perm {A} (key : A -> Z) x xs :
  Js.insert_desc key x xs ≡ₚ x :: xs.
Proof.
  induction xs as [|y ys IH]; simpl; [done|].
  destruct (key y <=? key x)%Z; [done|]. rewrite IH. apply perm_swap.
Qed.

Lemma sort_desc_perm {A} (key : A -> Z) xs : Js.sort_desc key xs ≡ₚ xs.
Proof.
  induction xs as [|x xs IH]; simpl; [done|].
  unfold Js.sort_desc in *. simpl. by rewrite insert_desc_perm, IH.
Qed.

Lemma entry_result_bounds fs sessions query entry r :
  entry_result parse fs sessions query entry = Some r ->
  1 <= length (matches r) <= 3.
Proof.
  unfold entry_result.
  destruct (session_map sessions !! entry.1); [|done].
  destruct (Nat.ltb_spec 0 (length (take 3 (entry_matches parse fs sessions query entry))))
    as [Hpos|]; [|done].
  intros [= <-]. cbn. split; [lia|]. rewrite length_take. lia.
Qed.

End WithParser.
End SearchProofs.

(** C4, amended. A query of fewer than 2 characters returns no result,
    whatever the stored transcripts; the two-character query [hi] is
    searched like any longer one. A query of at least 2 characters that
    matches (case-insensitively, in the text of a user or assistant
    message) exactly one message of the sessions that are both indexed and
    listed returns, for a result cap of at least 1, exactly one result,
    which carries that one match. In general there are at most
    [maxResults] results and each carries between 1 and 3 matches. On the
    stored transcript the query [hi!] gives one result with one match, and
    the query [h] gives none. *)
Theorem searchSessions_short_query_and_single_match :
  (forall parse fs sessions fileIndex query maxResults,
      String.length query < 2 ->
      Storage.searchSessions parse fs sessions fileIndex query maxResults = [])
  /\ (forall parse fs sessions fileIndex query maxResults,
        2 <= String.length query ->
        1 <= maxResults ->
        length (Lines.all_matches parse fs sessions fileIndex query) = 1 ->
        exists r,
          Storage.searchSessions parse fs sessions fileIndex query maxResults = [r]
          /\ length (Storage.matches r) = 1)
  /\ (forall parse fs sessions fileIndex query maxResults,
        length (Storage.searchSessions parse fs sessions fileIndex query maxResults)
        <= maxResults
        /\ Forall (fun r => 1 <= length (Storage.matches r) <= 3)
             (Storage.searchSessions parse fs sessions fileIndex query maxResults))
  /\ (let found :=
        Storage.searchSessions Json.parse Scenario.one_project
          [Scenario.s1_session] [("s1", Scenario.s1_path)] "hi!"
          Storage.DEFAULT_MAX_RESULTS in
      Storage.sr_sessionId <$> found = ["s1"]
      /\ Storage.matches <$> found
         = [[ {| Storage.text := "Hi! How can I help?";
                 Storage.role := "assistant" |} ]])
  /\ Storage.searchSessions Json.parse Scenario.one_project
       [Scenario.s1_session] [("s1", Scenario.s1_path)] "h"
       Storage.DEFAULT_MAX_RESULTS = [].
Proof.
  split; [|split; [|split; [|split; [vm_compute; by split|by vm_compute]]]].
  - intros parse fs sessions fileIndex query maxResults Hlen.
    unfold Storage.searchSessions.
    destruct (Nat.ltb_spec (String.length query) 2); [|lia].
    by rewrite orb_true_r.
  - intros parse fs sessions fileIndex query maxResults Hlen Hmax Hone.
    unfold Storage.searchSessions.
    destruct (Nat.ltb_spec (String.length query) 2); [lia|].
    assert (Js.truthy_str query = true) as ->
      by (destruct query; [simpl in Hlen; lia|done]).
    cbn [negb orb].
    rewrite SearchProofs.search_loop_spec by (simpl; lia). cbn [app].
    destruct (SearchProofs.one_match_one_result parse fs sessions query fileIndex Hone)
      as (r & -> & Hr).
    exists r. split; [|done].
    rewrite take_ge by (simpl; lia). done.
  - intros parse fs sessions fileIndex query maxResults.
    unfold Storage.searchSessions.
    destruct (negb (Js.truthy_str query) || (String.length query <? 2));
      [split; [simpl; lia|constructor]|].
    rewrite SearchProofs.search_loop_spec by (simpl; lia). cbn [app].
    split.
    + rewrite (Permutation_length (SearchProofs.sort_desc_perm _ _)).
      rewrite length_take. lia.
    + rewrite (SearchProofs.sort_desc_perm Storage.sr_timestamp _).
      apply Forall_take. apply Forall_forall. intros r Hr.
      apply list_elem_of_omap in Hr as (e & _ & He).
      by eapply SearchProofs.entry_result_bounds.
Qed.

(** C4 at the stored transcript: the query [hi!] matches the assistant
    message only. *)
Lemma searchSessions_short_query_and_single_match_witness :
  exists r,
    Storage.searchSessions Json.parse Scenario.one_project
      [Scenario.s1_session] [("s1", Scenario.s1_path)] "hi!" 20 = [r]
    /\ length (Storage.matches r) = 1.
Proof.
  apply (proj1 (proj2 searchSessions_short_query_and_single_match)
           Json.parse Scenario.one_project [Scenario.s1_session]
           [("s1", Scenario.s1_path)] "hi!" 20).
  - vm_compute. lia.
  - lia.
  - vm_compute. reflexivity.
Defined.

(** C4 as the design document words it fails: the query [hi] has 2
    characters, passes the guard [query.length < 2], and returns the
    session whose messages contain it. *)
Lemma search_two_characters_finds_matches :
  String.length "hi" = 2
  /\ (let found :=
        Storage.searchSessions Json.parse Scenario.one_project
          [Scenario.s1_session] [("s1", Scenario.s1_path)] "hi"
          Storage.DEFAULT_MAX_RESULTS in
      Storage.sr_sessionId <$> found = ["s1"]
      /\ Storage.matches <$> found
         = [[ {| Storage.text := "hi there"; Storage.role := "user" |};
              {| Storage.text := "Hi! How can I help?";
                 Storage.role := "assistant" |} ]]).
Proof. vm_compute. by repeat split. Qed.

(* ===================================================================== *)
(** ** Fork reconstruction *)
(* ===================================================================== *)

Module BranchProofs.
Import SessionView Tree Invariants.

Lemma children_of_snoc ms msg u :
  children_of (ms ++ [msg]) u
  = children_of ms u ++ (if decide (parentUuid msg = Some u) then [msg] else []).
Proof.
  unfold children_of. by rewrite filter_app.
Qed.

Lemma index_messages_spec ms :
  (index_messages ms).2 = filter (fun m => parentUuid m = None) ms
  /\ forall u,
      (index_messages ms).1 !! u
      = match children_of ms u with
        | [] => None
        | c :: cs => Some (c :: cs)
        end.
Proof.
  unfold index_messages.
  induction ms as [|msg ms [IHr IHc]] using rev_ind; [done|].
  rewrite foldl_snoc. unfold index_step at 1 3.
  destruct (parentUuid msg) as [p|] eqn:Ep; cbn [fst snd].
  - split.
    + rewrite IHr, filter_app, filter_cons, filter_nil.
      case_decide; [congruence|]. by rewrite app_nil_r.
    + intros u. rewrite children_of_snoc, Ep.
      destruct (decide (p = u)) as [->|Hne].
      * rewrite lookup_insert_eq. rewrite IHc.
        case_decide; [|done].
        by destruct (children_of ms u).
      * rewrite lookup_insert_ne by done. rewrite IHc.
        case_decide; [congruence|]. by rewrite app_nil_r.
  - split.
    + rewrite IHr, filter_app, filter_cons, filter_nil.
      by case_decide.
    + intros u. rewrite children_of_snoc, Ep.
      case_decide; [done|]. rewrite app_nil_r. apply IHc.
Qed.

Lemma next_child_elem choices cur c cs next :
  next_child choices cur (c :: cs) = Some next -> next ∈ c :: cs.
Proof.
  unfold next_child.
  assert (Hlast : forall x, last (c :: cs) = Some x -> x ∈ c :: cs).
  { intros x [l' ->]%last_Some. apply elem_of_app. right. by left. }
  destruct (choice_of choices cur) as [chosen|]; [|by apply Hlast].
  destruct (List.find (has_uuid chosen) (c :: cs)) as [x|] eqn:Ef; [|by apply Hlast].
  intros [= <-]. apply find_some in Ef as [Hin _]. by apply list_elem_of_In.
Qed.

Lemma next_child_some choices cur c cs :
  is_Some (next_child choices cur (c :: cs)).
Proof.
  unfold next_child.
  assert (Hlast : is_Some (last (c :: cs))).
  { destruct (last (c :: cs)) eqn:E; [done|]. by apply last_None in E. }
  destruct (choice_of choices cur); [|done].
  by destruct (List.find _ _).
Qed.

Section Walk.
Variables (messages : list json) (branchChoices : gmap string string).
Variables (depth : string -> nat) (bound : nat).
Hypothesis Hranked : Forall (ranked depth) messages.
Hypothesis Hbound : forall m u, m ∈ messages -> uuid m = Some u -> depth u < bound.

Lemma walk_descends n :
  forall cur chain,
    cur ∈ messages ->
    height depth bound cur <= n ->
    exists path,
      descends messages (cur :: path)
      /\ forall fuel,
          n < fuel ->
          walk fuel (index_messages messages).1 branchChoices cur chain
          = Some (chain ++ cur :: path).
Proof.
  induction n as [|n IH]; intros cur chain Hin Hh.
  - (* height 0: no uuid *)
    unfold height in Hh. destruct (uuid cur) as [u|] eqn:Eu.
    { specialize (Hbound cur u Hin Eu). lia. }
    exists []. split.
    + constructor. unfold is_leaf. by rewrite Eu.
    + intros [|fuel] Hf; [lia|]. cbn [walk]. by rewrite Eu.
  - destruct (uuid cur) as [u|] eqn:Eu.
    2:{ exists []. split.
        + constructor. unfold is_leaf. by rewrite Eu.
        + intros [|fuel] Hf; [lia|]. cbn [walk]. by rewrite Eu. }
    destruct (index_messages_spec messages) as [_ Hc]. specialize (Hc u).
    destruct (children_of messages u) as [|c cs] eqn:Ech.
    { exists []. split.
      + constructor. unfold is_leaf. by rewrite Eu.
      + intros [|fuel] Hf; [lia|]. cbn [walk]. rewrite Eu. cbn. by rewrite Hc. }
    destruct (next_child_some branchChoices cur c cs) as [next Hnext].
    pose proof (next_child_elem _ _ _ _ _ Hnext) as Hel.
    assert (Hch : next ∈ children_of messages u) by (by rewrite Ech).
    pose proof Hch as Hch'. apply list_elem_of_filter in Hch' as [Hpar Hnin].
    assert (Hlt : height depth bound next <= n).
    { unfold height in *. rewrite Eu in Hh.
      pose proof (Hbound cur u Hin Eu).
      destruct (uuid next) as [u'|] eqn:Eu'; [|lia].
      pose proof (Hbound next u' Hnin Eu').
      rewrite Forall_forall in Hranked. specialize (Hranked next Hnin).
      unfold ranked in Hranked. rewrite Hpar, Eu' in Hranked. lia. }
    destruct (IH next (chain ++ [cur]) Hnin Hlt) as (path & Hdesc & Hwalk).
    exists (next :: path). split.
    + by econstructor.
    + intros [|fuel] Hf; [lia|]. cbn [walk]. rewrite Eu. cbn. rewrite Hc, Hnext.
      rewrite Hwalk by lia. by rewrite <- app_assoc.
Qed.

End Walk.


Lemma depth_bound_spec depth messages m u :
  m ∈ messages -> uuid m = Some u -> depth u < depth_bound depth messages.
Proof.
  intros Hin Hu. unfold depth_bound.
  assert (depth u ∈ (fun m => match uuid m with Some u => depth u | None => 0 end)
                     <$> messages).
  { apply list_elem_of_fmap. exists m. by rewrite Hu. }
  apply max_list_elem_of_le in H. lia.
Qed.

(** The walk from a root with children: one step to the selected child,
    then down to a leaf. *)
Lemma buildBranch_through messages branchChoices depth root r c cs next :
  filter (fun m => parentUuid m = None) messages = root :: [] ->
  uuid root = Some r ->
  children_of messages r = c :: cs ->
  next_child branchChoices root (c :: cs) = Some next ->
  Forall (ranked depth) messages ->
  exists rest,
    descends messages (root :: next :: rest)
    /\ forall fuel,
        depth_bound depth messages + 1 < fuel ->
        buildBranch fuel messages branchChoices = Some (root :: next :: rest).
Proof.
  intros Hroots Hr Hch Hnext Hrank.
  destruct (index_messages_spec messages) as [Hroots' Hc].
  pose proof (next_child_elem _ _ _ _ _ Hnext) as Hel. rewrite <- Hch in Hel.
  pose proof Hel as Hel'. apply list_elem_of_filter in Hel' as [_ Hnin].
  set (B := depth_bound depth messages).
  assert (Hh : height depth B next <= B).
  { unfold height. destruct (uuid next); lia. }
  destruct (walk_descends messages branchChoices depth B Hrank
              (depth_bound_spec depth messages) B next [root] Hnin Hh)
    as (rest & Hdesc & Hwalk).
  exists rest. split; [by econstructor|].
  intros fuel Hf. unfold buildBranch.
  destruct messages as [|m0 ms]; [done|].
  destruct (index_messages (m0 :: ms)) as [cm roots] eqn:Ei.
  cbn [fst snd] in *. rewrite Hroots', Hroots.
  destruct fuel as [|fuel]; [lia|]. cbn [walk]. rewrite Hr. cbn.
  rewrite Hc, Hch, Hnext. cbn [app]. rewrite Hwalk by lia. done.
Qed.

Lemma no_root_filter messages :
  Forall (fun m => is_Some (parentUuid m)) messages ->
  filter (fun m => parentUuid m = None) messages = [].
Proof.
  induction 1 as [|m ms [p Hp] _ IH]; [done|].
  rewrite filter_cons. case_decide; [congruence|done].
Qed.

End BranchProofs.

(** C6. Let the messages have exactly one root, with a uuid, and let
    exactly two messages name it as parent, [c1] listed before [c2]; let
    the links be acyclic (some depth grows from every parent to its
    child). With no recorded choice [buildBranch] returns, for every fuel
    above a bound, the same path: it starts with the root, goes to [c2],
    the child listed last, and descends from child to child down to a
    leaf. After the choice of either child of the root has been recorded
    (the two having different uuids), whatever was recorded before, the
    path goes from the root to that child and on down to a leaf. When
    every message has a [parentUuid], and so also on empty input, no root
    exists and the messages are returned as they are, for every fuel. *)
Theorem buildBranch_last_child_choice_and_fallback :
  (forall (messages : list json) (root c1 c2 : json) (r : string)
          (depth : string -> nat),
      filter (fun m => SessionView.parentUuid m = None) messages = [root] ->
      SessionView.uuid root = Some r ->
      Tree.children_of messages r = [c1; c2] ->
      Forall (Tree.ranked depth) messages ->
      (exists rest,
          Tree.descends messages (root :: c2 :: rest)
          /\ forall fuel,
              Tree.depth_bound depth messages + 1 < fuel ->
              SessionView.buildBranch fuel messages ∅
              = Some (root :: c2 :: rest))
      /\ (forall (c : json) (prev : gmap string string),
            c ∈ [c1; c2] ->
            is_Some (SessionView.uuid c) ->
            SessionView.uuid c1 <> SessionView.uuid c2 ->
            exists rest,
              Tree.descends messages (root :: c :: rest)
              /\ forall fuel,
                  Tree.depth_bound depth messages + 1 < fuel ->
                  SessionView.buildBranch fuel messages
                    (SessionView.chooseBranch root c prev)
                  = Some (root :: c :: rest)))
  /\ (forall (messages : list json) (branchChoices : gmap string string)
             (fuel : nat),
        Forall (fun m => is_Some (SessionView.parentUuid m)) messages ->
        SessionView.buildBranch fuel messages branchChoices = Some messages).
Proof.
  split.
  - intros messages root c1 c2 r depth Hroots Hr Hch Hrank. split.
    + apply (BranchProofs.buildBranch_through messages ∅ depth root r c1 [c2] c2);
        try done.
      unfold SessionView.next_child, SessionView.choice_of. rewrite Hr. cbn.
      by rewrite lookup_empty.
    + intros c prev Hc [uc Huc] Hne.
      apply (BranchProofs.buildBranch_through messages _ depth root r c1 [c2] c);
        try done.
      unfold SessionView.next_child, SessionView.choice_of,
        SessionView.chooseBranch.
      rewrite Hr, Huc. cbn. rewrite lookup_insert_eq. cbn.
      assert (Htr : Js.truthy_str uc = true /\ as_string (get "uuid" c) = Some uc).
      { unfold SessionView.uuid, SessionView.truthy_field in Huc.
        destruct (as_string (get "uuid" c)) as [s|]; [|done].
        destruct (Js.truthy_str s) eqn:Es; [|done]. by injection Huc as ->. }
      destruct Htr as [-> Has].
      assert (Hself : SessionView.has_uuid uc c = true).
      { unfold SessionView.has_uuid. rewrite Has. apply String.eqb_refl. }
      apply elem_of_cons in Hc as [->|Hc].
      * by rewrite Hself.
      * apply list_elem_of_singleton in Hc as ->.
        destruct (SessionView.has_uuid uc c1) eqn:E1; [|by rewrite Hself].
        exfalso. apply Hne. rewrite Huc.
        unfold SessionView.has_uuid in E1.
        unfold SessionView.uuid, SessionView.truthy_field in *.
        destruct (as_string (get "uuid" c1)) as [s|]; [|done].
        apply String.eqb_eq in E1 as ->.
        destruct (as_string (get "uuid" c2)) as [s2|]; [|done].
        destruct (Js.truthy_str s2) eqn:E2; [|done].
        injection Huc as ->. by rewrite E2.
  - intros messages branchChoices fuel Hall.
    unfold SessionView.buildBranch. destruct messages as [|m ms]; [done|].
    destruct (BranchProofs.index_messages_spec (m :: ms)) as [Hroots _].
    rewrite (BranchProofs.no_root_filter _ Hall) in Hroots.
    destruct (SessionView.index_messages (m :: ms)) as [cm roots].
    cbn in Hroots. by rewrite Hroots.
Qed.

(** C6 at a root [r] with the branches [a] and [b], where [b] has the
    reply [c]: the default path is [r; b; c], the path after choosing [a]
    is [r; a]; two messages without root are returned as they are. *)
Lemma buildBranch_last_child_choice_and_fallback_witness :
  (exists rest,
      Tree.descends Scenario.fork
        (Scenario.node "r" None :: Scenario.node "b" (Some "r") :: rest)
      /\ forall fuel,
          Tree.depth_bound Scenario.fork_depth Scenario.fork + 1 < fuel ->
          SessionView.buildBranch fuel Scenario.fork ∅
          = Some (Scenario.node "r" None :: Scenario.node "b" (Some "r") :: rest))
  /\ SessionView.buildBranch 5 Scenario.fork ∅
     = Some [Scenario.node "r" None; Scenario.node "b" (Some "r");
             Scenario.node "c" (Some "b")]
  /\ SessionView.buildBranch 5 Scenario.fork
       (SessionView.chooseBranch (Scenario.node "r" None)
          (Scenario.node "a" (Some "r")) ∅)
     = Some [Scenario.node "r" None; Scenario.node "a" (Some "r")]
  /\ SessionView.buildBranch 0 Scenario.orphans ∅ = Some Scenario.orphans.
Proof.
  split; [|by vm_compute].
  apply (proj1 (proj1 buildBranch_last_child_choice_and_fallback
                  Scenario.fork (Scenario.node "r" None)
                  (Scenario.node "a" (Some "r")) (Scenario.node "b" (Some "r"))
                  "r" Scenario.fork_depth
                  eq_refl eq_refl eq_refl
                  ltac:(repeat constructor))).
Defined.

(* ===================================================================== *)
(** ** The change watcher *)
(* ===================================================================== *)

Module WatcherProofs.
Import Watcher Invariants.

Lemma clear_all_lookup (ts : list nat) (m : gmap nat string) t :
  foldr clearTimeout m ts !! t = if decide (t ∈ ts) then None else m !! t.
Proof.
  induction ts as [|t' ts IH]; cbn [foldr].
  - case_decide as Hin; [|done]. by apply not_elem_of_nil in Hin.
  - unfold clearTimeout at 1. destruct (decide (t' = t)) as [->|Hne].
    + rewrite lookup_delete_eq.
      destruct (decide (t ∈ t :: ts)) as [|Hn]; [done|].
      exfalso. apply Hn. by left.
    + rewrite lookup_delete_ne by done. rewrite IH.
      destruct (decide (t ∈ ts)) as [Hin|Hn];
        destruct (decide (t ∈ t' :: ts)) as [Hin'|Hn']; try done.
      * exfalso. apply Hn'. by right.
      * apply elem_of_cons in Hin' as [->|]; done.
Qed.

Lemma consistent_initial : consistent initial.
Proof. split; intros t p; cbn; rewrite ?lookup_empty; [split|]; done. Qed.

Lemma stop_quiet s : consistent s -> quiet (stop s).
Proof.
  intros [Hmaps _]. repeat split. cbn.
  apply map_eq. intros t. rewrite lookup_empty, clear_all_lookup.
  case_decide as Hin; [done|].
  destruct (armed s !! t) as [p|] eqn:Ea; [|done].
  exfalso. apply Hin. apply Hmaps in Ea.
  apply list_elem_of_fmap. exists (p, t). split; [done|].
  by apply elem_of_map_to_list.
Qed.

Lemma quiet_consistent s : quiet s -> consistent s.
Proof.
  intros (_ & Hd & Ha). split; intros t p; rewrite ?Hd, ?Ha, ?lookup_empty;
    [split|]; done.
Qed.

Lemma handleChange_consistent path s :
  consistent s -> consistent (handleChange path s).
Proof.
  intros [Hmaps Hfresh]. unfold handleChange. split; cbn.
  - intros t p.
    assert (Harmed1 : forall t', match debounceTimers s !! path with
                           | Some existing => clearTimeout existing (armed s)
                           | None => armed s
                           end !! t'
                      = if decide (debounceTimers s !! path = Some t')
                        then None else armed s !! t').
    { intros t'. destruct (debounceTimers s !! path) as [ex|] eqn:Ex.
      - unfold clearTimeout. destruct (decide (ex = t')) as [->|Hne].
        + rewrite lookup_delete_eq. by case_decide.
        + rewrite lookup_delete_ne by done. case_decide; [congruence|done].
      - by case_decide. }
    destruct (decide (fresh s = t)) as [<-|Hnt].
    + rewrite lookup_insert_eq.
      destruct (decide (path = p)) as [->|Hnp].
      * by rewrite lookup_insert_eq.
      * rewrite lookup_insert_ne by done. split; [congruence|].
        intros Hd. apply Hmaps, Hfresh in Hd. lia.
    + rewrite lookup_insert_ne by done. rewrite Harmed1.
      destruct (decide (path = p)) as [->|Hnp].
      * rewrite lookup_insert_eq. case_decide as Hex; [split; congruence|].
        split; [|congruence]. intros Ha. apply Hmaps in Ha. congruence.
      * rewrite lookup_insert_ne by done. case_decide as Hex; [|apply Hmaps].
        split; [done|]. intros Hd. apply Hmaps in Hd, Hex. congruence.
  - intros t p Ht. destruct (decide (fresh s = t)) as [<-|Hnt]; [lia|].
    rewrite lookup_insert_ne in Ht by done.
    assert (armed s !! t = Some p).
    { destruct (debounceTimers s !! path); [|done].
      unfold clearTimeout in Ht. by apply lookup_delete_Some in Ht as [_ ?]. }
    apply Hfresh in H. lia.
Qed.

Lemma step_consistent s a : consistent s -> consistent (step s a).
Proof.
  intros Hs. destruct a as [| |path|timer]; cbn.
  - unfold start. by destruct (watcher s).
  - by apply quiet_consistent, stop_quiet.
  - destruct (watcher s); [by apply handleChange_consistent|done].
  - destruct (armed s !! timer) as [path|] eqn:Ea; [|done].
    destruct Hs as [Hmaps Hfresh]. split; cbn.
    + intros t p. destruct (decide (timer = t)) as [->|Hnt].
      * rewrite lookup_delete_eq. split; [done|].
        intros Hd. apply lookup_delete_Some in Hd as [Hne Hd].
        apply Hmaps in Hd. congruence.
      * rewrite lookup_delete_ne by done. rewrite Hmaps. split.
        -- intros Hd. apply lookup_delete_Some. split; [|done].
           intros <-. apply Hmaps in Ea. congruence.
        -- by intros [_ ?]%lookup_delete_Some.
    + intros t p [_ Ht]%lookup_delete_Some. by eapply Hfresh.
Qed.

Lemma run_consistent s trace : consistent s -> consistent (run s trace).
Proof.
  revert s. induction trace as [|a trace IH]; intros s Hs; [done|].
  apply IH. by apply step_consistent.
Qed.



End WatcherProofs.



(** While it runs, the watcher does emit: a burst of two changes of one
    transcript settles into one pair of events, and a change of the
    history log into one event; the same timers, cleared by [stop] before
    their deadline, emit nothing. *)
Example watcher_emits_while_running :
  Watcher.emitted
    (Watcher.run Watcher.initial
       [Watcher.Start; Watcher.FsEvent Scenario.s1_path;
        Watcher.FsEvent Scenario.s1_path;
        Watcher.FsEvent "/home/a/.claude/history.jsonl";
        Watcher.Fire 0; Watcher.Fire 1; Watcher.Fire 2])
  = [Watcher.sessionChange "s1"; Watcher.projectChange "-Users-a-app-x";
     Watcher.historyChange]
  /\ Watcher.emitted
       (Watcher.run Watcher.initial
          [Watcher.Start; Watcher.FsEvent Scenario.s1_path;
           Watcher.FsEvent Scenario.s1_path;
           Watcher.FsEvent "/home/a/.claude/history.jsonl";
           Watcher.Stop;
           Watcher.Fire 0; Watcher.Fire 1; Watcher.Fire 2])
     = [].
Proof. split; by vm_compute. Qed.

Module ProjectNameProofs.
Import Catalog Paths StringFacts.

Lemma split_nonempty sep s : JsText.split sep s <> [].
Proof.
  destruct s as [|c s]; [done|]. cbn [JsText.split].
  destruct (Ascii.eqb c sep); [done|]. by destruct (JsText.split sep s).
Qed.

Lemma join_cons sep x y l :
  Js.join sep (x :: y :: l) = x +:+ sep +:+ Js.join sep (y :: l).
Proof. done. Qed.

Lemma split_join s : Js.join "/" (JsText.split "/" s) = s.
Proof.
  induction s as [|c s IH]; [done|]. cbn [JsText.split].
  pose proof (split_nonempty "/" s) as Hne.
  destruct (Ascii.eqb c "/") eqn:Ec.
  - apply Ascii.eqb_eq in Ec as ->.
    destruct (JsText.split "/" s) as [|p ps]; [done|].
    rewrite join_cons, IH. by rewrite app_empty_l.
  - destruct (JsText.split "/" s) as [|p ps]; [done|].
    destruct ps as [|q ps].
    + cbn [Js.join] in *. by rewrite IH.
    + rewrite join_cons in *. rewrite app_cons. by rewrite IH.
Qed.

Lemma split_no_slash s : Forall (fun p => no_slash p = true) (JsText.split "/" s).
Proof.
  induction s as [|c s IH]; [by repeat constructor|]. cbn [JsText.split].
  destruct (Ascii.eqb c "/") eqn:Ec.
  - by constructor.
  - destruct (JsText.split "/" s) as [|p ps].
    + repeat constructor. cbn. by rewrite Ec.
    + inversion IH as [|? ? Hp Hps]; subst. constructor; [|done].
      cbn. by rewrite Ec.
Qed.

Lemma last_filter {A} (P : A -> Prop) `{!forall x, Decision (P x)} (l : list A) :
  match last (filter P l) with
  | Some x => exists l1 l2, l = l1 ++ x :: l2 /\ P x /\ Forall (fun y => ~ P y) l2
  | None => Forall (fun y => ~ P y) l
  end.
Proof.
  induction l as [|y l IH] using rev_ind; [by constructor|].
  rewrite filter_app, filter_cons, filter_nil.
  destruct (decide (P y)) as [Hy|Hy].
  - rewrite last_snoc. exists l, []. by repeat split.
  - rewrite app_nil_r. destruct (last (filter P l)) as [x|].
    + destruct IH as (l1 & l2 & -> & Hx & Hl2).
      exists l1, (l2 ++ [y]). rewrite <- app_assoc. repeat split; [done|].
      apply Forall_app. split; [done|]. by repeat constructor.
    + apply Forall_app. split; [done|]. by repeat constructor.
Qed.

Lemma join_empties l :
  Forall (fun p => ~ Js.truthy_str p = true) l ->
  Js.join "/" ("" :: l) = slashes (length l).
Proof.
  induction 1 as [|p l Hp _ IH]; [done|].
  assert (p = "") as -> by (by destruct p).
  rewrite join_cons, app_empty_l. cbn [length slashes]. by rewrite <- IH.
Qed.

Lemma join_last x l :
  Forall (fun p => ~ Js.truthy_str p = true) l ->
  Js.join "/" (x :: l) = x +:+ slashes (length l).
Proof.
  intros Hl. destruct l as [|p l]; [by rewrite app_empty_r|].
  rewrite join_cons. f_equal.
  inversion Hl as [|? ? Hp Hl']; subst.
  assert (p = "") as -> by (by destruct p).
  by rewrite <- join_empties.
Qed.

Lemma join_app_cons l1 x l2 :
  exists pre,
    Js.join "/" (l1 ++ x :: l2) = pre +:+ Js.join "/" (x :: l2)
    /\ (pre = "" \/ exists pre', pre = pre' +:+ "/").
Proof.
  induction l1 as [|a l1 (pre & IH & Hpre)].
  - exists "". by split; [|left].
  - exists (a +:+ "/" +:+ pre). split.
    + cbn [app]. destruct (l1 ++ x :: l2) as [|b l] eqn:El.
      { by destruct l1. }
      rewrite join_cons, IH. by rewrite !app_assoc_s.
    + right. destruct Hpre as [->|[pre' ->]].
      * exists a. by rewrite app_empty_r.
      * exists (a +:+ "/" +:+ pre'). by rewrite !app_assoc_s.
Qed.

End ProjectNameProofs.

(** X1. [getProjectName] returns the last component of the path that is
    not empty, separators after it being ignored: the path is some prefix
    that is empty or ends with a separator, then the name, which is not
    empty and holds no separator, then separators only. A path made of
    separators only, the empty path included, is returned as it is. *)
Theorem getProjectName_last_component (path : string) :
  (exists k, path = Paths.slashes k /\ Catalog.getProjectName path = path)
  \/ (exists pre k,
        path = pre +:+ Catalog.getProjectName path +:+ Paths.slashes k
        /\ Catalog.getProjectName path <> ""
        /\ Paths.no_slash (Catalog.getProjectName path) = true
        /\ (pre = "" \/ exists pre', pre = pre' +:+ "/")).
Proof.
  unfold Catalog.getProjectName.
  pose proof (ProjectNameProofs.split_join path) as Hjoin.
  pose proof (ProjectNameProofs.split_no_slash path) as Hns.
  pose proof (ProjectNameProofs.split_nonempty "/" path) as Hne.
  pose proof (ProjectNameProofs.last_filter
                (fun p => Js.truthy_str p = true) (JsText.split "/" path)) as Hlast.
  destruct (last _) as [name|].
  - right. destruct Hlast as (l1 & l2 & Hsplit & Hname & Hl2).
    rewrite Hname.
    destruct (ProjectNameProofs.join_app_cons l1 name l2) as (pre & Hpre & Hshape).
    exists pre, (length l2). repeat split; [| |  |done].
    + rewrite <- Hjoin at 1. rewrite Hsplit, Hpre.
      by rewrite ProjectNameProofs.join_last.
    + by destruct name.
    + rewrite Hsplit in Hns. apply Forall_app in Hns as [_ Hns].
      by inversion Hns.
  - left. destruct (JsText.split "/" path) as [|p l]; [done|].
    inversion Hlast as [|? ? Hp Hl]; subst.
    assert (p = "") as -> by (by destruct p).
    exists (length l). split; [|done].
    by rewrite <- ProjectNameProofs.join_empties.
Qed.

Module IndexProofs.
Import Storage Catalog Paths StringFacts.

Lemma index_get_set k v idx : index_get k (index_set k v idx) = Some v.
Proof.
  induction idx as [|[k' v'] idx IH]; cbn.
  - by rewrite String.eqb_refl.
  - destruct (String.eqb k k') eqn:E; cbn; rewrite ?String.eqb_refl, ?E; done.
Qed.

Lemma index_get_set_ne k k' v idx :
  k <> k' -> index_get k' (index_set k v idx) = index_get k' idx.
Proof.
  intros Hne. induction idx as [|[k0 v0] idx IH]; cbn.
  - destruct (String.eqb k' k) eqn:E; [|done].
    apply String.eqb_eq in E. congruence.
  - destruct (String.eqb k k0) eqn:E; cbn.
    + apply String.eqb_eq in E as <-.
      destruct (String.eqb k' k) eqn:E'; [|done].
      apply String.eqb_eq in E'. congruence.
    + by rewrite IH.
Qed.

Lemma path_join_truthy dir name : Js.truthy_str (Js.path_join dir name) = true.
Proof.
  unfold Js.path_join. destruct dir as [|c dir]; by rewrite ?app_empty_l, ?app_cons.
Qed.

Lemma existsb_eqb_elem (t : string) files :
  existsb (String.eqb t) files = bool_decide (t ∈ files).
Proof.
  induction files as [|f files IH]; [done|]. cbn [existsb]. rewrite IH.
  destruct (String.eqb t f) eqn:E.
  - apply String.eqb_eq in E as <-. symmetry. apply bool_decide_eq_true. by left.
  - rewrite String.eqb_neq in E. cbn.
    apply bool_decide_ext. rewrite elem_of_cons. tauto.
Qed.

Lemma scan_dir_holds fs projectsDir target dir :
  scan_dir fs projectsDir target dir
  = if holds fs projectsDir target dir
    then Some (entry_path projectsDir dir target) else None.
Proof.
  unfold scan_dir, holds, entry_path.
  destruct (Node.readdir fs _) as [files|]; [|done].
  by rewrite existsb_eqb_elem.
Qed.

Lemma find_scan fs projectsDir target dirs :
  List.find (fun r : option string => match r with Some _ => true | None => false end)
    (map (scan_dir fs projectsDir target) dirs)
  = (fun dir => Some (entry_path projectsDir dir target))
      <$> List.find (holds fs projectsDir target) dirs.
Proof.
  induction dirs as [|d dirs IH]; [done|]. cbn [map List.find].
  rewrite scan_dir_holds. by destruct (holds fs projectsDir target d).
Qed.

(** [findSessionFile] in one equation. *)
Lemma findSessionFile_spec fs projectsDir fileIndex sessionId :
  findSessionFile fs projectsDir fileIndex sessionId
  = match index_get sessionId fileIndex with
    | Some filePath => (Some filePath, fileIndex)
    | None =>
        match List.find (holds fs projectsDir (sessionId +:+ ".jsonl"))
                (directories fs projectsDir) with
        | Some dir =>
            let filePath := entry_path projectsDir dir (sessionId +:+ ".jsonl") in
            (Some filePath, index_set sessionId filePath fileIndex)
        | None => (None, fileIndex)
        end
    end.
Proof.
  unfold findSessionFile, directories.
  destruct (index_get sessionId fileIndex); [done|].
  destruct (Node.readdirTypes fs projectsDir) as [dirs|]; [|done].
  rewrite find_scan.
  destruct (List.find _ _) as [dir|]; [|done]. cbn.
  unfold entry_path. by rewrite path_join_truthy.
Qed.

(** The file index only grows, and what [index_file] adds is a [.jsonl]
    entry under its base name. *)
Lemma index_set_is_Some k v k' idx :
  is_Some (index_get k' idx) -> is_Some (index_get k' (index_set k v idx)).
Proof.
  intros H. destruct (decide (k = k')) as [->|Hne].
  - rewrite index_get_set. by eexists.
  - by rewrite index_get_set_ne.
Qed.

Lemma index_files_grow projectPath files idx k :
  is_Some (index_get k idx) ->
  is_Some (index_get k (foldl (index_file projectPath) idx files)).
Proof.
  revert idx. induction files as [|f files IH]; intros idx H; [done|].
  cbn [foldl]. apply IH. unfold index_file.
  destruct (Js.endsWith ".jsonl" f); [|done]. by apply index_set_is_Some.
Qed.

Lemma index_files_complete projectPath files idx file :
  file ∈ files ->
  Js.endsWith ".jsonl" file = true ->
  is_Some (index_get (Js.basename_ext file ".jsonl")
             (foldl (index_file projectPath) idx files)).
Proof.
  revert idx. induction files as [|f files IH]; intros idx Hin Hend.
  { by apply elem_of_nil in Hin. }
  cbn [foldl]. apply elem_of_cons in Hin as [<-|Hin].
  - apply index_files_grow. unfold index_file. rewrite Hend.
    rewrite index_get_set. by eexists.
  - by apply IH.
Qed.

Lemma index_files_sound projectPath files idx k p :
  index_get k (foldl (index_file projectPath) idx files) = Some p ->
  index_get k idx = Some p
  \/ exists file,
       file ∈ files /\ Js.endsWith ".jsonl" file = true
       /\ k = Js.basename_ext file ".jsonl"
       /\ p = Js.path_join projectPath file.
Proof.
  revert idx. induction files as [|f files IH]; intros idx H; [by left|].
  cbn [foldl] in H. apply IH in H as [H|(file & Hin & ?)].
  - unfold index_file in H. destruct (Js.endsWith ".jsonl" f) eqn:Hend; [|by left].
    destruct (decide (Js.basename_ext f ".jsonl" = k)) as [<-|Hne].
    + rewrite index_get_set in H. injection H as <-.
      right. exists f. repeat split; [by left|done].
    + rewrite index_get_set_ne in H by done. by left.
  - right. exists file. split; [by right|done].
Qed.

Lemma index_directories_grow fs projectsDir dirs idx k :
  is_Some (index_get k idx) ->
  is_Some (index_get k (buildFileIndex fs projectsDir dirs idx)).
Proof.
  unfold buildFileIndex. revert idx.
  induction dirs as [|d dirs IH]; intros idx H; [done|].
  cbn [foldl]. apply IH. unfold index_directory.
  destruct (Node.readdir fs _); [|done]. by apply index_files_grow.
Qed.

Lemma buildFileIndex_complete fs projectsDir dirs idx dir files file :
  dir ∈ dirs ->
  Node.readdir fs (Js.path_join projectsDir (Node.name dir)) = Some files ->
  file ∈ files ->
  Js.endsWith ".jsonl" file = true ->
  is_Some (index_get (Js.basename_ext file ".jsonl")
             (buildFileIndex fs projectsDir dirs idx)).
Proof.
  revert idx. induction dirs as [|d dirs IH]; intros idx Hin Hls Hf Hend.
  { by apply elem_of_nil in Hin. }
  apply elem_of_cons in Hin as [<-|Hin].
  - unfold buildFileIndex. cbn [foldl].
    apply (index_directories_grow fs projectsDir dirs).
    unfold index_directory. rewrite Hls. by apply index_files_complete.
  - unfold buildFileIndex. cbn [foldl]. by apply IH.
Qed.

Lemma buildFileIndex_sound fs projectsDir dirs idx k p :
  index_get k (buildFileIndex fs projectsDir dirs idx) = Some p ->
  index_get k idx = Some p
  \/ exists dir files file,
       dir ∈ dirs
       /\ Node.readdir fs (Js.path_join projectsDir (Node.name dir)) = Some files
       /\ file ∈ files /\ Js.endsWith ".jsonl" file = true
       /\ k = Js.basename_ext file ".jsonl"
       /\ p = entry_path projectsDir dir file.
Proof.
  unfold buildFileIndex. revert idx.
  induction dirs as [|d dirs IH]; intros idx H; [by left|].
  cbn [foldl] in H. apply IH in H as [H|(dir & files & file & Hin & ?)].
  - unfold index_directory in H.
    destruct (Node.readdir fs _) as [files|] eqn:Hls; [|by left].
    apply index_files_sound in H as [H|(file & Hin & Hend & -> & ->)]; [by left|].
    right. exists d, files, file. repeat split; [by left|done..].
  - right. exists dir, files, file. split; [by right|done].
Qed.

End IndexProofs.

(** X2. [findSessionFile] answers from the file index when the session is
    indexed, without a look at the disk and without a change of the index.
    Otherwise it returns the path of [<sessionId>.jsonl] in the first
    directory of [projectsDir], in listing order, that can be listed and
    holds such an entry, and records it in the index; entries of
    [projectsDir] that are not directories and directories that cannot be
    listed are passed over; when no directory holds the file, or
    [projectsDir] cannot be listed, nothing is found and the index stays
    as it is. *)
Theorem findSessionFile_index_then_first_directory
    (fs : Node.FileSystem) (projectsDir : string)
    (fileIndex : list (string * string)) (sessionId : string) :
  Storage.findSessionFile fs projectsDir fileIndex sessionId
  = match Storage.index_get sessionId fileIndex with
    | Some filePath => (Some filePath, fileIndex)
    | None =>
        match List.find (Paths.holds fs projectsDir (sessionId +:+ ".jsonl"))
                (Catalog.directories fs projectsDir) with
        | Some dir =>
            let filePath :=
              Paths.entry_path projectsDir dir (sessionId +:+ ".jsonl") in
            (Some filePath, Storage.index_set sessionId filePath fileIndex)
        | None => (None, fileIndex)
        end
    end.
Proof. apply IndexProofs.findSessionFile_spec. Qed.

(** X3. The file index is a cache that is never checked against the disk.
    After [addToFileIndex(s, p)] the lookup of [s] gives [p] on every file
    system and leaves the index as it is, and the lookup of another
    session gives what it gave before. A path that [findSessionFile] has
    once returned is returned again, with the index unchanged, whatever
    has happened to the files since. A lookup that finds nothing leaves
    the index as it was. *)
Theorem findSessionFile_cached :
  (forall fs projectsDir fileIndex s p,
      Storage.findSessionFile fs projectsDir
        (Catalog.addToFileIndex s p fileIndex) s
      = (Some p, Catalog.addToFileIndex s p fileIndex))
  /\ (forall fs projectsDir fileIndex s p s',
        s <> s' ->
        (Storage.findSessionFile fs projectsDir
           (Catalog.addToFileIndex s p fileIndex) s').1
        = (Storage.findSessionFile fs projectsDir fileIndex s').1)
  /\ (forall fs fs' projectsDir fileIndex fileIndex' s p,
        Storage.findSessionFile fs projectsDir fileIndex s = (Some p, fileIndex') ->
        Storage.findSessionFile fs' projectsDir fileIndex' s = (Some p, fileIndex'))
  /\ (forall fs projectsDir fileIndex fileIndex' s,
        Storage.findSessionFile fs projectsDir fileIndex s = (None, fileIndex') ->
        fileIndex' = fileIndex).
Proof.
  repeat split.
  - intros. rewrite IndexProofs.findSessionFile_spec. unfold Catalog.addToFileIndex.
    by rewrite IndexProofs.index_get_set.
  - intros fs projectsDir fileIndex s p s' Hne.
    rewrite !IndexProofs.findSessionFile_spec. unfold Catalog.addToFileIndex.
    rewrite IndexProofs.index_get_set_ne by done.
    destruct (Storage.index_get s' fileIndex); [done|].
    by destruct (List.find _ _).
  - intros fs fs' projectsDir fileIndex fileIndex' s p.
    rewrite !IndexProofs.findSessionFile_spec.
    destruct (Storage.index_get s fileIndex) as [q|] eqn:Hq.
    + intros [= -> <-]. by rewrite Hq.
    + destruct (List.find _ _) as [dir|]; [|done]. cbn.
      intros [= <- <-]. by rewrite IndexProofs.index_get_set.
  - intros fs projectsDir fileIndex fileIndex' s.
    rewrite IndexProofs.findSessionFile_spec.
    destruct (Storage.index_get s fileIndex); [done|].
    destruct (List.find _ _); [done|]. by intros [= <-].
Qed.

(** X3 on the store with one project: the session [s1] is found by a scan,
    and found again, at the same path, on a store where nothing can be
    read; the session [s2] is not found and the index stays empty; after
    [addToFileIndex] a session resolves to the given path. *)
Lemma findSessionFile_cached_witness :
  Storage.findSessionFile Scenario.two_sessions Scenario.projectsDir
    [("s1", Scenario.s1_path)] "s1"
  = (Some Scenario.s1_path, [("s1", Scenario.s1_path)])
  /\ (Storage.findSessionFile Scenario.one_project Scenario.projectsDir
        (Catalog.addToFileIndex "s1" "/tmp/x.jsonl" []) "s2").1
     = (Storage.findSessionFile Scenario.one_project Scenario.projectsDir [] "s2").1.
Proof.
  split.
  - apply (proj1 (proj2 (proj2 findSessionFile_cached))
             Scenario.one_project Scenario.two_sessions Scenario.projectsDir
             [] [("s1", Scenario.s1_path)] "s1" Scenario.s1_path).
    vm_compute. reflexivity.
  - apply (proj1 (proj2 findSessionFile_cached)). vm_compute. discriminate.
Defined.

(** X4. [buildFileIndex] on an empty index, whatever the order in which
    the listings of the project directories arrive: every [.jsonl] entry
    of a directory that can be listed is indexed, under its base name
    without the extension; every entry of the index is the path of such a
    file under its own base name; hence a session id that only one file
    bears is indexed at that file, in every order of arrival. *)
Theorem buildFileIndex_sound_and_complete
    (fs : Node.FileSystem) (projectsDir : string) (settled : list Node.Dirent) :
  settled ≡ₚ Catalog.directories fs projectsDir ->
  let fileIndex := Catalog.buildFileIndex fs projectsDir settled [] in
  let indexed dir file :=
    dir ∈ Catalog.directories fs projectsDir
    /\ (exists files,
          Node.readdir fs (Js.path_join projectsDir (Node.name dir)) = Some files
          /\ file ∈ files)
    /\ Js.endsWith ".jsonl" file = true in
  (forall dir file,
      indexed dir file ->
      is_Some (Storage.index_get (Js.basename_ext file ".jsonl") fileIndex))
  /\ (forall sessionId filePath,
        Storage.index_get sessionId fileIndex = Some filePath ->
        exists dir file,
          indexed dir file
          /\ sessionId = Js.basename_ext file ".jsonl"
          /\ filePath = Paths.entry_path projectsDir dir file)
  /\ (forall dir file,
        indexed dir file ->
        (forall dir' file',
            indexed dir' file' ->
            Js.basename_ext file' ".jsonl" = Js.basename_ext file ".jsonl" ->
            dir' = dir /\ file' = file) ->
        Storage.index_get (Js.basename_ext file ".jsonl") fileIndex
        = Some (Paths.entry_path projectsDir dir file)).
Proof.
  intros Hperm fileIndex indexed.
  assert (Hcomplete : forall dir file,
             indexed dir file ->
             is_Some (Storage.index_get (Js.basename_ext file ".jsonl") fileIndex)).
  { intros dir file (Hdir & (files & Hls & Hin) & Hend).
    apply (IndexProofs.buildFileIndex_complete fs projectsDir settled [] dir files);
      [by rewrite Hperm|done..]. }
  assert (Hsound : forall sessionId filePath,
             Storage.index_get sessionId fileIndex = Some filePath ->
             exists dir file,
               indexed dir file
               /\ sessionId = Js.basename_ext file ".jsonl"
               /\ filePath = Paths.entry_path projectsDir dir file).
  { intros sessionId filePath H.
    apply IndexProofs.buildFileIndex_sound in H
      as [H|(dir & files & file & Hdir & Hls & Hin & Hend & -> & ->)]; [done|].
    exists dir, file. repeat split; [by rewrite <- Hperm|by exists files|done]. }
  repeat split; [done|done|].
  intros dir file Hidx Huniq.
  destruct (Hcomplete dir file Hidx) as [p Hp]. rewrite Hp.
  destruct (Hsound _ _ Hp) as (dir' & file' & Hidx' & Heq & ->).
  destruct (Huniq dir' file' Hidx' (eq_sym Heq)) as [-> ->]. done.
Qed.

(** X4 on the store with one project, its only directory listed: the
    transcript of [s1] is indexed at its path. *)
Lemma buildFileIndex_sound_and_complete_witness :
  is_Some (Storage.index_get "s1"
             (Catalog.buildFileIndex Scenario.one_project Scenario.projectsDir
                [ {| Node.name := "-Users-a-app-x"; Node.isDirectory := true |} ]
                [])).
Proof.
  pose proof (buildFileIndex_sound_and_complete Scenario.one_project
                Scenario.projectsDir
                [ {| Node.name := "-Users-a-app-x"; Node.isDirectory := true |} ])
    as H.
  destruct H as [Hcomplete _]; [vm_compute; reflexivity|].
  apply (Hcomplete {| Node.name := "-Users-a-app-x"; Node.isDirectory := true |}
           "s1.jsonl").
  repeat split.
  - vm_compute. by left.
  - exists ["s1.jsonl"; "gone.jsonl"]. split; [vm_compute; reflexivity|by left].
Defined.

Module SortProofs.
Section Desc.
Context {A : Type} (key : A -> Z).

Let desc (a b : A) : Prop := (key b <= key a)%Z.

Lemma insert_desc_elem x y xs : y ∈ Js.insert_desc key x xs <-> y = x \/ y ∈ xs.
Proof.
  induction xs as [|z xs IH]; cbn [Js.insert_desc].
  - rewrite list_elem_of_singleton, elem_of_nil. tauto.
  - destruct (key z <=? key x)%Z.
    + by rewrite elem_of_cons.
    + rewrite !elem_of_cons, IH. tauto.
Qed.

Lemma insert_desc_sorted x xs :
  StronglySorted desc xs -> StronglySorted desc (Js.insert_desc key x xs).
Proof.
  induction 1 as [|y ys Hys IH Hy]; cbn [Js.insert_desc].
  - by repeat constructor.
  - destruct (key y <=? key x)%Z eqn:E.
    + apply Z.leb_le in E. constructor; [by constructor|].
      constructor; [done|].
      eapply Forall_impl; [exact Hy|]. unfold desc. intros z Hz. lia.
    + apply Z.leb_gt in E. constructor; [done|].
      apply Forall_forall. intros z Hz. apply insert_desc_elem in Hz as [->|Hz].
      * unfold desc. lia.
      * rewrite Forall_forall in Hy. by apply Hy.
Qed.

Lemma sort_desc_sorted xs : StronglySorted desc (Js.sort_desc key xs).
Proof.
  induction xs as [|x xs IH]; [constructor|]. by apply insert_desc_sorted.
Qed.

Lemma insert_desc_filter (P : A -> Prop) `{!forall a, Decision (P a)} x xs :
  StronglySorted desc xs ->
  filter P (Js.insert_desc key x xs)
  = if decide (P x) then Js.insert_desc key x (filter P xs) else filter P xs.
Proof.
  induction 1 as [|y ys Hys IH Hy]; cbn [Js.insert_desc].
  - rewrite filter_cons, filter_nil. by destruct (decide (P x)).
  - destruct (key y <=? key x)%Z eqn:E.
    + rewrite filter_cons. destruct (decide (P x)); [|done].
      destruct (filter P (y :: ys)) as [|z zs] eqn:Ef; [done|].
      cbn [Js.insert_desc].
      assert (Hz : z ∈ y :: ys).
      { assert (z ∈ filter P (y :: ys)) as Hin by (rewrite Ef; by left).
        by apply list_elem_of_filter in Hin as [_ ?]. }
      assert (key z <= key x)%Z as ->%Z.leb_le; [|done].
      apply Z.leb_le in E.
      apply elem_of_cons in Hz as [->|Hz]; [done|].
      rewrite Forall_forall in Hy. specialize (Hy z Hz). unfold desc in Hy. lia.
    + rewrite (filter_cons _ y), IH. rewrite (filter_cons _ y ys).
      destruct (decide (P y)); [|done].
      destruct (decide (P x)); [|done].
      cbn [Js.insert_desc]. by rewrite E.
Qed.

Lemma sort_desc_filter (P : A -> Prop) `{!forall a, Decision (P a)} xs :
  filter P (Js.sort_desc key xs) = Js.sort_desc key (filter P xs).
Proof.
  induction xs as [|x xs IH]; [done|].
  unfold Js.sort_desc in *. cbn [foldr].
  rewrite insert_desc_filter by apply sort_desc_sorted.
  rewrite filter_cons. destruct (decide (P x)); [|done].
  cbn [foldr]. by rewrite IH.
Qed.

End Desc.
End SortProofs.

Module SessionListProofs.
Import Storage Catalog.

Lemma truthy_str_ne s : Js.truthy_str s = true <-> s <> "".
Proof. by destruct s. Qed.

Section Loop.
Variables (fs : Node.FileSystem) (projectsDir : string).
Variable archivedSessions : gset string.
Variable includeArchived : bool.

Let step := sessions_step fs projectsDir archivedSessions includeArchived.

(** The session [getSessions] makes of an entry that resolves to [sid],
    before its first timestamp is filled in. *)
Definition session_of (entry : HistoryEntry) (sid : string) : Session :=
  {| id := sid;
     display := he_display entry;
     timestamp := he_timestamp entry;
     firstTimestamp := None;
     project := he_project entry;
     projectName := getProjectName (he_project entry);
     archived := isArchived archivedSessions sid |}.

Definition listed (sid : string) : Prop :=
  includeArchived = true \/ sid ∉ archivedSessions.

Lemma step_spec st entry :
  step st entry
  = match resolveSessionId fs projectsDir entry with
    | Some sid =>
        if decide (sid <> "" /\ (sid ∉ st.2) /\ listed sid)
        then (st.1 ++ [session_of entry sid], {[sid]} ∪ st.2)
        else st
    | None => st
    end.
Proof.
  unfold step, sessions_step, listed, session_of, isArchived.
  destruct (resolveSessionId fs projectsDir entry) as [sid|]; [|done].
  destruct sid as [|c sid]; cbn [Js.truthy_str Js.is_empty negb orb].
  { rewrite decide_False; [done|]. by intros [? _]. }
  destruct (decide (String c sid ∈ st.2)) as [Hs|Hs].
  { rewrite bool_decide_eq_true_2 by done. rewrite decide_False; [done|].
    by intros (_ & ? & _). }
  rewrite bool_decide_eq_false_2 by done.
  destruct (decide (String c sid ∈ archivedSessions)) as [Ha|Ha].
  - rewrite bool_decide_eq_true_2 by done. destruct includeArchived; cbn.
    + rewrite decide_True; [done|]. repeat split; [done|done|by left].
    + rewrite decide_False; [done|]. intros (_ & _ & [?|?]); done.
  - rewrite bool_decide_eq_false_2 by done. cbn.
    rewrite decide_True; [done|]. repeat split; [done|done|by right].
Qed.

(** What the loop holds after a prefix of the entries. *)
Definition loop_inv (pre : list HistoryEntry) (st : list Session * gset string)
  : Prop :=
  NoDup (id <$> st.1)
  /\ (forall sid, sid ∈ st.2 <-> sid ∈ id <$> st.1)
  /\ (forall s, s ∈ st.1 ->
        exists i entry,
          pre !! i = Some entry
          /\ resolveSessionId fs projectsDir entry = Some (id s)
          /\ id s <> ""
          /\ s = session_of entry (id s)
          /\ listed (id s)
          /\ forall j entry',
              j < i -> pre !! j = Some entry' ->
              resolveSessionId fs projectsDir entry' <> Some (id s))
  /\ (forall entry sid,
        entry ∈ pre ->
        resolveSessionId fs projectsDir entry = Some sid ->
        sid <> "" -> listed sid -> sid ∈ st.2).

Lemma loop_invariant entries : loop_inv entries (foldl step ([], ∅) entries).
Proof.
  induction entries as [|entry pre IH] using rev_ind.
  { split; [constructor|]. split; [|split].
    - intros sid. cbn. rewrite elem_of_empty, elem_of_nil. tauto.
    - by intros s ?%elem_of_nil.
    - by intros ? ? ?%elem_of_nil. }
  rewrite foldl_snoc, step_spec.
  destruct IH as (Hnd & Hseen & Hfirst & Hall).
  set (st := foldl step ([], ∅) pre) in *.
  assert (Hkeep : forall s, s ∈ st.1 ->
            exists i entry0,
              (pre ++ [entry]) !! i = Some entry0
              /\ resolveSessionId fs projectsDir entry0 = Some (id s)
              /\ id s <> ""
              /\ s = session_of entry0 (id s)
              /\ listed (id s)
              /\ forall j entry',
                  j < i -> (pre ++ [entry]) !! j = Some entry' ->
                  resolveSessionId fs projectsDir entry' <> Some (id s)).
  { intros s Hs. destruct (Hfirst s Hs) as (i & e & Hi & Hr & Hne & Hs' & Hl & Hj).
    exists i, e. pose proof (lookup_lt_Some _ _ _ Hi) as Hlt.
    repeat split; [by rewrite lookup_app_l|done..|].
    intros j e' Hji Hje'. rewrite lookup_app_l in Hje' by lia. by eapply Hj. }
  destruct (resolveSessionId fs projectsDir entry) as [sid|] eqn:Hres.
  2:{ split; [done|]. split; [done|]. split; [done|].
      intros e s [He|He]%elem_of_app Hr Hne Hl; [by eapply Hall|].
      apply list_elem_of_singleton in He as ->. congruence. }
  destruct (decide _) as [(Hne & Hnew & Hl)|Hskip].
  - unfold loop_inv. cbn [fst snd]. split; [|split; [|split]].
    + rewrite fmap_app. cbn. apply NoDup_app. repeat split; [done| |].
      * intros x Hx ->%list_elem_of_singleton. apply Hnew. by apply Hseen.
      * apply NoDup_singleton.
    + intros x. rewrite fmap_app, elem_of_union, elem_of_singleton, elem_of_app.
      cbn. rewrite list_elem_of_singleton, Hseen. tauto.
    + intros s [Hs|Hs]%elem_of_app; [by apply Hkeep|].
      apply list_elem_of_singleton in Hs as ->. cbn [id session_of].
      exists (length pre), entry. repeat split; [|done..|].
      * by rewrite lookup_app_r, Nat.sub_diag.
      * intros j e' Hj He' Hr. rewrite lookup_app_l in He' by done.
        apply Hnew. eapply Hall; [|done..]. by eapply list_elem_of_lookup_2.
    + intros e s [He|He]%elem_of_app Hr Hne' Hl'.
      * apply elem_of_union. right. by eapply Hall.
      * apply list_elem_of_singleton in He as ->.
        apply elem_of_union. left. apply elem_of_singleton. congruence.
  - split; [done|]. split; [done|]. split; [done|].
    intros e s [He|He]%elem_of_app Hr Hne Hl; [by eapply Hall|].
    apply list_elem_of_singleton in He as ->.
    assert (s = sid) as -> by congruence.
    destruct (decide (sid ∈ st.2)); [done|]. by destruct Hskip.
Qed.

End Loop.

(** The loop that hides the archived sessions keeps what the loop that
    shows them keeps, less the archived ones. *)
Lemma hide_archived fs projectsDir archivedSessions entries :
  let shown := foldl (sessions_step fs projectsDir archivedSessions true)
                 ([], ∅) entries in
  let hidden := foldl (sessions_step fs projectsDir archivedSessions false)
                  ([], ∅) entries in
  hidden.1 = filter (fun s => archived s = false) shown.1
  /\ (forall sid, sid ∈ hidden.2 <-> sid ∈ shown.2 /\ sid ∉ archivedSessions)
  /\ Forall (fun s => archived s = isArchived archivedSessions (id s)) shown.1.
Proof.
  induction entries as [|entry pre IH] using rev_ind.
  { cbn. split; [done|]. split; [|constructor].
    intros sid. rewrite elem_of_empty. tauto. }
  cbn zeta in *. rewrite !foldl_snoc, !step_spec.
  destruct IH as (Hs & Hseen & Harch).
  set (shown := foldl (sessions_step fs projectsDir archivedSessions true) _ pre) in *.
  set (hidden := foldl (sessions_step fs projectsDir archivedSessions false) _ pre) in *.
  destruct (resolveSessionId fs projectsDir entry) as [sid|]; [|done].
  unfold listed.
  destruct (decide (sid <> "" /\ (sid ∉ shown.2)
                    /\ (true = true \/ sid ∉ archivedSessions)))
    as [(Hne & Hnew & _)|Hskip].
  - destruct (decide (sid ∈ archivedSessions)) as [Ha|Ha].
    + rewrite decide_False.
      2:{ intros (_ & _ & [?|?]); done. }
      cbn [fst snd]. split; [|split].
      * rewrite filter_app, filter_cons, filter_nil. cbn [archived session_of].
        unfold isArchived. rewrite bool_decide_eq_true_2 by done.
        rewrite decide_False by done. by rewrite app_nil_r.
      * intros x. rewrite Hseen, elem_of_union, elem_of_singleton.
        split; [tauto|]. intros [[->|?] ?]; [done|tauto].
      * apply Forall_app. split; [done|]. by repeat constructor.
    + rewrite decide_True.
      2:{ split; [done|]. split; [|by right]. rewrite Hseen. tauto. }
      cbn [fst snd]. split; [|split].
      * rewrite filter_app, filter_cons, filter_nil. cbn [archived session_of].
        unfold isArchived. rewrite bool_decide_eq_false_2 by done.
        rewrite decide_True by done. by rewrite Hs.
      * intros x. rewrite !elem_of_union, !elem_of_singleton, Hseen.
        split; [intros [->|?]; tauto|tauto].
      * apply Forall_app. split; [done|]. by repeat constructor.
  - rewrite decide_False; [done|].
    intros (Hne & Hnew & Hl). apply Hskip. split; [done|]. split; [|by left].
    intros Hin. destruct Hl as [?|Ha]; [done|]. apply Hnew, Hseen. tauto.
Qed.

End SessionListProofs.

Module SessionListFacts.
Import Storage Catalog SessionListProofs.

Lemma filter_fmap_archived (f : Session -> Session) (l : list Session) :
  (forall s, archived (f s) = archived s) ->
  filter (fun s => archived s = false) (f <$> l)
  = f <$> filter (fun s => archived s = false) l.
Proof.
  intros Hf. induction l as [|s l IH]; [done|].
  rewrite fmap_cons, !filter_cons, Hf, IH. by destruct (decide _).
Qed.

Lemma elem_of_sort_desc {A} (key : A -> Z) x l :
  x ∈ Js.sort_desc key l <-> x ∈ l.
Proof. by rewrite (SearchProofs.sort_desc_perm key l). Qed.

(** A session of the list without archived sessions is not in the
    archive. *)
Lemma not_archived_when_hidden fs projectsDir archivedSessions firstTimestampOf
    entries s :
  s ∈ getSessions fs projectsDir archivedSessions firstTimestampOf false entries ->
  id s ∉ archivedSessions.
Proof.
  unfold getSessions. rewrite elem_of_sort_desc.
  intros (s0 & -> & Hs0)%list_elem_of_fmap. cbn [id with_firstTimestamp].
  destruct (hide_archived fs projectsDir archivedSessions entries)
    as (Hs & _ & Harch).
  cbn zeta in Hs. rewrite Hs in Hs0.
  apply list_elem_of_filter in Hs0 as [Hfalse Hin].
  rewrite Forall_forall in Harch. specialize (Harch s0 Hin).
  rewrite Hfalse in Harch. unfold isArchived in Harch.
  symmetry in Harch. by apply bool_decide_eq_false in Harch.
Qed.

End SessionListFacts.

(** X5. [getSessions] lists every session once and in descending order of
    timestamp. Each listed session is made of the first history entry that
    resolves to its id (by its own [sessionId], else by the closest
    transcript of its project): display, timestamp, project and project
    name are those of that entry, and later entries of the same session
    are ignored. Conversely every entry that resolves to an id that is not
    empty has its session listed, unless the session is archived and
    archived sessions are not asked for. *)
Theorem getSessions_distinct_sorted_first_entry
    (fs : Node.FileSystem) (projectsDir : string)
    (archivedSessions : gset string) (firstTimestampOf : string -> option Z)
    (includeArchived : bool) (entries : list Storage.HistoryEntry) :
  let result :=
    Catalog.getSessions fs projectsDir archivedSessions firstTimestampOf
      includeArchived entries in
  let resolve := Storage.resolveSessionId fs projectsDir in
  NoDup (Storage.id <$> result)
  /\ StronglySorted
       (fun a b => (Storage.timestamp b <= Storage.timestamp a)%Z) result
  /\ (forall s,
        s ∈ result ->
        exists i entry,
          entries !! i = Some entry
          /\ resolve entry = Some (Storage.id s)
          /\ Storage.id s <> ""
          /\ (includeArchived = true \/ Storage.id s ∉ archivedSessions)
          /\ s = {| Storage.id := Storage.id s;
                    Storage.display := Storage.he_display entry;
                    Storage.timestamp := Storage.he_timestamp entry;
                    Storage.firstTimestamp := firstTimestampOf (Storage.id s);
                    Storage.project := Storage.he_project entry;
                    Storage.projectName :=
                      Catalog.getProjectName (Storage.he_project entry);
                    Storage.archived :=
                      Catalog.isArchived archivedSessions (Storage.id s) |}
          /\ forall j entry',
              j < i -> entries !! j = Some entry' ->
              resolve entry' <> Some (Storage.id s))
  /\ (forall entry sid,
        entry ∈ entries ->
        resolve entry = Some sid ->
        sid <> "" ->
        includeArchived = true \/ sid ∉ archivedSessions ->
        exists s, s ∈ result /\ Storage.id s = sid).
Proof.
  intros result resolve.
  destruct (SessionListProofs.loop_invariant fs projectsDir archivedSessions
              includeArchived entries) as (Hnd & Hseen & Hfirst & Hall).
  subst result. unfold Catalog.getSessions.
  set (st := foldl _ _ entries) in *.
  split; [|split; [|split]].
  - rewrite (SearchProofs.sort_desc_perm Storage.timestamp).
    rewrite <- list_fmap_compose.
    by erewrite list_fmap_ext; [exact Hnd|].
  - apply SortProofs.sort_desc_sorted.
  - intros s Hs. apply SessionListFacts.elem_of_sort_desc in Hs.
    apply list_elem_of_fmap in Hs as (s0 & -> & Hs0).
    destruct (Hfirst s0 Hs0) as (i & entry & Hi & Hr & Hne & Hs & Hl & Hj).
    exists i, entry. cbn [Storage.id Catalog.with_firstTimestamp].
    repeat split; [done..| |done].
    rewrite Hs at 1. done.
  - intros entry sid Hin Hr Hne Hl.
    pose proof (Hall entry sid Hin Hr Hne Hl) as Hsid.
    apply Hseen in Hsid. apply list_elem_of_fmap in Hsid as (s0 & -> & Hs0).
    exists (Catalog.with_firstTimestamp firstTimestampOf s0). split; [|done].
    apply SessionListFacts.elem_of_sort_desc. apply list_elem_of_fmap. by exists s0.
Qed.

(** X5 on the history entry without session id and the project directory
    with two transcripts: the entry resolves to [s1], which is listed. *)
Lemma getSessions_distinct_sorted_first_entry_witness :
  exists s,
    s ∈ Catalog.getSessions Scenario.two_sessions Scenario.projectsDir ∅
          (fun _ => None) false [Scenario.fix_bug]
    /\ Storage.id s = "s1".
Proof.
  apply (proj2 (proj2 (proj2
           (getSessions_distinct_sorted_first_entry Scenario.two_sessions
              Scenario.projectsDir ∅ (fun _ => None) false [Scenario.fix_bug])))
           Scenario.fix_bug "s1").
  - by left.
  - vm_compute. reflexivity.
  - discriminate.
  - right. apply not_elem_of_empty.
Defined.

(** X6. Asking [getSessions] for the list without archived sessions gives
    the list with archived sessions less its archived members, in the same
    order. The flag [archived] of a listed session tells whether its id is
    in the archive, so no session of the list without archived sessions
    bears it. *)
Theorem getSessions_hides_archived
    (fs : Node.FileSystem) (projectsDir : string)
    (archivedSessions : gset string) (firstTimestampOf : string -> option Z)
    (entries : list Storage.HistoryEntry) :
  let sessions includeArchived :=
    Catalog.getSessions fs projectsDir archivedSessions firstTimestampOf
      includeArchived entries in
  sessions false = filter (fun s => Storage.archived s = false) (sessions true)
  /\ Forall (fun s => Storage.archived s
                      = Catalog.isArchived archivedSessions (Storage.id s))
       (sessions true)
  /\ Forall (fun s => Storage.archived s = false) (sessions false).
Proof.
  intros sessions.
  destruct (SessionListProofs.hide_archived fs projectsDir archivedSessions entries)
    as (Hs & _ & Harch).
  assert (Hfilter :
            sessions false
            = filter (fun s => Storage.archived s = false) (sessions true)).
  { subst sessions. unfold Catalog.getSessions. cbn beta. rewrite Hs.
    rewrite SortProofs.sort_desc_filter.
    by rewrite SessionListFacts.filter_fmap_archived. }
  split; [done|]. split.
  - subst sessions. unfold Catalog.getSessions. cbn beta.
    apply Forall_forall. intros s Hs'.
    apply SessionListFacts.elem_of_sort_desc in Hs'.
    apply list_elem_of_fmap in Hs' as (s0 & -> & Hs0).
    rewrite Forall_forall in Harch.
    cbn [Storage.archived Storage.id Catalog.with_firstTimestamp]. by apply Harch.
  - rewrite Hfilter. apply Forall_forall.
    by intros s [? _]%list_elem_of_filter.
Qed.

Module TextOrder.

Lemma compare_le_trans (a b c : string) :
  (a ?= b)%string <> Gt -> (b ?= c)%string <> Gt -> (a ?= c)%string <> Gt.
Proof.
  revert b c. induction a as [|x a IH]; intros [|y b] [|z c]; cbn; try done.
  unfold Ascii.compare.
  destruct (N.compare_spec (N_of_ascii x) (N_of_ascii y)) as [Hxy|Hxy|Hxy];
    destruct (N.compare_spec (N_of_ascii y) (N_of_ascii z)) as [Hyz|Hyz|Hyz];
    destruct (N.compare_spec (N_of_ascii x) (N_of_ascii z)) as [Hxz|Hxz|Hxz];
    try done; try lia.
  apply IH.
Qed.

Lemma leb_trans (a b c : string) :
  (a <=? b)%string = true -> (b <=? c)%string = true -> (a <=? c)%string = true.
Proof.
  unfold String.leb. intros H1 H2.
  pose proof (compare_le_trans a b c) as H.
  destruct (a ?= b)%string, (b ?= c)%string, (a ?= c)%string; try done;
    exfalso; by apply H.
Qed.

Lemma leb_ne_ltb (a b : string) :
  (a <=? b)%string = true -> a <> b -> (a <? b)%string = true.
Proof.
  unfold String.leb, String.ltb. intros H Hne.
  destruct (a ?= b)%string eqn:E; [|done|done].
  by apply String.compare_eq_iff in E.
Qed.

Lemma leb_false_leb (a b : string) :
  (a <=? b)%string = false -> (b <=? a)%string = true.
Proof.
  intros H. destruct (String.leb_total a b) as [H'|H']; [congruence|done].
Qed.

Lemma insert_asc_perm x xs : JsText.insert_asc x xs ≡ₚ x :: xs.
Proof.
  induction xs as [|y ys IH]; [done|]. cbn [JsText.insert_asc].
  destruct (x <=? y)%string; [done|]. rewrite IH. apply Permutation_swap.
Qed.

Lemma sort_perm xs : JsText.sort xs ≡ₚ xs.
Proof.
  induction xs as [|x xs IH]; [done|]. unfold JsText.sort in *. cbn [foldr].
  by rewrite insert_asc_perm, IH.
Qed.

Lemma insert_asc_sorted x xs :
  StronglySorted (fun a b => (a <=? b)%string = true) xs ->
  StronglySorted (fun a b => (a <=? b)%string = true) (JsText.insert_asc x xs).
Proof.
  induction 1 as [|y ys Hys IH Hy]; cbn [JsText.insert_asc].
  - by repeat constructor.
  - destruct (x <=? y)%string eqn:E.
    + constructor; [by constructor|]. constructor; [done|].
      eapply Forall_impl; [exact Hy|]. intros z Hz. by eapply leb_trans.
    + constructor; [done|]. apply Forall_forall. intros z Hz.
      rewrite insert_asc_perm in Hz. apply elem_of_cons in Hz as [->|Hz].
      * by apply leb_false_leb.
      * rewrite Forall_forall in Hy. by apply Hy.
Qed.

Lemma sort_sorted xs :
  StronglySorted (fun a b => (a <=? b)%string = true) (JsText.sort xs).
Proof.
  induction xs as [|x xs IH]; [constructor|]. by apply insert_asc_sorted.
Qed.

Lemma sorted_strict xs :
  NoDup xs ->
  StronglySorted (fun a b => (a <=? b)%string = true) xs ->
  StronglySorted (fun a b => (a <? b)%string = true) xs.
Proof.
  intros Hnd. induction 1 as [|y ys Hys IH Hy]; [constructor|].
  apply NoDup_cons in Hnd as [Hy' Hnd]. constructor; [by apply IH|].
  apply Forall_forall. intros z Hz. rewrite Forall_forall in Hy.
  apply leb_ne_ltb; [by apply Hy|]. by intros ->.
Qed.

End TextOrder.

Module ProjectListProofs.
Import Storage Catalog.

Lemma projects_loop entries :
  let projects :=
    foldl (fun projects entry =>
             if Js.truthy_str (he_project entry)
             then JsText.set_add (he_project entry) projects
             else projects)
          [] entries in
  NoDup projects
  /\ forall p, p ∈ projects
               <-> p <> "" /\ exists entry, entry ∈ entries /\ he_project entry = p.
Proof.
  induction entries as [|entry pre IH] using rev_ind.
  { cbn. split; [constructor|]. intros p. split; [by intros ?%elem_of_nil|].
    by intros (_ & e & ?%elem_of_nil & _). }
  cbn zeta in *. rewrite foldl_snoc. destruct IH as [Hnd Hin].
  set (projects := foldl _ _ pre) in *.
  assert (Hold : forall p,
             (p <> "" /\ exists e, e ∈ pre ++ [entry] /\ he_project e = p)
             <-> p ∈ projects \/ (p <> "" /\ he_project entry = p)).
  { intros p. rewrite Hin. split.
    - intros (Hne & e & [He|He]%elem_of_app & Hp).
      + left. split; [done|]. by exists e.
      + apply list_elem_of_singleton in He as ->. by right.
    - intros [(Hne & e & He & Hp)|(Hne & Hp)]; (split; [done|]).
      + exists e. split; [|done]. apply elem_of_app. by left.
      + exists entry. split; [|done]. apply elem_of_app. right. by left. }
  destruct (Js.truthy_str (he_project entry)) eqn:Ht.
  - apply SessionListProofs.truthy_str_ne in Ht. unfold JsText.set_add.
    destruct (decide (he_project entry ∈ projects)) as [Hp|Hp].
    + rewrite bool_decide_eq_true_2 by done. split; [done|].
      intros p. rewrite Hold. split; [tauto|]. intros [?|[_ <-]]; done.
    + rewrite bool_decide_eq_false_2 by done. split.
      * apply NoDup_app. repeat split; [done| |apply NoDup_singleton].
        by intros x Hx ->%list_elem_of_singleton.
      * intros p. rewrite Hold, elem_of_app, list_elem_of_singleton.
        split; [intros [?| ->]; tauto|]. intros [?|[_ <-]]; tauto.
  - split; [done|]. intros p. rewrite Hold. split; [tauto|].
    intros [?|[Hne <-]]; [done|]. by destruct (he_project entry).
Qed.

End ProjectListProofs.

(** X7. [getProjects] returns the projects of the history entries that
    are not empty, each once, in strictly ascending order of their code
    units. *)
Theorem getProjects_sorted_distinct (entries : list Storage.HistoryEntry) :
  StronglySorted (fun a b => (a <? b)%string = true) (Catalog.getProjects entries)
  /\ forall p,
      p ∈ Catalog.getProjects entries
      <-> p <> "" /\ exists entry, entry ∈ entries /\ Storage.he_project entry = p.
Proof.
  destruct (ProjectListProofs.projects_loop entries) as [Hnd Hin].
  unfold Catalog.getProjects. split.
  - apply TextOrder.sorted_strict; [|apply TextOrder.sort_sorted].
    by rewrite TextOrder.sort_perm.
  - intros p. by rewrite TextOrder.sort_perm.
Qed.

(** X8. The history is cached for five seconds. A call that comes within
    5000 ms of the last load is answered from the cache, whatever has
    become of the file; a later call, and every call after
    [invalidateHistoryCache], reads the file again. When the file cannot be
    read the empty history is cached like any other. *)
Theorem history_cache_window
    (parse : string -> option json) (fs fs' : Node.FileSystem)
    (claudeDir : string) (t0 now loaded : Z) :
  let first := Catalog.loadHistoryCache parse fs claudeDir t0 in
  ((now - t0 <= Catalog.HISTORY_CACHE_TTL_MS)%Z ->
   Catalog.history_entries parse fs' claudeDir now loaded first.2 = first)
  /\ ((Catalog.HISTORY_CACHE_TTL_MS < now - t0)%Z ->
      Catalog.history_entries parse fs' claudeDir now loaded first.2
      = Catalog.loadHistoryCache parse fs' claudeDir loaded)
  /\ Catalog.history_entries parse fs' claudeDir now loaded
       Catalog.invalidateHistoryCache
     = Catalog.loadHistoryCache parse fs' claudeDir loaded
  /\ (Node.readFile fs (Js.path_join claudeDir "history.jsonl") = None ->
      first = ([], {| Catalog.historyCache := Some [];
                      Catalog.historyCacheTime := t0 |})).
Proof.
  intros first. subst first.
  unfold Catalog.history_entries, Catalog.isHistoryCacheStale,
    Catalog.loadHistoryCache.
  destruct (Node.readFile fs _) as [content|]; cbn [fst snd Catalog.historyCache
    Catalog.historyCacheTime Catalog.invalidateHistoryCache default].
  - repeat split; [| |done].
    + intros H. by apply Z.ltb_ge in H as ->.
    + intros H. by apply Z.ltb_lt in H as ->.
  - repeat split.
    + intros H. by apply Z.ltb_ge in H as ->.
    + intros H. by apply Z.ltb_lt in H as ->.
Qed.

(** X8 on a history of one line, loaded at time 0: a call at time 5000 on
    a store without the file still gives the entry, a call at time 5001
    gives the empty history. *)
Lemma history_cache_window_witness :
  let fs := {| Node.readdirTypes _ := None;
               Node.readFile p :=
                 if String.eqb p "/home/a/.claude/history.jsonl"
                 then Some Scenario.user_line else None;
               Node.mtimeMs _ := None |} in
  let gone := {| Node.readdirTypes _ := None;
                 Node.readFile _ := None;
                 Node.mtimeMs _ := None |} in
  let first := Catalog.loadHistoryCache Json.parse fs "/home/a/.claude" 0 in
  first.1 = [Scenario.user_msg]
  /\ Catalog.history_entries Json.parse gone "/home/a/.claude" 5000 5000 first.2
     = first
  /\ (Catalog.history_entries Json.parse gone "/home/a/.claude" 5001 5001 first.2).1
     = [].
Proof.
  intros fs gone first. subst first. split; [by vm_compute|]. split.
  - apply (proj1 (history_cache_window Json.parse fs gone "/home/a/.claude"
                    0 5000 5000)).
    vm_compute. discriminate.
  - rewrite (proj1 (proj2 (history_cache_window Json.parse fs gone "/home/a/.claude"
                             0 5001 5001))); [by vm_compute|].
    vm_compute. reflexivity.
Defined.

Module TokenCacheProofs.
Import Storage Catalog.

Section WithParser.
Variable parse : string -> option json.

(** A call that finds the transcript and its [stat] leaves an entry for
    the session, taken at the size and modification time it saw, and
    returns the tokens of that entry. *)
Lemma getSessionTokens_entry fs projectsDir fileIndex tokenCache sessionId
    filePath content mtimeMs :
  located fs projectsDir fileIndex sessionId = Some filePath ->
  Node.readFile fs filePath = Some content ->
  Node.mtimeMs fs filePath = Some mtimeMs ->
  let r := getSessionTokens parse fs projectsDir fileIndex tokenCache sessionId in
  exists entry,
    r.2 !! sessionId = Some entry
    /\ r.1 = Some (tokens entry)
    /\ size entry = String.length content
    /\ mtime entry = mtimeMs.
Proof.
  intros Hloc Hread Hstat. cbn zeta. unfold getSessionTokens.
  rewrite Hloc, Hread, Hstat.
  destruct (tokenCache !! sessionId) as [cached|] eqn:Hc.
  - destruct ((size cached =? String.length content)
              && (mtime cached =? mtimeMs)%Z) eqn:E.
    + apply andb_true_iff in E as [E1%Nat.eqb_eq E2%Z.eqb_eq].
      exists cached. cbn [fst snd]. by rewrite Hc.
    + eexists. cbn [fst snd]. by rewrite lookup_insert_eq.
  - eexists. cbn [fst snd]. by rewrite lookup_insert_eq.
Qed.

Lemma getSessionTokens_hit fs projectsDir fileIndex tokenCache sessionId
    filePath content mtimeMs entry :
  located fs projectsDir fileIndex sessionId = Some filePath ->
  Node.readFile fs filePath = Some content ->
  Node.mtimeMs fs filePath = Some mtimeMs ->
  tokenCache !! sessionId = Some entry ->
  size entry = String.length content ->
  mtime entry = mtimeMs ->
  getSessionTokens parse fs projectsDir fileIndex tokenCache sessionId
  = (Some (tokens entry), tokenCache).
Proof.
  intros Hloc Hread Hstat Hc Hsize Hmtime. unfold getSessionTokens.
  rewrite Hloc, Hread, Hstat, Hc, Hsize, Hmtime.
  by rewrite Nat.eqb_refl, Z.eqb_refl.
Qed.

Lemma getSessionTokens_miss fs projectsDir fileIndex tokenCache sessionId
    filePath content mtimeMs :
  located fs projectsDir fileIndex sessionId = Some filePath ->
  Node.readFile fs filePath = Some content ->
  Node.mtimeMs fs filePath = Some mtimeMs ->
  tokenCache !! sessionId = None ->
  (getSessionTokens parse fs projectsDir fileIndex tokenCache sessionId).1
  = Some (compute_tokens parse content).
Proof.
  intros Hloc Hread Hstat Hc. unfold getSessionTokens.
  by rewrite Hloc, Hread, Hstat, Hc.
Qed.

End WithParser.

Lemma invalidate_lookup sessionId tokenCache :
  invalidateTokenCache sessionId tokenCache
  !! default "" sessionId = None.
Proof.
  unfold invalidateTokenCache. destruct sessionId as [s|]; [|done].
  destruct (Js.truthy_str s); [|done]. apply lookup_delete_eq.
Qed.

End TokenCacheProofs.

(** X9. The token cache is keyed by the size and the modification time of
    the transcript. Once [getSessionTokens] has answered for a session, a
    second call answers the same and leaves the cache as it is as long as
    the transcript has the same length and modification time, whatever it
    holds by then. After [invalidateTokenCache] for the session, or for no
    session, or for the empty id, both of which clear the whole cache, the
    next call reads the transcript again. Invalidating one session keeps
    the entries of the others. *)
Theorem getSessionTokens_cache_coherence :
  (forall parse fs fs' projectsDir fileIndex tokenCache sessionId filePath
          content content' mtimeMs,
      Storage.located fs projectsDir fileIndex sessionId = Some filePath ->
      Node.readFile fs filePath = Some content ->
      Node.mtimeMs fs filePath = Some mtimeMs ->
      Storage.located fs' projectsDir fileIndex sessionId = Some filePath ->
      Node.readFile fs' filePath = Some content' ->
      Node.mtimeMs fs' filePath = Some mtimeMs ->
      String.length content' = String.length content ->
      let first :=
        Storage.getSessionTokens parse fs projectsDir fileIndex tokenCache
          sessionId in
      Storage.getSessionTokens parse fs' projectsDir fileIndex first.2 sessionId
      = first)
  /\ (forall parse fs projectsDir fileIndex tokenCache sessionId invalidated
             filePath content mtimeMs,
        Storage.located fs projectsDir fileIndex sessionId = Some filePath ->
        Node.readFile fs filePath = Some content ->
        Node.mtimeMs fs filePath = Some mtimeMs ->
        invalidated = Some sessionId \/ invalidated = None \/ invalidated = Some "" ->
        (Storage.getSessionTokens parse fs projectsDir fileIndex
           (Catalog.invalidateTokenCache invalidated tokenCache) sessionId).1
        = Some (Storage.compute_tokens parse content))
  /\ (forall tokenCache sessionId other,
        sessionId <> "" -> other <> sessionId ->
        Catalog.invalidateTokenCache (Some sessionId) tokenCache !! other
        = tokenCache !! other).
Proof.
  split; [|split].
  - intros parse fs fs' projectsDir fileIndex tokenCache sessionId filePath
      content content' mtimeMs Hloc Hread Hstat Hloc' Hread' Hstat' Hlen first.
    destruct (TokenCacheProofs.getSessionTokens_entry parse fs projectsDir
                fileIndex tokenCache sessionId filePath content mtimeMs
                Hloc Hread Hstat) as (entry & Hentry & Htok & Hsize & Hmtime).
    fold first in Hentry, Htok.
    rewrite (TokenCacheProofs.getSessionTokens_hit parse fs' projectsDir fileIndex
               first.2 sessionId filePath content' mtimeMs entry); try done.
    + rewrite <- Htok. by destruct first.
    + by rewrite Hlen.
  - intros parse fs projectsDir fileIndex tokenCache sessionId invalidated
      filePath content mtimeMs Hloc Hread Hstat Hinv.
    eapply TokenCacheProofs.getSessionTokens_miss; [done..|].
    destruct Hinv as [->|[->| ->]]; [|done|done].
    apply (TokenCacheProofs.invalidate_lookup (Some sessionId)).
  - intros tokenCache sessionId other Hne Hother.
    unfold Catalog.invalidateTokenCache.
    destruct sessionId as [|c s]; [done|]. cbn.
    by rewrite lookup_delete_ne.
Qed.

(** X9 on the stored transcript of session [s1]: a second call on a store
    where the transcript has been replaced by other text of the same
    length and modification time repeats the first answer. *)
Lemma getSessionTokens_cache_coherence_witness :
  let rewritten :=
    {| Node.readdirTypes := Node.readdirTypes Scenario.one_project;
       Node.readFile p :=
         if String.eqb p Scenario.s1_path
         then Some (Js.toLowerCase Scenario.transcript) else None;
       Node.mtimeMs := Node.mtimeMs Scenario.one_project |} in
  let first :=
    Storage.getSessionTokens Json.parse Scenario.one_project
      Scenario.projectsDir [] ∅ "s1" in
  Storage.getSessionTokens Json.parse rewritten Scenario.projectsDir [] first.2 "s1"
  = first.
Proof.
  intros rewritten first.
  apply (proj1 getSessionTokens_cache_coherence Json.parse Scenario.one_project
           rewritten Scenario.projectsDir [] ∅ "s1" Scenario.s1_path
           Scenario.transcript (Js.toLowerCase Scenario.transcript) 999%Z);
    by vm_compute.
Defined.

Module TextProofs.
Import StringFacts.

Lemma toLowerCase_length s : String.length (Js.toLowerCase s) = String.length s.
Proof. induction s as [|c s IH]; [done|]. cbn. by rewrite IH. Qed.

Lemma toLowerCase_app a b :
  Js.toLowerCase (a +:+ b) = Js.toLowerCase a +:+ Js.toLowerCase b.
Proof.
  induction a as [|c a IH]; [by rewrite !app_empty_l|].
  rewrite app_cons. cbn [Js.toLowerCase]. by rewrite app_cons, IH.
Qed.

Lemma toLowerCase_slice_to n s :
  Js.toLowerCase (Js.slice_to n s) = Js.slice_to n (Js.toLowerCase s).
Proof.
  revert s. induction n as [|n IH]; intros [|c s]; cbn; try done. by rewrite IH.
Qed.

Lemma toLowerCase_slice_from n s :
  Js.toLowerCase (Js.slice_from n s) = Js.slice_from n (Js.toLowerCase s).
Proof.
  revert s. induction n as [|n IH]; intros [|c s]; cbn; try done.
Qed.

Lemma slice_to_length_le n s : String.length (Js.slice_to n s) <= n.
Proof.
  revert s. induction n as [|n IH]; intros [|c s]; cbn; try lia.
  specialize (IH s). lia.
Qed.

Lemma startsWith_app p r : Js.startsWith p (p +:+ r) = true.
Proof.
  induction p as [|c p IH]; [done|]. rewrite app_cons. cbn.
  by rewrite Ascii.eqb_refl.
Qed.

Lemma startsWith_inv p s :
  Js.startsWith p s = true -> exists r, s = p +:+ r.
Proof.
  revert s. induction p as [|c p IH]; intros s H.
  { exists s. by rewrite app_empty_l. }
  destruct s as [|d s]; [done|]. cbn in H.
  apply andb_true_iff in H as [->%Ascii.eqb_eq H].
  destruct (IH s H) as [r ->]. exists r. by rewrite app_cons.
Qed.

Lemma indexOf_from_inv i p s k :
  Js.indexOf_from i p s = Some k ->
  i <= k /\ k - i <= String.length s
  /\ Js.startsWith p (Js.slice_from (k - i) s) = true.
Proof.
  revert i. induction s as [|c s IH]; intros i; cbn [Js.indexOf_from].
  - destruct (Js.startsWith p "") eqn:E; [|done].
    intros [= <-]. rewrite Nat.sub_diag. cbn. split; [lia|]. split; [lia|done].
  - destruct (Js.startsWith p (String c s)) eqn:E.
    + intros [= <-]. rewrite Nat.sub_diag. cbn [Js.slice_from]. split; [lia|].
      split; [lia|done].
    + intros H. apply IH in H as (Hle & Hlen & Hst).
      replace (k - i) with (S (k - S i)) by lia. cbn [Js.slice_from String.length].
      split; [lia|]. split; [lia|done].
Qed.

Lemma indexOf_from_here i p s :
  Js.startsWith p s = true -> Js.indexOf_from i p s = Some i.
Proof. intros H. destruct s; cbn [Js.indexOf_from]; by rewrite H. Qed.

Lemma indexOf_from_found i p a r :
  is_Some (Js.indexOf_from i p (a +:+ p +:+ r)).
Proof.
  revert i. induction a as [|c a IH]; intros i.
  - rewrite app_empty_l, indexOf_from_here; [by eexists|apply startsWith_app].
  - rewrite app_cons. cbn [Js.indexOf_from].
    destruct (Js.startsWith p _); [by eexists|]. apply IH.
Qed.

Lemma includes_app p a r : Js.includes p (a +:+ p +:+ r) = true.
Proof.
  unfold Js.includes, Js.indexOf.
  by destruct (indexOf_from_found 0 p a r) as [k ->].
Qed.

Lemma includes_inv p s :
  Js.includes p s = true -> exists a r, s = a +:+ p +:+ r.
Proof.
  unfold Js.includes, Js.indexOf.
  destruct (Js.indexOf_from 0 p s) as [k|] eqn:E; [intros _|done].
  apply indexOf_from_inv in E as (_ & _ & Hst). rewrite Nat.sub_0_r in Hst.
  apply startsWith_inv in Hst as [r Hr].
  exists (Js.slice_to k s), r. rewrite <- Hr.
  by rewrite ReaderAgreement.slice_to_from.
Qed.

Lemma includes_prefix p x s :
  Js.includes p s = true -> Js.includes p (x +:+ s) = true.
Proof.
  intros (a & r & ->)%includes_inv. rewrite <- app_assoc_s. apply includes_app.
Qed.

Lemma includes_suffix p s y :
  Js.includes p s = true -> Js.includes p (s +:+ y) = true.
Proof.
  intros (a & r & ->)%includes_inv. rewrite !app_assoc_s. apply includes_app.
Qed.

Lemma slice_from_app_le n a b :
  n <= String.length a ->
  Js.slice_from n (a +:+ b) = Js.slice_from n a +:+ b.
Proof.
  revert a. induction n as [|n IH]; intros a Hn; [done|].
  destruct a as [|c a]; cbn in Hn; [lia|].
  rewrite app_cons. cbn [Js.slice_from]. apply IH. lia.
Qed.

Lemma slice_to_app_ge n a b :
  String.length a <= n ->
  Js.slice_to n (a +:+ b) = a +:+ Js.slice_to (n - String.length a) b.
Proof.
  revert n. induction a as [|c a IH]; intros n Hn.
  { rewrite !app_empty_l. cbn. by rewrite Nat.sub_0_r. }
  destruct n as [|n]; cbn in Hn; [lia|].
  rewrite !app_cons. cbn [Js.slice_to String.length Nat.sub].
  rewrite IH by lia. done.
Qed.

End TextProofs.

Module SnippetProofs.
Import Storage StringFacts TextProofs.

(** The snippet of a text in which the query occurs, whatever the case of
    the letters. *)
Lemma extractSnippet_found text query :
  Js.includes (Js.toLowerCase query) (Js.toLowerCase text) = true ->
  Js.includes (Js.toLowerCase query)
    (Js.toLowerCase (extractSnippet text query 120)) = true
  /\ String.length (extractSnippet text query 120) <= String.length query + 126.
Proof.
  unfold extractSnippet. unfold Js.includes at 1. unfold Js.indexOf.
  destruct (Js.indexOf_from 0 _ _) as [idx|] eqn:Hidx; [intros _|done].
  apply indexOf_from_inv in Hidx as (_ & Hle & Hst).
  rewrite Nat.sub_0_r in Hle, Hst. rewrite toLowerCase_length in Hle.
  apply startsWith_inv in Hst as [r Hr].
  set (lq := Js.toLowerCase query) in *.
  set (start := idx - 40).
  set (end_ := Nat.min (String.length text) (idx + String.length query + 80)).
  set (body := Js.slice_to (end_ - start) (Js.slice_from start text)).
  assert (Hlq : String.length lq = String.length query)
    by apply toLowerCase_length.
  (* the lower-cased text is a prefix of [idx] characters, the query, a rest *)
  assert (Htext : Js.toLowerCase text
                  = Js.slice_to idx (Js.toLowerCase text) +:+ lq +:+ r).
  { rewrite <- Hr. by rewrite ReaderAgreement.slice_to_from. }
  assert (Hpre : String.length (Js.slice_to idx (Js.toLowerCase text)) = idx).
  { apply ReaderAgreement.slice_to_length. by rewrite toLowerCase_length. }
  assert (Hlen : idx + String.length query + String.length r = String.length text).
  { rewrite <- (toLowerCase_length text), Htext at 1.
    rewrite !length_app_s, Hpre, Hlq. lia. }
  assert (Hbody : exists a b, Js.toLowerCase body = a +:+ lq +:+ b).
  { subst body. rewrite toLowerCase_slice_to, toLowerCase_slice_from.
    rewrite Htext. set (pre := Js.slice_to idx (Js.toLowerCase text)) in *.
    rewrite slice_from_app_le by (subst start; lia).
    rewrite slice_to_app_ge.
    2:{ rewrite LinesProofs.slice_from_length, Hpre. subst start end_. lia. }
    rewrite slice_to_app_ge.
    2:{ rewrite LinesProofs.slice_from_length, Hpre, Hlq. subst start end_. lia. }
    eauto. }
  assert (Hbodylen : String.length body <= String.length query + 120).
  { subst body. pose proof (slice_to_length_le (end_ - start)
                              (Js.slice_from start text)).
    subst start end_. lia. }
  destruct Hbody as (a & b & Hab).
  assert (Hin : Js.includes lq (Js.toLowerCase body) = true).
  { rewrite Hab. apply includes_app. }
  split.
  - destruct (0 <? start), (end_ <? String.length text);
      rewrite ?toLowerCase_app.
    + by apply includes_suffix, includes_prefix.
    + by apply includes_prefix.
    + by apply includes_suffix.
    + done.
  - destruct (0 <? start), (end_ <? String.length text);
      rewrite ?length_app_s; cbn [String.length]; lia.
Qed.

End SnippetProofs.

Module SearchResultProofs.
Import Storage Lines Invariants.

Section WithParser.
Variable parse : string -> option json.

Lemma type_is_eq t msg :
  type_is t msg = true -> as_string (get "type" msg) = Some t.
Proof.
  unfold type_is. destruct (as_string _) as [s|]; [|done].
  by intros ->%String.eqb_eq.
Qed.

(** What [line_match] puts in a match. *)
Lemma line_match_shows query line m :
  line_match parse query (Js.toLowerCase query) line = Some m ->
  Js.includes (Js.toLowerCase query) (Js.toLowerCase (text m)) = true
  /\ String.length (text m) <= String.length query + 126
  /\ (role m = "user" \/ role m = "assistant").
Proof.
  unfold line_match.
  destruct (parse_message parse line) as [msg|]; [|done].
  destruct (is_user_or_assistant msg) eqn:Hua; [|done].
  destruct (extractTextContent msg) as [t|]; [|done].
  destruct (Js.includes _ (Js.toLowerCase t)) eqn:Hin; [|done].
  intros [= <-]. cbn [text role].
  destruct (SnippetProofs.extractSnippet_found t query Hin) as [H1 H2].
  split; [done|]. split; [done|].
  apply orb_true_iff in Hua as [Hu|Ha].
  - left. apply type_is_eq in Hu. by rewrite Hu.
  - right. apply type_is_eq in Ha. by rewrite Ha.
Qed.

Lemma entry_result_shows fs sessions query entry r m :
  entry_result parse fs sessions query entry = Some r ->
  m ∈ matches r ->
  exists line, line_match parse query (Js.toLowerCase query) line = Some m.
Proof.
  unfold entry_result, entry_matches.
  destruct (session_map sessions !! entry.1) as [session|]; [|done].
  destruct (0 <? _); [|done]. intros [= <-]. cbn [matches].
  intros Hm%elem_of_take. destruct Hm as (i & Hm & _).
  apply list_elem_of_lookup_2 in Hm.
  destruct (Node.readFile fs entry.2); [|by apply elem_of_nil in Hm].
  apply list_elem_of_omap in Hm as (line & _ & Hline). by exists line.
Qed.

Lemma searchSessions_spec fs sessions fileIndex query maxResults :
  searchSessions parse fs sessions fileIndex query maxResults
  = if String.length query <? 2 then []
    else Js.sort_desc sr_timestamp
           (take maxResults
              (omap (entry_result parse fs sessions query) fileIndex)).
Proof.
  unfold searchSessions.
  destruct (Nat.ltb_spec (String.length query) 2) as [Hshort|Hlong].
  { by rewrite orb_true_r. }
  rewrite orb_false_r.
  destruct query as [|c query]; [cbn in Hlong; lia|]. cbn [Js.truthy_str Js.is_empty negb].
  by rewrite SearchProofs.search_loop_spec by (cbn; lia).
Qed.

End WithParser.
End SearchResultProofs.

(** X10. Every match [searchSessions] returns shows the query: its text,
    the snippet cut around the first occurrence, contains the query when
    the case of the letters is ignored; it is at most 126 characters
    longer than the query (40 before and 80 after the occurrence, and an
    ellipsis at either end); its role is [user] or [assistant]. *)
Theorem searchSessions_snippet_shows_query
    (parse : string -> option json) (fs : Node.FileSystem)
    (sessions : list Storage.Session) (fileIndex : list (string * string))
    (query : string) (maxResults : nat) :
  Forall (fun r =>
            Forall (fun m =>
                      Js.includes (Js.toLowerCase query)
                        (Js.toLowerCase (Storage.text m)) = true
                      /\ String.length (Storage.text m) <= String.length query + 126
                      /\ (Storage.role m = "user" \/ Storage.role m = "assistant"))
              (Storage.matches r))
    (Storage.searchSessions parse fs sessions fileIndex query maxResults).
Proof.
  rewrite SearchResultProofs.searchSessions_spec.
  destruct (String.length query <? 2); [constructor|].
  apply Forall_forall. intros r Hr.
  rewrite (SearchProofs.sort_desc_perm Storage.sr_timestamp) in Hr.
  apply elem_of_take in Hr as (i & Hr & _). apply list_elem_of_lookup_2 in Hr.
  apply list_elem_of_omap in Hr as (entry & _ & Hentry).
  apply Forall_forall. intros m Hm.
  destruct (SearchResultProofs.entry_result_shows parse fs sessions query entry
              r m Hentry Hm) as [line Hline].
  by eapply SearchResultProofs.line_match_shows.
Qed.

(** X11. [searchSessions] applies its cap before it sorts: for a query of
    at least two characters it takes the entries of the file index in
    insertion order, keeps each whose session is listed and whose
    transcript has a matching message, with the first three matches and
    the display, project and timestamp of the listed session, stops after
    [maxResults] of them, and returns these in descending order of
    timestamp. So when more sessions match than the cap allows, the
    sessions returned are the first of the index, not the latest. *)
Theorem searchSessions_caps_then_sorts
    (parse : string -> option json) (fs : Node.FileSystem)
    (sessions : list Storage.Session) (fileIndex : list (string * string))
    (query : string) (maxResults : nat) :
  Storage.searchSessions parse fs sessions fileIndex query maxResults
  = (if String.length query <? 2 then []
     else Js.sort_desc Storage.sr_timestamp
            (take maxResults
               (omap (Invariants.entry_result parse fs sessions query) fileIndex)))
  /\ StronglySorted
       (fun a b => (Storage.sr_timestamp b <= Storage.sr_timestamp a)%Z)
       (Storage.searchSessions parse fs sessions fileIndex query maxResults).
Proof.
  split; [apply SearchResultProofs.searchSessions_spec|].
  rewrite SearchResultProofs.searchSessions_spec.
  destruct (String.length query <? 2); [constructor|].
  apply SortProofs.sort_desc_sorted.
Qed.

(** X11 on two indexed sessions that both match [hi]: with a cap of one
    result the session indexed first is returned, although the other is
    the later one. *)
Example searchSessions_cap_keeps_first_indexed :
  let fs := {| Node.readdirTypes _ := None;
               Node.readFile p :=
                 if String.eqb p "/p/old.jsonl" || String.eqb p "/p/new.jsonl"
                 then Some Scenario.user_line else None;
               Node.mtimeMs _ := None |} in
  let session sid t :=
    {| Storage.id := sid; Storage.display := "d"; Storage.timestamp := t;
       Storage.firstTimestamp := None; Storage.project := "/p";
       Storage.projectName := "p"; Storage.archived := false |} in
  Storage.sr_sessionId
    <$> Storage.searchSessions Json.parse fs
          [session "new" 2000%Z; session "old" 1000%Z]
          [("old", "/p/old.jsonl"); ("new", "/p/new.jsonl")] "hi" 1
  = ["old"].
Proof. by vm_compute. Qed.

Module FullReadProofs.
Import Storage Lines Scenario LinesProofs StreamProofs StringFacts.

Lemma split_lf_snoc_lf s : Js.split_lf (s +:+ NL) = Js.split_lf s ++ [""].
Proof.
  induction s as [|c s IH]; [done|]. rewrite app_cons. cbn [Js.split_lf].
  rewrite IH. destruct (Ascii.eqb c Js.LF); [done|].
  destruct (Js.split_lf s) as [|l ls] eqn:E; [|done].
  by destruct s; [|cbn in E; destruct (Ascii.eqb _ _), (Js.split_lf _)].
Qed.

Lemma no_cr_app_inv a b : no_cr (a +:+ b) = true -> no_cr a = true.
Proof.
  induction a as [|c a IH]; [done|]. rewrite app_cons. cbn.
  intros [-> H]%andb_true_iff. by apply IH.
Qed.

Lemma at_line_boundary_snoc_lf s : at_line_boundary (s +:+ NL) = true.
Proof.
  induction s as [|c s IH]; [done|]. rewrite app_cons.
  cbn [at_line_boundary]. destruct (s +:+ NL) eqn:E; [|done].
  by destruct s.
Qed.

Lemma take_until_none {A} (stop : A -> bool) l :
  Forall (fun x => stop x = false) l -> take_until stop l = l.
Proof. induction 1 as [|x l Hx _ IH]; [done|]. cbn. by rewrite Hx, IH. Qed.

Section WithParser.
Variable parse : string -> option json.

Lemma filter_messages_of_summaries (l : list json) :
  Forall (fun m => type_is "summary" m = true) l ->
  filter (fun m => is_user_or_assistant m = true) l = [].
Proof.
  induction 1 as [|m l Hm _ IH]; [done|]. rewrite filter_cons, IH.
  apply ReaderProofs.summary_not_message in Hm. by rewrite Hm.
Qed.

Lemma filter_filter_same {A} (P : A -> Prop) `{!forall x, Decision (P x)}
    (l : list A) :
  filter P (filter P l) = filter P l.
Proof.
  induction l as [|x l IH]; [done|]. rewrite filter_cons.
  destruct (decide (P x)); [|done]. rewrite filter_cons, IH. by rewrite decide_True.
Qed.

Lemma nonblank_nonempty (lines : list string) :
  Forall (fun l => Js.truthy_str (Js.trim l) = true
                   /\ is_Some (parse_message parse l)) lines ->
  filter (fun l => Js.truthy_str l = true) lines = lines.
Proof.
  induction 1 as [|l ls [Hl _] _ IH]; [done|].
  rewrite filter_cons, IH. rewrite decide_True; [done|].
  destruct l; [by cbn in Hl|done].
Qed.

Lemma nonblank_messages (lines : list string) :
  Forall (fun l => Js.truthy_str (Js.trim l) = true
                   /\ is_Some (parse_message parse l)) lines ->
  omap (line_message parse) lines = omap (parse_message parse) lines.
Proof.
  induction 1 as [|l ls [Hl _] _ IH]; [done|].
  rewrite !TokenProofs.omap_cons_match, IH. unfold line_message.
  by rewrite Hl.
Qed.

End WithParser.
End FullReadProofs.

(** X12. On a transcript without carriage return that begins with its
    first line, ends with one line feed after its last line, and all of
    whose lines are not blank and parse, the incremental reader started at
    offset 0 consumes the whole file and returns exactly the user and
    assistant messages of the full reader, in the same order; the full
    reader returns the summaries besides, before them. *)
Theorem readers_agree_on_whole_transcript
    (parse : string -> option json) (content : string) :
  Lines.no_cr content = true ->
  content = Js.trim content +:+ Scenario.NL ->
  Forall (fun line =>
            Js.truthy_str (Js.trim line) = true
            /\ is_Some (Storage.parse_message parse line))
    (Node.readline content) ->
  Storage.stream_file parse content 0
  = {| Storage.messages :=
         filter (fun m => Storage.is_user_or_assistant m = true)
           (Storage.read_conversation parse content);
       Storage.nextOffset := String.length content |}.
Proof.
  intros Hcr Htrim Hall.
  set (lines := Node.readline content) in *.
  assert (Hb : Lines.at_line_boundary content = true).
  { rewrite Htrim. apply FullReadProofs.at_line_boundary_snoc_lf. }
  assert (Hsplit : Js.split_lf (Js.trim content) = lines).
  { pose proof (LinesProofs.split_lf_readline content Hcr) as H.
    rewrite Hb in H. rewrite Htrim in H at 1.
    rewrite FullReadProofs.split_lf_snoc_lf in H.
    by apply app_inv_tail in H. }
  pose proof (FullReadProofs.nonblank_nonempty parse lines Hall) as Hne.
  assert (Hstops : Forall (fun l => Lines.stops parse l = false) lines).
  { eapply Forall_impl; [exact Hall|]. intros l [Hl [m Hm]].
    unfold Lines.stops. by rewrite Hl, Hm. }
  pose proof (FullReadProofs.nonblank_messages parse lines Hall) as Hmsg.
  assert (Hpos : 0 < String.length content).
  { rewrite Htrim, StringFacts.length_app_s. cbn. lia. }
  rewrite (StreamProofs.stream_file_spec parse content 0 Hpos).
  cbn [Js.slice_from]. fold lines.
  rewrite (FullReadProofs.take_until_none _ _ Hstops).
  f_equal.
  - unfold Lines.new_messages, Storage.read_conversation, Storage.content_lines.
    rewrite Hsplit, Hne, Hmsg.
    rewrite ReaderProofs.conversation_fold. cbn [app].
    rewrite filter_app, FullReadProofs.filter_filter_same.
    rewrite (FullReadProofs.filter_messages_of_summaries (rev _)); [done|].
    apply Forall_forall. intros m Hm.
    apply list_elem_of_In in Hm. apply in_rev in Hm. apply list_elem_of_In in Hm.
    by apply list_elem_of_filter in Hm as [? _].
  - subst lines. rewrite (LinesProofs.bytes_readline_no_cr content Hcr), Hb. lia.
Qed.

(** X12 on the transcript of a summary, a user and an assistant line. *)
Lemma readers_agree_on_whole_transcript_witness :
  Storage.stream_file Json.parse Scenario.transcript 0
  = {| Storage.messages :=
         filter (fun m => Storage.is_user_or_assistant m = true)
           (Storage.read_conversation Json.parse Scenario.transcript);
       Storage.nextOffset := String.length Scenario.transcript |}.
Proof.
  apply (readers_agree_on_whole_transcript Json.parse Scenario.transcript).
  - vm_compute. reflexivity.
  - vm_compute. reflexivity.
  - assert (Hlines : Node.readline Scenario.transcript
                     = [Scenario.summary_line; Scenario.user_line;
                        Scenario.assistant_line]) by (by vm_compute).
    rewrite Hlines.
    constructor.
    { split; [by vm_compute|]. exists Scenario.summary_msg. by vm_compute. }
    constructor.
    { split; [by vm_compute|]. exists Scenario.user_msg. by vm_compute. }
    constructor.
    { split; [by vm_compute|]. exists Scenario.assistant_msg. by vm_compute. }
    constructor.
Defined.

Module DebounceProofs.
Import Watcher Invariants.

Lemma handleChange_effect path s :
  consistent s ->
  let s1 := handleChange path s in
  watcher s1 = watcher s
  /\ emitted s1 = emitted s
  /\ debounceTimers s1 !! path = Some (fresh s)
  /\ forall t p, p <> path -> armed s1 !! t = Some p <-> armed s !! t = Some p.
Proof.
  intros [Hmaps Hfresh]. cbn. split; [done|]. split; [done|].
  split; [by rewrite lookup_insert_eq|].
  intros t p Hp. destruct (decide (fresh s = t)) as [<-|Hnt].
  - rewrite lookup_insert_eq. split; [by intros [= <-]|].
    intros Ha%Hfresh. lia.
  - rewrite lookup_insert_ne by done.
    destruct (debounceTimers s !! path) as [ex|] eqn:Ex; [|done].
    unfold clearTimeout. destruct (decide (ex = t)) as [->|Hne].
    + rewrite lookup_delete_eq. split; [done|].
      intros Ha. apply Hmaps in Ex. congruence.
    + by rewrite lookup_delete_ne.
Qed.

Lemma burst path n s :
  consistent s ->
  watcher s = true ->
  let s' := run s (repeat (FsEvent path) (S n)) in
  consistent s' /\ watcher s' = true /\ emitted s' = emitted s
  /\ is_Some (debounceTimers s' !! path)
  /\ forall t p, p <> path -> armed s' !! t = Some p <-> armed s !! t = Some p.
Proof.
  revert s. induction n as [|n IH]; intros s Hs Hw.
  - cbn. rewrite Hw.
    destruct (handleChange_effect path s Hs) as (Hw1 & He1 & Hd1 & Ha1).
    split; [by apply WatcherProofs.handleChange_consistent|].
    split; [congruence|]. split; [done|]. split; [by eexists|done].
  - cbn zeta. change (repeat (FsEvent path) (S (S n)))
      with (FsEvent path :: repeat (FsEvent path) (S n)).
    assert (Hrun : run s (FsEvent path :: repeat (FsEvent path) (S n))
                   = run (handleChange path s) (repeat (FsEvent path) (S n))).
    { unfold run. cbn [foldl step]. by rewrite Hw. }
    rewrite Hrun.
    destruct (handleChange_effect path s Hs) as (Hw1 & He1 & Hd1 & Ha1).
    destruct (IH (handleChange path s)) as (Hc & Hw' & He' & Hd' & Ha').
    { by apply WatcherProofs.handleChange_consistent. }
    { congruence. }
    split; [done|]. split; [done|]. split; [congruence|]. split; [done|].
    intros t p Hp. by rewrite Ha', Ha1.
Qed.

End DebounceProofs.

(** X13. The watcher debounces per path. Take the watcher in any state it
    can reach with its handle open, and let one or more events of the file
    system arrive for the same path before any timer reaches its deadline.
    Nothing is emitted meanwhile; afterwards exactly one timer is armed
    for the path, the timers armed for other paths being those armed
    before; and when that timer reaches its deadline the events of one
    change of the path are emitted, once, and no timer is left for the
    path. *)
Theorem debounce_burst_emits_once
    (history : list Watcher.Action) (path : string) (n : nat) :
  let s := Watcher.run Watcher.initial history in
  Watcher.watcher s = true ->
  let s' := Watcher.run s (repeat (Watcher.FsEvent path) (S n)) in
  exists t,
    (forall t', Watcher.armed s' !! t' = Some path <-> t' = t)
    /\ Watcher.emitted s' = Watcher.emitted s
    /\ (forall t' p,
          p <> path ->
          Watcher.armed s' !! t' = Some p <-> Watcher.armed s !! t' = Some p)
    /\ let fired := Watcher.step s' (Watcher.Fire t) in
       Watcher.emitted fired = Watcher.emitted s ++ Watcher.emitChange path
       /\ (forall t', Watcher.armed fired !! t' <> Some path)
       /\ Watcher.debounceTimers fired !! path = None.
Proof.
  intros s Hw s'.
  assert (Hs : Invariants.consistent s).
  { apply WatcherProofs.run_consistent, WatcherProofs.consistent_initial. }
  destruct (DebounceProofs.burst path n s Hs Hw) as (Hc & Hw' & He & [t Ht] & Ha).
  fold s' in Hc, Hw', He, Ht, Ha.
  pose proof Hc as [Hmaps _].
  assert (Harmed : Watcher.armed s' !! t = Some path) by (by apply Hmaps).
  exists t. split; [|split; [done|split; [done|]]].
  - intros t'. rewrite Hmaps, Ht. split; [congruence|by intros ->].
  - cbn [Watcher.step]. rewrite Harmed.
    cbn [Watcher.timeout_callback Watcher.emitted Watcher.armed
         Watcher.debounceTimers].
    split; [by rewrite He|]. split.
    + intros t' [Hne Ha']%lookup_delete_Some. apply Hmaps in Ha'. congruence.
    + apply lookup_delete_eq.
Qed.

(** X13 at a watcher started with a change of the history log pending:
    three changes of one transcript in a row arm one timer, whose deadline
    emits the pair of events of the transcript. *)
Lemma debounce_burst_emits_once_witness :
  let s :=
    Watcher.run Watcher.initial
      [Watcher.Start; Watcher.FsEvent "/home/a/.claude/history.jsonl"] in
  let s' := Watcher.run s (repeat (Watcher.FsEvent Scenario.s1_path) 3) in
  exists t,
    (forall t', Watcher.armed s' !! t' = Some Scenario.s1_path <-> t' = t)
    /\ Watcher.emitted (Watcher.step s' (Watcher.Fire t))
       = Watcher.emitted s ++ Watcher.emitChange Scenario.s1_path.
Proof.
  intros s s'.
  destruct (debounce_burst_emits_once
              [Watcher.Start; Watcher.FsEvent "/home/a/.claude/history.jsonl"]
              Scenario.s1_path 2 eq_refl) as (t & Hone & _ & _ & Hfire & _).
  exists t. split; [exact Hone|exact Hfire].
Defined.

Module PathProofs.
Import Paths StringFacts TextProofs.

Lemma includes_slash s : Js.includes "/" s = negb (no_slash s).
Proof.
  unfold Js.includes, Js.indexOf. generalize 0.
  induction s as [|c s IH]; intros i; [done|].
  cbn [Js.indexOf_from Js.startsWith no_slash].
  rewrite Ascii.eqb_sym. destruct (Ascii.eqb c "/"); [done|]. cbn. apply IH.
Qed.

Lemma no_slash_app a b : no_slash (a +:+ b) = no_slash a && no_slash b.
Proof.
  induction a as [|c a IH]; [by rewrite app_empty_l|].
  rewrite app_cons. cbn. by rewrite IH, andb_assoc.
Qed.

Lemma no_slash_join dir name : no_slash (Js.path_join dir name) = false.
Proof.
  unfold Js.path_join. rewrite !no_slash_app. cbn. by rewrite andb_false_r.
Qed.

Lemma basename_join dir name :
  no_slash name = true -> Js.basename (Js.path_join dir name) = name.
Proof.
  intros Hn. unfold Js.path_join.
  induction dir as [|c dir IH].
  - rewrite app_empty_l, app_cons, app_empty_l. cbn [Js.basename].
    by rewrite includes_slash, Hn.
  - rewrite app_cons. cbn [Js.basename].
    rewrite includes_slash. fold (Js.path_join dir name).
    by rewrite no_slash_join.
Qed.

Lemma before_last_separator_join dir name :
  no_slash name = true -> Js.before_last_separator (Js.path_join dir name) = dir.
Proof.
  intros Hn. unfold Js.path_join.
  induction dir as [|c dir IH].
  - rewrite app_empty_l, app_cons, app_empty_l. cbn [Js.before_last_separator].
    by rewrite includes_slash, Hn.
  - rewrite app_cons. cbn [Js.before_last_separator].
    rewrite includes_slash. fold (Js.path_join dir name).
    rewrite no_slash_join. cbn. unfold Js.path_join. by rewrite IH.
Qed.

Lemma dirname_join dir name :
  no_slash name = true -> dir <> "" -> Js.dirname (Js.path_join dir name) = dir.
Proof.
  intros Hn Hd. unfold Js.dirname.
  rewrite includes_slash, no_slash_join. cbn.
  rewrite before_last_separator_join by done. by destruct dir.
Qed.

Lemma slice_to_app a b : Js.slice_to (String.length a) (a +:+ b) = a.
Proof.
  induction a as [|c a IH]; [by destruct b|].
  rewrite app_cons. cbn. by rewrite IH.
Qed.

Lemma endsWith_app a p : Js.endsWith p (a +:+ p) = true.
Proof.
  unfold Js.endsWith. rewrite length_app_s.
  replace (String.length a + String.length p - String.length p)
    with (String.length a) by lia.
  rewrite LinesProofs.slice_from_app, String.eqb_refl.
  apply andb_true_iff. split; [|done]. apply Nat.leb_le. lia.
Qed.

Lemma app_inj_r (a b q : string) : a +:+ q = b +:+ q -> String.length a = String.length b -> a = b.
Proof.
  revert b. induction a as [|c a IH]; intros [|d b]; cbn; try done.
  rewrite !app_cons. intros [= -> H] [= Hl]. f_equal. by apply IH.
Qed.

(** A pattern without separator is looked for in the last component. *)
Lemma endsWith_join p dir name :
  no_slash p = true ->
  Js.endsWith p (Js.path_join dir name) = Js.endsWith p name.
Proof.
  intros Hp. unfold Js.endsWith, Js.path_join.
  rewrite !length_app_s. cbn [String.length].
  destruct (Nat.leb_spec (String.length p) (String.length name)) as [Hle|Hgt].
  - replace (String.length p <=? String.length dir + (1 + String.length name))
      with true by (symmetry; apply Nat.leb_le; lia).
    cbn [andb].
    replace (String.length dir + (1 + String.length name) - String.length p)
      with (String.length (dir +:+ "/") + (String.length name - String.length p))
      by (rewrite length_app_s; cbn; lia).
    rewrite LinesProofs.slice_from_add, <- app_assoc_s.
    by rewrite LinesProofs.slice_from_app.
  - cbn [andb]. apply andb_false_iff.
    destruct (Nat.leb_spec (String.length p)
                (String.length dir + (1 + String.length name))) as [Hle|Hgt'];
      [right|by left].
    apply String.eqb_neq. intros Heq.
    assert (Hns : no_slash (Js.slice_from
                    (String.length dir + (1 + String.length name) - String.length p)
                    (dir +:+ "/" +:+ name)) = true) by (by rewrite Heq).
    rewrite slice_from_app_le in Hns by lia.
    rewrite !no_slash_app in Hns. cbn in Hns. by rewrite andb_false_r in Hns.
Qed.

Lemma endsWith_same_suffix p x q :
  Js.endsWith (p +:+ q) (x +:+ q) = Js.endsWith p x.
Proof.
  unfold Js.endsWith. rewrite !length_app_s.
  destruct (Nat.leb_spec (String.length p) (String.length x)) as [Hle|Hgt].
  - replace (String.length p + String.length q <=? String.length x + String.length q)
      with true by (symmetry; apply Nat.leb_le; lia).
    cbn [andb].
    replace (String.length x + String.length q - (String.length p + String.length q))
      with (String.length x - String.length p) by lia.
    rewrite slice_from_app_le by lia.
    destruct (String.eqb_spec (Js.slice_from (String.length x - String.length p) x) p)
      as [->|Hne].
    + apply String.eqb_refl.
    + apply String.eqb_neq. intros Heq. apply Hne.
      apply (app_inj_r _ _ q Heq).
      rewrite LinesProofs.slice_from_length. lia.
  - replace (String.length p + String.length q <=? String.length x + String.length q)
      with false by (symmetry; apply Nat.leb_gt; lia).
    done.
Qed.

Lemma basename_ext_join dir sid ext :
  no_slash sid = true -> no_slash ext = true -> sid <> "" ->
  Js.basename_ext (Js.path_join dir (sid +:+ ext)) ext = sid.
Proof.
  intros Hs He Hne. unfold Js.basename_ext.
  assert (Hname : no_slash (sid +:+ ext) = true).
  { by rewrite no_slash_app, Hs, He. }
  destruct (String.eqb_spec ext (Js.path_join dir (sid +:+ ext))) as [Heq|_].
  { pose proof (no_slash_join dir (sid +:+ ext)) as H. rewrite <- Heq in H.
    congruence. }
  rewrite basename_join by done. rewrite endsWith_app. cbn [andb].
  destruct (String.eqb_spec (sid +:+ ext) ext) as [Heq|_].
  { exfalso. assert (String.length (sid +:+ ext) = String.length ext) as Hl
      by (by rewrite Heq).
    rewrite length_app_s in Hl. destruct sid; [done|]. cbn in Hl. lia. }
  cbn [negb]. rewrite length_app_s.
  replace (String.length sid + String.length ext - String.length ext)
    with (String.length sid) by lia.
  apply slice_to_app.
Qed.

End PathProofs.

(** X14. The events of the watcher name the session and the project as the
    storage does. For the transcript [<sessionId>.jsonl] of a project
    directory, at the path [findSessionFile] and [buildFileIndex] give it,
    a change is announced as [sessionChange] with the session id, then
    [projectChange] with the name of the directory, provided the id does
    not end with [history]. A change of a file whose name ends with
    [history.jsonl], the history log or a transcript, is announced as
    [historyChange] alone; a change of a file that does not end with
    [.jsonl] is not announced. *)
Theorem emitChange_names_session_and_project :
  (forall projectsDir dir sessionId,
      projectsDir <> "" ->
      Paths.no_slash (Node.name dir) = true ->
      Paths.no_slash sessionId = true ->
      sessionId <> "" ->
      Js.endsWith "history" sessionId = false ->
      Watcher.emitChange
        (Paths.entry_path projectsDir dir (sessionId +:+ ".jsonl"))
      = [Watcher.sessionChange sessionId; Watcher.projectChange (Node.name dir)])
  /\ (forall dir name,
        Watcher.emitChange (Js.path_join dir (name +:+ "history.jsonl"))
        = [Watcher.historyChange])
  /\ (forall path,
        Js.endsWith ".jsonl" path = false -> Watcher.emitChange path = []).
Proof.
  split; [|split].
  - intros projectsDir dir sessionId Hp Hd Hs Hne Hh.
    unfold Watcher.emitChange, Paths.entry_path.
    rewrite PathProofs.endsWith_join by done.
    change "history.jsonl" with ("history" +:+ ".jsonl").
    rewrite (PathProofs.endsWith_same_suffix "history" sessionId ".jsonl"), Hh.
    rewrite PathProofs.endsWith_join by done.
    rewrite PathProofs.endsWith_app.
    rewrite PathProofs.basename_ext_join by done.
    rewrite PathProofs.dirname_join.
    + by rewrite PathProofs.basename_join.
    + by rewrite PathProofs.no_slash_app, Hs.
    + unfold Js.path_join. destruct projectsDir; [done|].
      by rewrite StringFacts.app_cons.
  - intros dir name. unfold Watcher.emitChange.
    rewrite PathProofs.endsWith_join by done.
    by rewrite PathProofs.endsWith_app.
  - intros path Hj. unfold Watcher.emitChange. rewrite Hj.
    destruct (Js.endsWith "history.jsonl" path) eqn:Hh; [|done].
    exfalso. unfold Js.endsWith in Hh, Hj.
    apply andb_true_iff in Hh as [Hlen%Nat.leb_le Heq%String.eqb_eq].
    change (String.length "history.jsonl") with 13 in *.
    change (String.length ".jsonl") with 6 in *.
    assert (Js.slice_from (String.length path - 6) path = ".jsonl") as Hs.
    { replace (String.length path - 6) with (String.length path - 13 + 7) by lia.
      by rewrite LinesProofs.slice_from_add, Heq. }
    rewrite Hs, String.eqb_refl, andb_true_r in Hj.
    apply Nat.leb_gt in Hj. lia.
Qed.

(** X14 at the transcript of session [s1]. *)
Lemma emitChange_names_session_and_project_witness :
  Watcher.emitChange Scenario.s1_path
  = [Watcher.sessionChange "s1"; Watcher.projectChange "-Users-a-app-x"].
Proof.
  apply (proj1 emitChange_names_session_and_project Scenario.projectsDir
           {| Node.name := "-Users-a-app-x"; Node.isDirectory := true |} "s1");
    by vm_compute.
Defined.

Module ForkProofs.
Import SessionView SessionStream Tree.

Lemma fork_map messages : foldl fork_step ∅ messages = (index_messages messages).1.
Proof.
  unfold index_messages.
  induction messages as [|msg ms IH] using rev_ind; [done|].
  rewrite !foldl_snoc, IH. unfold fork_step, index_step.
  by destruct (parentUuid msg).
Qed.

End ForkProofs.

(** X15. [getForkPoints] maps a uuid to the messages that name it as their
    parent, in file order, exactly when there are at least two of them; it
    is built from the same map of children as [buildBranch] uses. So the
    view offers a choice of branch at a message exactly when two or more
    messages name its uuid as parent. *)
Theorem getForkPoints_two_or_more_children
    (messages : list json) (u : string) :
  SessionStream.getForkPoints messages !! u
  = (if 1 <? length (Tree.children_of messages u)
     then Some (Tree.children_of messages u) else None)
  /\ SessionStream.getForkPoints messages
     = filter (fun entry => 1 < length entry.2)
         (SessionView.index_messages messages).1.
Proof.
  unfold SessionStream.getForkPoints. rewrite ForkProofs.fork_map.
  split; [|done].
  destruct (BranchProofs.index_messages_spec messages) as [_ Hc].
  specialize (Hc u).
  destruct ((SessionView.index_messages messages).1 !! u) as [cs|] eqn:E.
  - destruct (Tree.children_of messages u) as [|c cs'] eqn:Ech; [done|].
    injection Hc as ->.
    destruct (Nat.ltb_spec 1 (length (c :: cs'))) as [Hlt|Hge].
    + by apply map_lookup_filter_Some_2.
    + apply map_lookup_filter_None_2. right. intros x Hx. cbn.
      rewrite E in Hx. injection Hx as <-. lia.
  - destruct (Tree.children_of messages u) as [|c cs'] eqn:Ech; [|done].
    cbn. apply map_lookup_filter_None_2. by left.
Qed.

Module BranchSwitchProofs.
Import SessionView Tree Invariants.

Lemma uuid_inv m u :
  uuid m = Some u -> as_string (get "uuid" m) = Some u /\ Js.truthy_str u = true.
Proof.
  unfold uuid, truthy_field. destruct (as_string (get "uuid" m)) as [s|]; [|done].
  destruct (Js.truthy_str s) eqn:E; [|done]. by intros [= <-].
Qed.

Lemma has_uuid_uuid chosen c :
  Js.truthy_str chosen = true -> has_uuid chosen c = true -> uuid c = Some chosen.
Proof.
  unfold has_uuid, uuid, truthy_field.
  destruct (as_string (get "uuid" c)) as [s|]; [|done].
  intros Ht ->%String.eqb_eq. by rewrite Ht.
Qed.

(** The walk only ever extends the chain it is given, by the message it
    stands on first. *)
Lemma walk_extends fuel cm choices cur chain r :
  walk fuel cm choices cur chain = Some r -> exists path, r = chain ++ cur :: path.
Proof.
  revert cur chain. induction fuel as [|fuel IH]; intros cur chain; [done|].
  cbn [walk].
  destruct (uuid cur ≫= (cm !!.)) as [[|c cs]|].
  - intros [= <-]. by exists [].
  - destruct (next_child choices cur (c :: cs)) as [next|].
    + intros (path & ->)%IH. exists (next :: path). by rewrite <- app_assoc.
    + intros [= <-]. by exists [].
  - intros [= <-]. by exists [].
Qed.

Lemma walk_more_fuel fuel fuel' cm choices cur chain r :
  walk fuel cm choices cur chain = Some r -> fuel <= fuel' ->
  walk fuel' cm choices cur chain = Some r.
Proof.
  revert fuel' cur chain. induction fuel as [|fuel IH]; intros fuel' cur chain; [done|].
  destruct fuel' as [|fuel']; [lia|]. cbn [walk].
  destruct (uuid cur ≫= (cm !!.)) as [[|c cs]|]; [done| |done].
  destruct (next_child choices cur (c :: cs)) as [next|]; [|done].
  intros H Hle. apply IH; [done|lia].
Qed.

Lemma next_child_choice ch1 ch2 cur children :
  choice_of ch1 cur = choice_of ch2 cur ->
  next_child ch1 cur children = next_child ch2 cur children.
Proof. unfold next_child. by intros ->. Qed.

(** Two walks from the same message agree as far as the recorded choices
    agree, and the message after that is the child selected there. *)
Lemma walk_switch_at cm ch1 ch2 m u c0 cs c pre :
  uuid m = Some u ->
  cm !! u = Some (c0 :: cs) ->
  next_child ch2 m (c0 :: cs) = Some c ->
  forall fuel1 fuel2 cur chain rest r2,
    walk fuel1 cm ch1 cur chain = Some (chain ++ pre ++ m :: rest) ->
    walk fuel2 cm ch2 cur chain = Some r2 ->
    Forall (fun x => choice_of ch1 x = choice_of ch2 x) pre ->
    exists rest', r2 = chain ++ pre ++ m :: c :: rest'.
Proof.
  intros Hu Hcm Hnext. induction pre as [|x pre IH];
    intros fuel1 fuel2 cur chain rest r2 H1 H2 Hsame.
  - cbn [app] in *.
    destruct (walk_extends _ _ _ _ _ _ H1) as [path1 Hp1].
    apply app_inv_head in Hp1. injection Hp1 as <- _.
    destruct fuel2 as [|fuel2]; [done|]. cbn [walk] in H2.
    rewrite Hu in H2. cbn in H2. rewrite Hcm, Hnext in H2.
    destruct (walk_extends _ _ _ _ _ _ H2) as [path2 ->].
    exists path2. by rewrite <- app_assoc.
  - cbn [app] in *. inversion Hsame as [|? ? Hx Hpre]; subst.
    destruct (walk_extends _ _ _ _ _ _ H1) as [path1 Hp1].
    apply app_inv_head in Hp1. injection Hp1 as <- Hpath1.
    destruct fuel1 as [|fuel1]; [done|]. destruct fuel2 as [|fuel2]; [done|].
    cbn [walk] in H1, H2.
    destruct (uuid x ≫= (cm !!.)) as [[|d ds]|] eqn:Ech.
    + injection H1 as H1. apply app_inv_head in H1. injection H1 as H1.
      by destruct pre.
    + rewrite <- (next_child_choice ch1 ch2 x (d :: ds) Hx) in H2.
      destruct (next_child ch1 x (d :: ds)) as [next|].
      * replace (chain ++ x :: pre ++ m :: rest)
          with ((chain ++ [x]) ++ pre ++ m :: rest) in H1
          by (by rewrite <- app_assoc).
        destruct (IH _ _ _ _ _ _ H1 H2 Hpre) as [rest' ->].
        exists rest'. by rewrite <- app_assoc.
      * injection H1 as H1. apply app_inv_head in H1. injection H1 as H1.
        by destruct pre.
    + injection H1 as H1. apply app_inv_head in H1. injection H1 as H1.
      by destruct pre.
Qed.

(** Along a descending path the depth grows. *)
Lemma descends_deeper messages depth x l :
  Forall (ranked depth) messages ->
  descends messages (x :: l) ->
  forall y ux uy,
    y ∈ l -> uuid x = Some ux -> uuid y = Some uy -> depth ux < depth uy.
Proof.
  intros Hrank. revert x. induction l as [|c l IH]; intros x Hd y ux uy Hy Hx Huy.
  { by apply elem_of_nil in Hy. }
  inversion Hd as [|? ? ? u Hu Hc Hd']; subst.
  assert (u = ux) as -> by congruence.
  apply list_elem_of_filter in Hc as [Hpar Hin].
  rewrite Forall_forall in Hrank. pose proof (Hrank c Hin) as Hrc.
  unfold ranked in Hrc. rewrite Hpar in Hrc.
  apply elem_of_cons in Hy as [->|Hy].
  - by rewrite Huy in Hrc.
  - destruct l as [|c' l']; [by apply elem_of_nil in Hy|].
    inversion Hd' as [|? ? ? uc Huc Hc' Hd'']; subst.
    rewrite Huc in Hrc.
    pose proof (IH c Hd' y uc uy Hy Huc Huy). lia.
Qed.

Lemma descends_cons_inv messages x l :
  descends messages (x :: l) -> l = [] \/ descends messages l.
Proof. intros H. inversion H; subst; [by left|by right]. Qed.

Lemma descends_suffix messages pre l :
  l <> [] -> descends messages (pre ++ l) -> descends messages l.
Proof.
  intros Hl. induction pre as [|x pre IH]; [done|]. cbn [app].
  intros [Hnil|Hd]%descends_cons_inv; [by destruct pre, l|by apply IH].
Qed.

Lemma descends_before messages depth pre m rest u :
  Forall (ranked depth) messages ->
  descends messages (pre ++ m :: rest) ->
  uuid m = Some u ->
  Forall (fun x => uuid x <> Some u) pre.
Proof.
  intros Hrank Hd Hu. induction pre as [|x pre IH]; [constructor|].
  cbn [app] in Hd. constructor.
  - intros Hx.
    assert (depth u < depth u); [|lia].
    eapply (descends_deeper messages depth x (pre ++ m :: rest) Hrank Hd m u u);
      [|done..].
    apply elem_of_app. right. by left.
  - apply IH. apply (descends_suffix messages [x]); [by destruct pre|done].
Qed.

Lemma descends_not_root messages x l :
  descends messages (x :: l) ->
  Forall (fun y => is_Some (parentUuid y) /\ y ∈ messages) l.
Proof.
  revert x. induction l as [|c l IH]; intros x Hd; [constructor|].
  inversion Hd as [|? ? ? u Hu Hc Hd']; subst.
  apply list_elem_of_filter in Hc as [Hpar Hin].
  constructor; [split; [by eexists|done]|]. by eapply IH.
Qed.

(** [buildBranch] on messages with a root. *)
Lemma buildBranch_walk fuel messages choices root others :
  filter (fun m => parentUuid m = None) messages = root :: others ->
  buildBranch fuel messages choices
  = walk fuel (index_messages messages).1 choices root [].
Proof.
  intros Hroots. unfold buildBranch.
  destruct (BranchProofs.index_messages_spec messages) as [Hr _].
  destruct messages as [|m0 ms]; [done|].
  destruct (index_messages (m0 :: ms)) as [cm roots]. cbn [fst snd] in *.
  by rewrite Hr, Hroots.
Qed.

Lemma root_path messages choices depth root others :
  filter (fun m => parentUuid m = None) messages = root :: others ->
  Forall (ranked depth) messages ->
  exists path,
    descends messages (root :: path)
    /\ forall fuel,
        depth_bound depth messages + 1 < fuel ->
        buildBranch fuel messages choices = Some (root :: path).
Proof.
  intros Hroots Hrank.
  assert (Hin : root ∈ messages).
  { assert (root ∈ filter (fun m => parentUuid m = None) messages) as H
      by (rewrite Hroots; by left).
    by apply list_elem_of_filter in H as [_ ?]. }
  set (B := depth_bound depth messages).
  assert (Hh : height depth B root <= B).
  { unfold height. destruct (uuid root); lia. }
  destruct (BranchProofs.walk_descends messages choices depth B Hrank
              (BranchProofs.depth_bound_spec depth messages) B root [] Hin Hh)
    as (path & Hdesc & Hwalk).
  exists path. split; [done|]. intros fuel' Hf.
  rewrite (buildBranch_walk fuel' messages choices root others Hroots).
  apply Hwalk. lia.
Qed.

End BranchSwitchProofs.

(** X16. When some message has no parent and the links are acyclic (some
    depth grows from every parent to its child), [buildBranch] returns,
    for every fuel above a bound and whatever choices are recorded, one
    path: it starts at the first message without parent, goes from each
    message to one of the messages that name it as parent, and ends at a
    message without children. Every message of the path after the first
    has a parent and belongs to the input, so the other messages without
    parent, and what hangs below them, are never part of the branch. *)
Theorem buildBranch_root_to_leaf
    (messages : list json) (branchChoices : gmap string string)
    (depth : string -> nat) (root : json) (others : list json) :
  filter (fun m => SessionView.parentUuid m = None) messages = root :: others ->
  Forall (Tree.ranked depth) messages ->
  exists path,
    Tree.descends messages (root :: path)
    /\ Forall (fun m => is_Some (SessionView.parentUuid m) /\ m ∈ messages) path
    /\ Forall (fun m => m ∉ path) others
    /\ forall fuel,
        Tree.depth_bound depth messages + 1 < fuel ->
        SessionView.buildBranch fuel messages branchChoices = Some (root :: path).
Proof.
  intros Hroots Hrank.
  destruct (BranchSwitchProofs.root_path messages branchChoices depth root others
              Hroots Hrank) as (path & Hdesc & Hwalk).
  pose proof (BranchSwitchProofs.descends_not_root messages root path Hdesc) as Hpath.
  exists path. split; [done|]. split; [done|]. split; [|done].
  apply Forall_forall. intros o Ho Hin.
  rewrite Forall_forall in Hpath. destruct (Hpath o Hin) as [[p Hp] _].
  assert (o ∈ filter (fun m => SessionView.parentUuid m = None) messages) as H.
  { rewrite Hroots. by right. }
  apply list_elem_of_filter in H as [Hnone _]. congruence.
Qed.

(** X16 on the messages with the root [r], its children [a] and [b], and
    the reply [c] to [b]. *)
Lemma buildBranch_root_to_leaf_witness :
  exists path,
    Tree.descends Scenario.fork (Scenario.node "r" None :: path)
    /\ forall fuel,
        Tree.depth_bound Scenario.fork_depth Scenario.fork + 1 < fuel ->
        SessionView.buildBranch fuel Scenario.fork ∅
        = Some (Scenario.node "r" None :: path).
Proof.
  destruct (buildBranch_root_to_leaf Scenario.fork ∅ Scenario.fork_depth
              (Scenario.node "r" None) [] eq_refl ltac:(repeat constructor))
    as (path & Hdesc & _ & _ & Hwalk).
  by exists path.
Defined.

(** X17. The click on a branch button switches the branch at that message
    and nowhere above it. Let [buildBranch] show the message [m] after the
    messages [pre], the links being acyclic and some message having no
    parent, and let [b], with a uuid, be one of the messages that name [m]
    as parent. After the choice of [b] at [m] is recorded, [buildBranch]
    shows the same messages [pre], then [m], then the first message naming
    [m] as parent that has the uuid of [b] (which is [b] when its uuid is
    its own), and goes on from there down to a message without children. *)
Theorem chooseBranch_switches_at_message
    (messages : list json) (branchChoices : gmap string string)
    (depth : string -> nat) (root : json) (others pre rest : list json)
    (m b : json) (u ub : string) (fuel0 : nat) :
  filter (fun x => SessionView.parentUuid x = None) messages = root :: others ->
  Forall (Tree.ranked depth) messages ->
  SessionView.buildBranch fuel0 messages branchChoices = Some (pre ++ m :: rest) ->
  SessionView.uuid m = Some u ->
  b ∈ Tree.children_of messages u ->
  SessionView.uuid b = Some ub ->
  exists c rest',
    c ∈ Tree.children_of messages u
    /\ SessionView.uuid c = Some ub
    /\ Tree.descends messages (pre ++ m :: c :: rest')
    /\ forall fuel,
        Tree.depth_bound depth messages + 1 < fuel ->
        SessionView.buildBranch fuel messages
          (SessionView.chooseBranch m b branchChoices)
        = Some (pre ++ m :: c :: rest').
Proof.
  intros Hroots Hrank Hold Hu Hb Hub.
  set (choices' := SessionView.chooseBranch m b branchChoices).
  assert (Hch' : choices' = <[u := ub]> branchChoices).
  { subst choices'. unfold SessionView.chooseBranch. by rewrite Hu, Hub. }
  destruct (BranchSwitchProofs.uuid_inv b ub Hub) as [Hbs Hbt].
  (* the children of [m] and the child selected under the new choices *)
  destruct (BranchProofs.index_messages_spec messages) as [_ Hc].
  specialize (Hc u).
  destruct (Tree.children_of messages u) as [|c0 cs] eqn:Ech.
  { by apply elem_of_nil in Hb. }
  assert (Hfind : exists c,
             List.find (SessionView.has_uuid ub) (c0 :: cs) = Some c).
  { destruct (List.find (SessionView.has_uuid ub) (c0 :: cs)) as [c|] eqn:Ef;
      [by exists c|].
    exfalso. apply list_elem_of_In in Hb.
    pose proof (find_none _ _ Ef b Hb) as Hn.
    unfold SessionView.has_uuid in Hn. by rewrite Hbs, String.eqb_refl in Hn. }
  destruct Hfind as [c Hfind].
  assert (Hnext : SessionView.next_child choices' m (c0 :: cs) = Some c).
  { unfold SessionView.next_child, SessionView.choice_of.
    rewrite Hu, Hch'. cbn -[List.find]. rewrite lookup_insert_eq.
    cbn -[List.find]. by rewrite Hbt, Hfind. }
  pose proof (find_some _ _ Hfind) as [Hcin Hcu].
  apply list_elem_of_In in Hcin.
  apply (BranchSwitchProofs.has_uuid_uuid ub c Hbt) in Hcu.
  (* the old and the new branch *)
  destruct (BranchSwitchProofs.root_path messages branchChoices depth root others
              Hroots Hrank) as (path1 & Hdesc1 & Hwalk1).
  destruct (BranchSwitchProofs.root_path messages choices' depth root others
              Hroots Hrank) as (path2 & Hdesc2 & Hwalk2).
  set (F := S (Nat.max fuel0 (Tree.depth_bound depth messages + 1))).
  rewrite (BranchSwitchProofs.buildBranch_walk fuel0 messages branchChoices root
             others Hroots) in Hold.
  apply (BranchSwitchProofs.walk_more_fuel fuel0 F) in Hold; [|subst F; lia].
  pose proof (Hwalk1 F ltac:(subst F; lia)) as H1.
  rewrite (BranchSwitchProofs.buildBranch_walk F messages branchChoices root
             others Hroots), Hold in H1.
  injection H1 as H1.
  pose proof (Hwalk2 F ltac:(subst F; lia)) as H2.
  rewrite (BranchSwitchProofs.buildBranch_walk F messages choices' root
             others Hroots) in H2.
  (* above [m] the recorded choices are the same *)
  assert (Hsame : Forall (fun x => SessionView.choice_of branchChoices x
                                   = SessionView.choice_of choices' x) pre).
  { rewrite <- H1 in Hdesc1.
    pose proof (BranchSwitchProofs.descends_before messages depth pre m rest u
                  Hrank Hdesc1 Hu) as Hbefore.
    eapply Forall_impl; [exact Hbefore|]. intros x Hx.
    unfold SessionView.choice_of.
    destruct (SessionView.uuid x) as [ux|] eqn:Ex; [|done].
    cbn. rewrite Hch'. rewrite lookup_insert_ne; [done|]. intros Heq. apply Hx.
    by rewrite Ex, Heq. }
  destruct (BranchSwitchProofs.walk_switch_at _ branchChoices choices' m u c0 cs c
              pre Hu Hc Hnext F F root [] rest _ Hold H2 Hsame) as [rest' Hshape].
  cbn [app] in Hshape.
  exists c, rest'. split; [done|].
  split; [done|]. split.
  - rewrite <- Hshape. done.
  - intros fuel Hf. rewrite (Hwalk2 fuel Hf). by rewrite Hshape.
Qed.

(** X17 on the messages with the root [r], its children [a] and [b], and
    the reply [c] to [b], where the branch shown is [r; b; c]: after the
    choice of [a] at [r] the branch goes from [r] to a message with the
    uuid of [a]. *)
Lemma chooseBranch_switches_at_message_witness :
  exists c rest',
    SessionView.uuid c = Some "a"
    /\ forall fuel,
        Tree.depth_bound Scenario.fork_depth Scenario.fork + 1 < fuel ->
        SessionView.buildBranch fuel Scenario.fork
          (SessionView.chooseBranch (Scenario.node "r" None)
             (Scenario.node "a" (Some "r")) ∅)
        = Some ([] ++ Scenario.node "r" None :: c :: rest').
Proof.
  assert (Hchild : Scenario.node "a" (Some "r")
                   ∈ Tree.children_of Scenario.fork "r").
  { assert (Tree.children_of Scenario.fork "r"
            = [Scenario.node "a" (Some "r"); Scenario.node "b" (Some "r")]) as ->
      by (by vm_compute).
    by left. }
  destruct (chooseBranch_switches_at_message Scenario.fork ∅ Scenario.fork_depth
              (Scenario.node "r" None) [] []
              [Scenario.node "b" (Some "r"); Scenario.node "c" (Some "b")]
              (Scenario.node "r" None) (Scenario.node "a" (Some "r")) "r" "a" 5
              eq_refl ltac:(repeat constructor) ltac:(by vm_compute) eq_refl
              Hchild eq_refl)
    as (c & rest' & _ & Hc & _ & Hwalk).
  by exists c, rest'.
Defined.

Module MergeProofs.
Import SessionView SessionStream.

Lemma merge_messages_spec prev batch :
  merge_messages prev batch
  = prev ++ filter (fun m => is_unique (omap uuid prev) m = true) batch.
Proof.
  unfold merge_messages. destruct (filter _ batch); [by rewrite app_nil_r|done].
Qed.

Lemma is_unique_true ids m :
  is_unique ids m = true <-> forall u, uuid m = Some u -> u ∉ ids.
Proof.
  unfold is_unique. destruct (uuid m) as [u|]; [|by split].
  rewrite negb_true_iff, bool_decide_eq_false. split.
  - by intros H u' [= <-].
  - intros H. by apply H.
Qed.

Lemma elem_of_omap_uuid (l : list json) u :
  u ∈ omap uuid l <-> exists m, m ∈ l /\ uuid m = Some u.
Proof. apply list_elem_of_omap. Qed.

Lemma omap_uuid_filter_NoDup (P : json -> Prop) `{!forall m, Decision (P m)}
    (l : list json) :
  NoDup (omap uuid l) -> NoDup (omap uuid (filter P l)).
Proof.
  induction l as [|m l IH]; [done|].
  rewrite TokenProofs.omap_cons_match, filter_cons.
  destruct (uuid m) as [u|] eqn:Eu.
  - intros [Hu Hnd]%NoDup_cons. destruct (decide (P m)); [|by apply IH].
    rewrite TokenProofs.omap_cons_match, Eu. apply NoDup_cons. split; [|by apply IH].
    intros (m' & [_ Hm']%list_elem_of_filter & Hu')%elem_of_omap_uuid.
    apply Hu. apply elem_of_omap_uuid. by exists m'.
  - intros Hnd. destruct (decide (P m)); [|by apply IH].
    rewrite TokenProofs.omap_cons_match, Eu. by apply IH.
Qed.

Lemma filter_none {A} (P : A -> Prop) `{!forall x, Decision (P x)} (l : list A) :
  Forall (fun x => ~ P x) l -> filter P l = [].
Proof.
  induction 1 as [|x l Hx _ IH]; [done|]. rewrite filter_cons, IH.
  by rewrite decide_False.
Qed.

End MergeProofs.

(** X18. The listener of the [messages] event appends, to the messages
    received so far, the messages of the batch whose uuid is not the uuid
    of a message received before; a message without uuid is always
    appended. So when every message of a batch has a uuid, delivering the
    batch a second time changes nothing; and when no two messages received
    so far share a uuid, and no two of the batch, no two messages share a
    uuid afterwards. *)
Theorem merge_messages_appends_unseen (prev batch : list json) :
  (SessionStream.merge_messages prev batch
   = prev ++ filter (fun m => SessionStream.is_unique
                                (omap SessionView.uuid prev) m = true) batch
   /\ forall m,
       SessionStream.is_unique (omap SessionView.uuid prev) m = true
       <-> forall u, SessionView.uuid m = Some u ->
                     u ∉ omap SessionView.uuid prev)
  /\ (Forall (fun m => is_Some (SessionView.uuid m)) batch ->
      SessionStream.merge_messages (SessionStream.merge_messages prev batch) batch
      = SessionStream.merge_messages prev batch)
  /\ (NoDup (omap SessionView.uuid prev) ->
      NoDup (omap SessionView.uuid batch) ->
      NoDup (omap SessionView.uuid (SessionStream.merge_messages prev batch))).
Proof.
  split; [|split].
  - split; [apply MergeProofs.merge_messages_spec|].
    intros m. apply MergeProofs.is_unique_true.
  - intros Hall.
    rewrite (MergeProofs.merge_messages_spec (SessionStream.merge_messages _ _)).
    rewrite MergeProofs.filter_none; [by rewrite app_nil_r|].
    apply Forall_forall. intros m Hm Huniq.
    rewrite Forall_forall in Hall. destruct (Hall m Hm) as [u Hu].
    pose proof (proj1 (MergeProofs.is_unique_true _ _) Huniq) as Hfresh.
    apply (Hfresh u Hu).
    rewrite MergeProofs.merge_messages_spec, omap_app, elem_of_app.
    destruct (decide (u ∈ omap SessionView.uuid prev)) as [Hin|Hnin]; [by left|].
    right. apply MergeProofs.elem_of_omap_uuid. exists m. split; [|done].
    apply list_elem_of_filter. split; [|done].
    apply MergeProofs.is_unique_true. intros u' Hu'. congruence.
  - intros Hprev Hbatch.
    rewrite MergeProofs.merge_messages_spec, omap_app. apply NoDup_app.
    split; [done|]. split; [|by apply MergeProofs.omap_uuid_filter_NoDup].
    intros u Hin (m & [Huniq _]%list_elem_of_filter & Hu)%MergeProofs.elem_of_omap_uuid.
    pose proof (proj1 (MergeProofs.is_unique_true _ _) Huniq) as Hfresh.
    by apply (Hfresh u Hu).
Qed.

(** X18 on the user and the assistant message of the transcript: the
    batch is appended once, however often it is delivered; a message
    without uuid is appended at each delivery. *)
Lemma merge_messages_appends_unseen_witness :
  let batch := [Scenario.user_msg; Scenario.assistant_msg] in
  SessionStream.merge_messages (SessionStream.merge_messages [] batch) batch
  = SessionStream.merge_messages [] batch
  /\ SessionStream.merge_messages
       (SessionStream.merge_messages [] [Scenario.summary_msg])
       [Scenario.summary_msg]
     = [Scenario.summary_msg; Scenario.summary_msg].
Proof.
  intros batch. split; [|by vm_compute].
  apply (proj1 (proj2 (merge_messages_appends_unseen [] batch))).
  repeat constructor; by eexists.
Defined.

Module AppProofs.
Import Storage App.

Fixpoint map_get (k : string) (m : list (string * Session)) : option Session :=
  match m with
  | [] => None
  | (k', v) :: rest => if String.eqb k k' then Some v else map_get k rest
  end.

Lemma map_get_set k v m : map_get k (map_set k v m) = Some v.
Proof.
  induction m as [|[k' v'] m IH]; cbn.
  - by rewrite String.eqb_refl.
  - destruct (String.eqb k k') eqn:E; cbn; rewrite ?String.eqb_refl, ?E; done.
Qed.

Lemma map_get_set_ne k k' v m :
  k <> k' -> map_get k' (map_set k v m) = map_get k' m.
Proof.
  intros Hne. induction m as [|[k0 v0] m IH]; cbn.
  - destruct (String.eqb_spec k' k); [congruence|done].
  - destruct (String.eqb_spec k k0) as [<-|Hk]; cbn.
    + destruct (String.eqb_spec k' k); [congruence|done].
    + by rewrite IH.
Qed.

Lemma map_set_keys k v m :
  forall k0, k0 ∈ (map_set k v m).*1 <-> k0 = k \/ k0 ∈ m.*1.
Proof.
  induction m as [|[k' v'] m IH]; intros k0; cbn.
  - rewrite list_elem_of_singleton, elem_of_nil. tauto.
  - destruct (String.eqb_spec k k') as [<-|Hk]; cbn.
    + rewrite !elem_of_cons. tauto.
    + rewrite !elem_of_cons, IH. tauto.
Qed.

Lemma map_set_NoDup k v m : NoDup m.*1 -> NoDup (map_set k v m).*1.
Proof.
  induction m as [|[k' v'] m IH]; cbn.
  - intros _. apply NoDup_singleton.
  - intros [Hk' Hnd]%NoDup_cons.
    destruct (String.eqb_spec k k') as [<-|Hk]; cbn.
    + by apply NoDup_cons.
    + apply NoDup_cons. split; [|by apply IH].
      rewrite map_set_keys. intros [?|?]; [congruence|done].
Qed.

Lemma map_get_elem k v m :
  NoDup m.*1 -> (k, v) ∈ m <-> map_get k m = Some v.
Proof.
  induction m as [|[k' v'] m IH]; cbn.
  - intros _. rewrite elem_of_nil. by split.
  - intros [Hk' Hnd]%NoDup_cons. rewrite elem_of_cons, (IH Hnd).
    destruct (String.eqb_spec k k') as [<-|Hk].
    + split.
      * intros [[= <-]|Hin]; [done|].
        exfalso. apply Hk'. apply (IH Hnd) in Hin.
        apply list_elem_of_fmap. by exists (k, v).
      * intros [= <-]. by left.
    + split; [intros [[= ? ?]|?]; [congruence|done]|by right].
Qed.

(** The map built from a list of sessions holds, for each id, the last
    session of the list with that id, under that id. *)
Lemma map_fold_spec sessions :
  let m := foldl (fun m s => map_set (id s) s m) [] sessions in
  NoDup m.*1
  /\ forall k, map_get k m = last (filter (fun s => id s = k) sessions).
Proof.
  induction sessions as [|s l IH] using rev_ind.
  { cbn. split; [constructor|done]. }
  cbn zeta in *. rewrite foldl_snoc. destruct IH as [Hnd Hget].
  split; [by apply map_set_NoDup|].
  intros k. rewrite filter_app, filter_cons, filter_nil.
  destruct (decide (id s = k)) as [<-|Hne].
  - by rewrite map_get_set, last_snoc.
  - rewrite map_get_set_ne by done. by rewrite app_nil_r.
Qed.

Lemma last_filter_id (k : string) (l : list Session) s :
  last (filter (fun x => id x = k) l) = Some s -> id s = k.
Proof.
  intros H. apply last_Some in H as [l' H].
  assert (s ∈ filter (fun x => id x = k) l) as Hin.
  { rewrite H. apply elem_of_app. right. by left. }
  by apply list_elem_of_filter in Hin as [? _].
Qed.

End AppProofs.

(** X19. [handleSessionsUpdate] keeps one session per id: the result
    holds, for every id that occurs among the sessions shown so far or
    among the updates, the last session with that id, the updates coming
    after the sessions shown so far, and nothing else; no two sessions of
    the result share an id; the result is in descending order of
    timestamp. *)
Theorem handleSessionsUpdate_last_per_id
    (updates prev : list Storage.Session) :
  let result := App.handleSessionsUpdate updates prev in
  (forall s,
      s ∈ result
      <-> last (filter (fun x => Storage.id x = Storage.id s) (prev ++ updates))
          = Some s)
  /\ NoDup (Storage.id <$> result)
  /\ StronglySorted
       (fun a b => (Storage.timestamp b <= Storage.timestamp a)%Z) result.
Proof.
  intros result. subst result. unfold App.handleSessionsUpdate, App.map_of.
  rewrite <- foldl_app.
  destruct (AppProofs.map_fold_spec (prev ++ updates)) as [Hnd Hget].
  set (m := foldl _ [] (prev ++ updates)) in *.
  assert (Hval : forall s, s ∈ m.*2 <-> AppProofs.map_get (Storage.id s) m = Some s).
  { intros s. rewrite list_elem_of_fmap. split.
    - intros ([k v] & -> & Hin). cbn.
      pose proof (proj1 (AppProofs.map_get_elem k v m Hnd) Hin) as Hk.
      rewrite Hget in Hk. apply AppProofs.last_filter_id in Hk as Hid.
      rewrite Hid. by rewrite Hget.
    - intros H. exists (Storage.id s, s). split; [done|].
      by apply AppProofs.map_get_elem. }
  split; [|split].
  - intros s. rewrite SessionListFacts.elem_of_sort_desc, Hval. by rewrite Hget.
  - rewrite (SearchProofs.sort_desc_perm Storage.timestamp).
    assert (Storage.id <$> m.*2 = m.*1) as ->; [|done].
    assert (Hkeys : Forall (fun kv => Storage.id kv.2 = kv.1) m).
    { apply Forall_forall. intros [k v] Hin. cbn.
      apply (AppProofs.map_get_elem k v m Hnd) in Hin. rewrite Hget in Hin.
      by apply AppProofs.last_filter_id in Hin. }
    clear -Hkeys. induction Hkeys as [|[k v] m' Hk _ IH]; [done|].
    cbn in *. by rewrite Hk, IH.
  - apply SortProofs.sort_desc_sorted.
Qed.

Module ClassIndexProofs.
Import Storage Catalog Paths.

Lemma find_target target files :
  List.find (fun file => String.eqb file target) files
  = if bool_decide (target ∈ files) then Some target else None.
Proof.
  induction files as [|f files IH]; [done|]. cbn [List.find].
  destruct (String.eqb_spec f target) as [->|Hne].
  - rewrite bool_decide_eq_true_2; [done|by left].
  - rewrite IH. apply (f_equal (fun b : bool => if b then Some target else None)).
    apply bool_decide_ext. rewrite elem_of_cons.
    split; [tauto|]. intros [?|?]; [congruence|done].
Qed.

(** The loop of the class either is left by an exception or finds what
    the scan of [api/storage.ts] finds; it is left by an exception only
    when some directory cannot be listed. *)
Lemma scan_spec fs projectsDir sessionId projectDirs :
  let found :=
    (fun dir => entry_path projectsDir dir (sessionId +:+ ".jsonl"))
      <$> List.find (holds fs projectsDir (sessionId +:+ ".jsonl"))
            (filter (fun d => Node.isDirectory d = true) projectDirs) in
  (ClaudeStorageFiles.scan fs projectsDir sessionId projectDirs = None
   \/ ClaudeStorageFiles.scan fs projectsDir sessionId projectDirs = Some found)
  /\ (Forall (fun dir =>
                is_Some (Node.readdir fs (Js.path_join projectsDir (Node.name dir))))
        (filter (fun d => Node.isDirectory d = true) projectDirs) ->
      ClaudeStorageFiles.scan fs projectsDir sessionId projectDirs = Some found).
Proof.
  induction projectDirs as [|dir rest IH]; [by split; [right|]|].
  cbn zeta in *. cbn [ClaudeStorageFiles.scan]. rewrite filter_cons.
  destruct (Node.isDirectory dir) eqn:Hd; cbn [negb].
  2:{ rewrite decide_False by done. exact IH. }
  rewrite decide_True by done. cbn [List.find]. unfold holds at 1 3.
  destruct (Node.readdir fs _) as [files|] eqn:Hls.
  - rewrite find_target.
    destruct (bool_decide (sessionId +:+ ".jsonl" ∈ files)).
    + split; [by right|done].
    + destruct IH as [IH1 IH2]. split; [done|].
      intros Hall. apply IH2. by inversion Hall.
  - split; [by left|]. intros Hall. inversion Hall as [|? ? [? ?] ?]; subst.
    congruence.
Qed.

End ClassIndexProofs.

(** X20. [ClaudeStorage.findSessionFile] of the server sources and
    [findSessionFile] of [api/storage.ts] return the same path and leave
    the same index when every directory of [projectsDir] can be listed.
    In general the method of the class either does the same or finds
    nothing and leaves the index as it is: it gives up at the first
    directory it cannot list, where the function passes that directory
    over. On a store whose first directory cannot be listed and whose
    second holds the transcript, the function finds it and the method
    does not. *)
Theorem findSessionFile_class_agrees_when_listable :
  (forall fs projectsDir fileIndex sessionId,
      Forall (fun dir =>
                is_Some (Node.readdir fs (Js.path_join projectsDir (Node.name dir))))
        (Catalog.directories fs projectsDir) ->
      ClaudeStorageFiles.findSessionFile fs projectsDir fileIndex sessionId
      = Storage.findSessionFile fs projectsDir fileIndex sessionId)
  /\ (forall fs projectsDir fileIndex sessionId,
        ClaudeStorageFiles.findSessionFile fs projectsDir fileIndex sessionId
        = Storage.findSessionFile fs projectsDir fileIndex sessionId
        \/ ClaudeStorageFiles.findSessionFile fs projectsDir fileIndex sessionId
           = (None, fileIndex))
  /\ (let fs :=
        {| Node.readdirTypes p :=
             if String.eqb p "/c/projects"
             then Some [ {| Node.name := "locked"; Node.isDirectory := true |};
                         {| Node.name := "open"; Node.isDirectory := true |} ]
             else if String.eqb p "/c/projects/open"
             then Some [ {| Node.name := "s1.jsonl"; Node.isDirectory := false |} ]
             else None;
           Node.readFile _ := None;
           Node.mtimeMs _ := None |} in
      (Storage.findSessionFile fs "/c/projects" [] "s1").1
      = Some "/c/projects/open/s1.jsonl"
      /\ (ClaudeStorageFiles.findSessionFile fs "/c/projects" [] "s1").1 = None).
Proof.
  split; [|split; [|by vm_compute]].
  - intros fs projectsDir fileIndex sessionId Hall.
    rewrite IndexProofs.findSessionFile_spec.
    unfold ClaudeStorageFiles.findSessionFile, Catalog.directories in *.
    destruct (Storage.index_get sessionId fileIndex); [done|].
    destruct (Node.readdirTypes fs projectsDir) as [dirs|]; [|done].
    destruct (ClassIndexProofs.scan_spec fs projectsDir sessionId dirs) as [_ H].
    rewrite (H Hall). by destruct (List.find _ _).
  - intros fs projectsDir fileIndex sessionId.
    rewrite IndexProofs.findSessionFile_spec.
    unfold ClaudeStorageFiles.findSessionFile, Catalog.directories.
    destruct (Storage.index_get sessionId fileIndex); [by left|].
    destruct (Node.readdirTypes fs projectsDir) as [dirs|]; [|by left].
    destruct (ClassIndexProofs.scan_spec fs projectsDir sessionId dirs)
      as [[H|H] _]; rewrite H; [by right|].
    left. by destruct (List.find _ _).
Qed.

(** X20 on the store with one project, whose directory can be listed. *)
Lemma findSessionFile_class_agrees_when_listable_witness :
  ClaudeStorageFiles.findSessionFile Scenario.one_project Scenario.projectsDir
    [] "s1"
  = Storage.findSessionFile Scenario.one_project Scenario.projectsDir [] "s1".
Proof.
  apply (proj1 findSessionFile_class_agrees_when_listable).
  assert (Catalog.directories Scenario.one_project Scenario.projectsDir
          = [ {| Node.name := "-Users-a-app-x"; Node.isDirectory := true |} ]) as ->
    by (by vm_compute).
  constructor; [|constructor]. eexists. by vm_compute.
Defined.

Module ClassReaderProofs.
Import Storage Catalog.

Lemma findSessionFile_listable fs projectsDir fileIndex sessionId :
  Forall (fun dir =>
            is_Some (Node.readdir fs (Js.path_join projectsDir (Node.name dir))))
    (directories fs projectsDir) ->
  ClaudeStorageFiles.findSessionFile fs projectsDir fileIndex sessionId
  = findSessionFile fs projectsDir fileIndex sessionId.
Proof.
  intros Hall. rewrite IndexProofs.findSessionFile_spec.
  unfold ClaudeStorageFiles.findSessionFile, directories in *.
  destruct (index_get sessionId fileIndex); [done|].
  destruct (Node.readdirTypes fs projectsDir) as [dirs|]; [|done].
  destruct (ClassIndexProofs.scan_spec fs projectsDir sessionId dirs) as [_ H].
  rewrite (H Hall). by destruct (List.find _ _).
Qed.

End ClassReaderProofs.

(** X24. [ClaudeStorage.getConversationStream] of the server sources and
    [getConversationStream] of [api/storage.ts] return the same messages
    and the same [nextOffset], for every offset, when every directory of
    [projectsDir] can be listed and the transcript found holds no carriage
    return. That includes the session that is not found (no message,
    offset 0), the file that cannot be read, and an offset at or past the
    end of the file (no message, the offset unchanged). *)
Theorem getConversationStream_class_agrees_listable_without_cr :
  forall (parse : string -> option json) fs projectsDir fileIndex sessionId
         fromOffset,
    Forall (fun dir =>
              is_Some (Node.readdir fs (Js.path_join projectsDir (Node.name dir))))
      (Catalog.directories fs projectsDir) ->
    (forall filePath content,
        Storage.located fs projectsDir fileIndex sessionId = Some filePath ->
        Node.readFile fs filePath = Some content ->
        Lines.no_cr content = true) ->
    ClaudeStorageFiles.getConversationStream parse fs projectsDir fileIndex
      sessionId fromOffset
    = Storage.getConversationStream parse fs projectsDir fileIndex sessionId
        fromOffset.
Proof.
  intros parse fs projectsDir fileIndex sessionId fromOffset Hall Hcr.
  unfold ClaudeStorageFiles.getConversationStream, Storage.getConversationStream.
  rewrite ClassReaderProofs.findSessionFile_listable by done.
  unfold Storage.located in *.
  destruct (Storage.findSessionFile fs projectsDir fileIndex sessionId).1
    as [filePath|]; [|done].
  destruct (Js.truthy_str filePath); [|done]. cbn [negb].
  destruct (Node.readFile fs filePath) as [content|] eqn:Hread; [|done].
  symmetry. apply ReaderBodies.stream_file_agree_without_cr.
  by apply (Hcr filePath).
Qed.

(** X24 on the store with one project, for session [s1] read from its
    second line (byte 37): both return the user and the assistant message
    and the size of the file. *)
Lemma getConversationStream_class_agrees_listable_without_cr_witness :
  ClaudeStorageFiles.getConversationStream Json.parse Scenario.one_project
    Scenario.projectsDir [] "s1" 37
  = Storage.getConversationStream Json.parse Scenario.one_project
      Scenario.projectsDir [] "s1" 37
  /\ Storage.getConversationStream Json.parse Scenario.one_project
       Scenario.projectsDir [] "s1" 37
     = {| Storage.messages := [Scenario.user_msg; Scenario.assistant_msg];
          Storage.nextOffset := String.length Scenario.transcript |}.
Proof.
  split; [|by vm_compute].
  apply (getConversationStream_class_agrees_listable_without_cr Json.parse
           Scenario.one_project Scenario.projectsDir [] "s1" 37).
  - assert (Catalog.directories Scenario.one_project Scenario.projectsDir
            = [ {| Node.name := "-Users-a-app-x"; Node.isDirectory := true |} ])
      as -> by (by vm_compute).
    constructor; [|constructor]. eexists. by vm_compute.
  - intros filePath content Hloc. vm_compute in Hloc. injection Hloc as <-.
    intros Hread. vm_compute in Hread. injection Hread as <-. by vm_compute.
Defined.

Module FirstTimestampProofs.
Import Storage FirstTimestamp Lines Scenario StringFacts.

Lemma indexOf_from_first_lf i line rest :
  no_eol line = true ->
  Js.indexOf_from i NL (line +:+ NL +:+ rest) = Some (i + String.length line).
Proof.
  revert i. induction line as [|c line IH]; intros i Hl.
  - rewrite app_empty_l. unfold NL. rewrite app_cons, app_empty_l.
    cbn. by rewrite Nat.add_0_r.
  - cbn in Hl. apply andb_true_iff in Hl as [Hc Hl].
    apply andb_true_iff in Hc as [Hlf _]. apply negb_true_iff in Hlf.
    rewrite app_cons. cbn [Js.indexOf_from Js.startsWith NL].
    rewrite Ascii.eqb_sym, Hlf. cbn [andb]. rewrite IH by done.
    cbn [String.length]. f_equal. lia.
Qed.

Lemma first_line_of line rest :
  no_eol line = true -> line <> "" ->
  first_line (line +:+ NL +:+ rest) = line.
Proof.
  intros Hl Hne. unfold first_line, Js.indexOf.
  change (String Js.LF "") with NL.
  rewrite indexOf_from_first_lf by done. cbn [Nat.add].
  destruct line as [|c line]; [done|]. cbn [String.length Nat.ltb Nat.leb].
  apply (PathProofs.slice_to_app (String c line)).
Qed.

End FirstTimestampProofs.

(** X21. [getFirstTimestamp] looks at the first line of the transcript
    only: two transcripts at the indexed path that begin with the same
    line, which is not empty and is ended by a line feed, give the same
    answer and the same cache. A session that is not in the file index has
    no first timestamp, whatever the disk holds, since the function does
    not search for the file. An answer is cached only when it is a time:
    a call that returns [undefined] leaves the cache as it is, and a time
    that has been returned once is returned at every later call, whatever
    has become of the file and of the index. *)
Theorem getFirstTimestamp_first_line_and_cache :
  (forall parse getTime fs fs' fileIndex cache sessionId filePath line rest rest',
      Storage.index_get sessionId fileIndex = Some filePath ->
      Node.readFile fs filePath = Some (line +:+ Scenario.NL +:+ rest) ->
      Node.readFile fs' filePath = Some (line +:+ Scenario.NL +:+ rest') ->
      Lines.no_eol line = true ->
      line <> "" ->
      FirstTimestamp.getFirstTimestamp parse getTime fs fileIndex cache sessionId
      = FirstTimestamp.getFirstTimestamp parse getTime fs' fileIndex cache sessionId)
  /\ (forall parse getTime fs fileIndex cache sessionId,
        Storage.index_get sessionId fileIndex = None ->
        cache !! sessionId = None ->
        FirstTimestamp.getFirstTimestamp parse getTime fs fileIndex cache sessionId
        = (None, cache))
  /\ (forall parse getTime fs fileIndex cache sessionId,
        (FirstTimestamp.getFirstTimestamp parse getTime fs fileIndex cache
           sessionId).1 = None ->
        (FirstTimestamp.getFirstTimestamp parse getTime fs fileIndex cache
           sessionId).2 = cache)
  /\ (forall parse getTime fs fs' fileIndex fileIndex' cache cache' sessionId ts,
        FirstTimestamp.getFirstTimestamp parse getTime fs fileIndex cache sessionId
        = (Some ts, cache') ->
        FirstTimestamp.getFirstTimestamp parse getTime fs' fileIndex' cache'
          sessionId
        = (Some ts, cache')).
Proof.
  split; [|split; [|split]].
  - intros parse getTime fs fs' fileIndex cache sessionId filePath line rest rest'
      Hidx Hfs Hfs' Hl Hne.
    unfold FirstTimestamp.getFirstTimestamp.
    rewrite Hidx, Hfs, Hfs'.
    by rewrite !FirstTimestampProofs.first_line_of.
  - intros parse getTime fs fileIndex cache sessionId Hidx Hc.
    unfold FirstTimestamp.getFirstTimestamp. by rewrite Hc, Hidx.
  - intros parse getTime fs fileIndex cache sessionId.
    unfold FirstTimestamp.getFirstTimestamp.
    destruct (cache !! sessionId); [done|].
    destruct (Storage.index_get sessionId fileIndex) as [filePath|]; [|done].
    destruct (Js.truthy_str filePath); [|done].
    destruct (Node.readFile fs filePath) as [content|]; [|done]. cbn [negb].
    destruct (Js.truthy_str (Js.trim _)); [|done]. cbn [negb].
    destruct (Storage.parse_message parse _) as [msg|]; [|done].
    destruct (as_string (get "timestamp" msg)) as [t|]; [|done].
    by destruct (Js.truthy_str t).
  - intros parse getTime fs fs' fileIndex fileIndex' cache cache' sessionId ts H.
    assert (Hc : cache' !! sessionId = Some ts).
    { unfold FirstTimestamp.getFirstTimestamp in H.
      destruct (cache !! sessionId) as [ts0|] eqn:Hc0.
      { injection H as <- <-. done. }
      destruct (Storage.index_get sessionId fileIndex) as [filePath|]; [|done].
      destruct (Js.truthy_str filePath); [|done].
      destruct (Node.readFile fs filePath) as [content|]; [|done].
      cbn [negb] in H.
      destruct (Js.truthy_str (Js.trim _)); [|done]. cbn [negb] in H.
      destruct (Storage.parse_message parse _) as [msg|]; [|done].
      destruct (as_string (get "timestamp" msg)) as [t|]; [|done].
      destruct (Js.truthy_str t); [|done].
      injection H as <- <-. apply lookup_insert_eq. }
    unfold FirstTimestamp.getFirstTimestamp. by rewrite Hc.
Qed.

(** X21 on a transcript of session [s1] whose first line bears a
    timestamp, with a clock that knows this one date, and on the same
    transcript cut after its first line: both calls return the time of the
    first line and cache it, and with that cache the time is returned
    again when the file and the index are gone. *)
Lemma getFirstTimestamp_first_line_and_cache_witness :
  let stamped_line :=
    Json.text "{'type':'user','uuid':'u1','timestamp':'2024-01-01T00:00:00.000Z'}" in
  let getTime := fun t : string =>
    if String.eqb t "2024-01-01T00:00:00.000Z"
    then FirstTimestamp.Num 1704067200000
    else FirstTimestamp.NaN in
  let store := fun content : string =>
    {| Node.readdirTypes _ := None;
       Node.readFile p :=
         if String.eqb p Scenario.s1_path then Some content else None;
       Node.mtimeMs _ := None |} in
  let whole :=
    store (stamped_line +:+ Scenario.NL
           +:+ (Scenario.assistant_line +:+ Scenario.NL)) in
  let cut := store (stamped_line +:+ Scenario.NL +:+ "") in
  let gone := store "" in
  let cached : gmap string FirstTimestamp.number :=
    <["s1"%string := FirstTimestamp.Num 1704067200000]> ∅ in
  FirstTimestamp.getFirstTimestamp Json.parse getTime whole
    [("s1", Scenario.s1_path)] ∅ "s1"
  = FirstTimestamp.getFirstTimestamp Json.parse getTime cut
      [("s1", Scenario.s1_path)] ∅ "s1"
  /\ FirstTimestamp.getFirstTimestamp Json.parse getTime whole
       [("s1", Scenario.s1_path)] ∅ "s1"
     = (Some (FirstTimestamp.Num 1704067200000), cached)
  /\ FirstTimestamp.getFirstTimestamp Json.parse getTime gone [] cached "s1"
     = (Some (FirstTimestamp.Num 1704067200000), cached).
Proof.
  intros stamped_line getTime store whole cut gone cached.
  assert (Hfirst : FirstTimestamp.getFirstTimestamp Json.parse getTime whole
                     [("s1"%string, Scenario.s1_path)] ∅ "s1"
                   = (Some (FirstTimestamp.Num 1704067200000), cached))
    by (by vm_compute).
  split; [|split; [exact Hfirst|]].
  - apply (proj1 getFirstTimestamp_first_line_and_cache Json.parse getTime
             whole cut [("s1"%string, Scenario.s1_path)] ∅ "s1"%string
             Scenario.s1_path stamped_line
             (Scenario.assistant_line +:+ Scenario.NL) "").
    + by vm_compute.
    + by vm_compute.
    + by vm_compute.
    + by vm_compute.
    + by vm_compute.
  - apply (proj2 (proj2 (proj2 getFirstTimestamp_first_line_and_cache))
             Json.parse getTime whole gone [("s1"%string, Scenario.s1_path)] []
             ∅ cached "s1"%string (FirstTimestamp.Num 1704067200000)).
    exact Hfirst.
Defined.

Module PollProofs.
Import Lines.

Lemma take_until_drop_until {A} (stop : A -> bool) (l : list A) :
  take_until stop (drop_until stop l) = [].
Proof.
  induction l as [|x l IH]; [done|]. cbn [drop_until].
  destruct (stop x) eqn:E; [|done]. cbn. by rewrite E.
Qed.

End PollProofs.

(** X22. Polling an unchanged transcript is idle. On a transcript without
    carriage return, an incremental read that starts at the offset the
    last read returned gives no message and returns that offset again,
    whether the last read consumed the whole file or stopped before a line
    it could not parse. *)
Theorem getConversationStream_poll_is_idle
    (parse : string -> option json) (content : string) (fromOffset : nat) :
  Lines.no_cr content = true ->
  let last_read := Storage.stream_file parse content fromOffset in
  Storage.stream_file parse content (Storage.nextOffset last_read)
  = {| Storage.messages := []; Storage.nextOffset := Storage.nextOffset last_read |}.
Proof.
  intros Hcr last_read. subst last_read.
  assert (Hend : forall n,
             String.length content <= n ->
             Storage.stream_file parse content n
             = {| Storage.messages := []; Storage.nextOffset := n |}).
  { intros n Hn. unfold Storage.stream_file.
    by destruct (Nat.leb_spec (String.length content) n); [|lia]. }
  destruct (Nat.le_gt_cases (String.length content) fromOffset) as [Hge|Hlt].
  { rewrite (Hend fromOffset Hge). cbn [Storage.nextOffset]. by apply Hend. }
  rewrite (StreamProofs.stream_file_spec parse content fromOffset Hlt).
  cbn [Storage.nextOffset].
  set (lines := Node.readline (Js.slice_from fromOffset content)).
  set (consumed := Lines.take_until (Lines.stops parse) lines).
  destruct (Nat.le_gt_cases (String.length content)
              (fromOffset + Lines.bytes consumed)) as [Hall|Hshort].
  { rewrite Nat.min_l by done. by apply Hend. }
  rewrite Nat.min_r by lia.
  rewrite (StreamProofs.stream_file_spec parse content _ Hshort).
  assert (Hrest : Node.readline
                    (Js.slice_from (fromOffset + Lines.bytes consumed) content)
                  = Lines.drop_until (Lines.stops parse) lines).
  { rewrite LinesProofs.slice_from_add. subst consumed.
    rewrite StreamProofs.take_until_take, StreamProofs.drop_until_drop.
    apply LinesProofs.readline_resume.
    - by apply LinesProofs.no_cr_slice_from.
    - apply StreamProofs.take_until_length. }
  rewrite Hrest, PollProofs.take_until_drop_until.
  cbn. f_equal. lia.
Qed.

(** X22 on the transcript followed by a line that is not written out
    yet: the first read stops before that line, at byte 325, and so does
    every read from there. *)
Lemma getConversationStream_poll_is_idle_witness :
  let content := Scenario.transcript +:+ "{'type':'us" in
  Storage.nextOffset (Storage.stream_file Json.parse content 0) = 325
  /\ Storage.stream_file Json.parse content 325
     = {| Storage.messages := []; Storage.nextOffset := 325 |}.
Proof.
  intros content.
  assert (Hn : Storage.nextOffset (Storage.stream_file Json.parse content 0) = 325)
    by (by vm_compute).
  split; [done|]. rewrite <- Hn at 1 2.
  apply (getConversationStream_poll_is_idle Json.parse content 0).
  by vm_compute.
Defined.

Module SearchScopeProofs.
Import Storage Catalog.

Lemma session_map_lookup (sessions : list Session) k s :
  session_map sessions !! k = Some s -> s ∈ sessions /\ id s = k.
Proof.
  unfold session_map. induction sessions as [|x l IH] using rev_ind.
  { cbn [foldl]. by rewrite lookup_empty. }
  rewrite foldl_snoc. destruct (decide (id x = k)) as [<-|Hne].
  - rewrite lookup_insert_eq. intros [= <-]. split; [|done].
    apply elem_of_app. right. by left.
  - rewrite lookup_insert_ne by done. intros [Hin Hid]%IH. split; [|done].
    apply elem_of_app. by left.
Qed.

Lemma entry_result_session parse fs sessions query entry r :
  Invariants.entry_result parse fs sessions query entry = Some r ->
  sr_sessionId r = entry.1
  /\ exists s,
       s ∈ sessions /\ id s = sr_sessionId r
       /\ sr_display r = display s /\ sr_timestamp r = timestamp s
       /\ sr_project r = project s /\ sr_projectName r = projectName s.
Proof.
  unfold Invariants.entry_result.
  destruct (session_map sessions !! entry.1) as [s|] eqn:Hs; [|done].
  destruct (0 <? _); [|done]. intros [= <-]. cbn.
  apply session_map_lookup in Hs as [Hin Hid]. split; [done|].
  exists s. by repeat split.
Qed.

End SearchScopeProofs.

(** X23. [searchSessions] searches the sessions of [getSessions()], which
    leaves the archived ones out, among the transcripts of the file index:
    every result is a session that is not archived, that is listed, whose
    display, project, project name and timestamp the result repeats, and
    whose id is a key of the file index. A session that is archived, or
    that no history entry resolves to, or that is not indexed, is never
    found, whatever its transcript holds. *)
Theorem searchSessions_skips_archived_and_unlisted
    (parse : string -> option json) (fs : Node.FileSystem) (projectsDir : string)
    (archivedSessions : gset string) (firstTimestampOf : string -> option Z)
    (entries : list Storage.HistoryEntry) (fileIndex : list (string * string))
    (query : string) (maxResults : nat) :
  let sessions :=
    Catalog.getSessions fs projectsDir archivedSessions firstTimestampOf false
      entries in
  Forall (fun r =>
            (Storage.sr_sessionId r ∉ archivedSessions)
            /\ (exists filePath, (Storage.sr_sessionId r, filePath) ∈ fileIndex)
            /\ exists s,
                 s ∈ sessions /\ Storage.id s = Storage.sr_sessionId r
                 /\ Storage.sr_display r = Storage.display s
                 /\ Storage.sr_timestamp r = Storage.timestamp s
                 /\ Storage.sr_project r = Storage.project s
                 /\ Storage.sr_projectName r = Storage.projectName s)
    (Storage.searchSessions parse fs sessions fileIndex query maxResults).
Proof.
  intros sessions.
  rewrite SearchResultProofs.searchSessions_spec.
  destruct (String.length query <? 2); [constructor|].
  apply Forall_forall. intros r Hr.
  rewrite (SearchProofs.sort_desc_perm Storage.sr_timestamp) in Hr.
  apply elem_of_take in Hr as (i & Hr & _). apply list_elem_of_lookup_2 in Hr.
  apply list_elem_of_omap in Hr as ([sid filePath] & Hentry & Hres).
  destruct (SearchScopeProofs.entry_result_session parse fs sessions query _ r Hres)
    as (Hsid & s & Hs & Hid & Hfields).
  cbn in Hsid. split; [|split].
  - rewrite <- Hid.
    by apply (SessionListFacts.not_archived_when_hidden fs projectsDir
                archivedSessions firstTimestampOf entries).
  - exists filePath. by rewrite Hsid.
  - by exists s.
Qed.
